(** * A shallow embedding of the sync/copy/move engine

    The development follows the Go sources: the sync engine
    ([fs/sync.go]: [NeedTransfer], [processError], [pairChecker],
    [newSyncCopyMove], [_runDirAtATime], the delete-after phase of
    [runDirAtATime]), the repeatable reader, the B2 upload-URL pool and the
    bisync listing files.

    Conventions.  Go [int64] values ([time.Duration], sizes, offsets) are
    integers in [Z] with the wrap-around written out.  Channels are modelled
    by the list of the values sent on them so far; the [abort] channel, which
    only ever gets closed, by a record with a closed flag.  Logging calls
    ([Debugf], [Errorf], [Logf]) and the [Stats.Checking] bookkeeping have no
    influence on control flow and are left out. *)

From stdpp Require Import base option list strings gmap sorting.
From Stdlib Require Import ZArith Lia Sorted Ascii DecimalString DecimalPos DecimalZ.

Local Open Scope Z_scope.

(** ** Machine integers *)

Module Int64.

Definition min_int : Z := - 2 ^ 63.
Definition max_int : Z := 2 ^ 63 - 1.

(** Two's complement reduction of an integer to 64 bits. *)
Definition wrap (x : Z) : Z := (x + 2 ^ 63) mod 2 ^ 64 - 2 ^ 63.

Definition add (x y : Z) : Z := wrap (x + y).
Definition sub (x y : Z) : Z := wrap (x - y).
Definition neg (x : Z) : Z := wrap (- x).

Definition in_range (x : Z) : Prop := min_int <= x <= max_int.

(** Saturation, as [time.Time.Sub] does on overflow. *)
Definition clamp (x : Z) : Z :=
  if x <? min_int then min_int else if max_int <? x then max_int else x.

Lemma wrap_in_range x : in_range (wrap x).
Proof.
  unfold in_range, wrap, min_int, max_int.
  pose proof (Z.mod_pos_bound (x + 2 ^ 63) (2 ^ 64) ltac:(lia)). lia.
Qed.

Lemma wrap_small x : in_range x → wrap x = x.
Proof.
  unfold in_range, wrap, min_int, max_int. intros Hx.
  rewrite Z.mod_small; lia.
Qed.

Lemma neg_small x : min_int < x <= max_int → neg x = - x.
Proof.
  unfold neg, min_int, max_int. intros Hx.
  apply wrap_small. unfold in_range, min_int, max_int. lia.
Qed.

Lemma clamp_in_range x : in_range (clamp x).
Proof.
  unfold in_range, clamp, min_int, max_int.
  repeat case_match; lia.
Qed.

Lemma clamp_small x : in_range x → clamp x = x.
Proof.
  unfold in_range, clamp, min_int, max_int. intros Hx.
  repeat case_match; lia.
Qed.

End Int64.

(** ** Times and durations *)

(** A [time.Duration] is an [int64] count of nanoseconds. *)
Definition Duration := Z.

Definition Nanosecond : Duration := 1.
Definition Second : Duration := 1000000000.
Definition Hour : Duration := 3600 * Second.

(** A [time.Time] is an instant; only differences of instants are observed
    by the code below, so an instant is its offset in nanoseconds from some
    fixed origin. *)
Definition Time := Z.

(** [t.Sub(u)]: the duration [t - u], saturated to the [int64] range. *)
Definition Time_Sub (t u : Time) : Duration := Int64.clamp (t - u).

(** ** Errors *)

(** Modelled from the spec: the retry-classifying error types of the [fs]
    package ([FatalError], [NoRetryError], [IsFatalError], [IsNoRetryError])
    are not among the source files.  An error carries its message and the
    two classification bits the engine inspects. *)
Record error := mkError {
  errMsg : string;
  errFatal : bool;
  errNoRetry : bool;
}.

Global Instance error_eq_dec : EqDecision error.
Proof. solve_decision. Defined.

Definition errors_New (msg : string) : error := mkError msg false false.
Definition FatalError (e : error) : error := mkError (errMsg e) true (errNoRetry e).
Definition NoRetryError (e : error) : error := mkError (errMsg e) (errFatal e) true.
Definition IsFatalError (e : error) : bool := errFatal e.
Definition IsNoRetryError (e : error) : bool := errNoRetry e.

(** [errors.Wrapf(err, ...)] returns nil when [err] is nil and otherwise an
    error annotated with the message; the classification is that of the
    cause. *)
Definition errors_Wrapf (err : option error) (msg : string) : option error :=
  (λ e, mkError (msg +:+ ": " +:+ errMsg e) (errFatal e) (errNoRetry e)) <$> err.

(** ** The abort broadcast channel *)

(** A channel on which nothing is ever sent: the only observable is whether
    it has been closed.  Closing a closed channel panics in Go;
    [closeCalls] counts the calls of [close] so that this can be stated. *)
Record signal := mkSignal {
  closed : bool;
  closeCalls : nat;
}.

Definition make_signal : signal := mkSignal false 0.
Definition close_signal (c : signal) : signal := mkSignal true (S (closeCalls c)).

(** ** Panics *)

(** A function of the source that panics does not return a value. *)
Inductive outcome (A : Type) :=
  | Returns (a : A)
  | Panics (msg : string).
Global Arguments Returns {A} a.
Global Arguments Panics {A} msg.

Definition bind_outcome {A B} (m : outcome A) (k : A → outcome B) : outcome B :=
  match m with
  | Returns a => k a
  | Panics msg => Panics msg
  end.

(** ** The sync engine ([fs/sync.go]) *)

Module Sync.

(** *** Data model *)

(** An [Object] is an interface in the source; the engine only calls its
    accessor methods, whose results are the fields here. *)
Record Object := mkObject {
  Remote : string;
  Size : Z;
  ModTime : Time;
  Storable : bool;
}.

Record Dir := mkDir {
  dirRemote : string;
}.

(** [BasicInfo] values found in a listing: an [Object] or a [*Dir]. *)
Inductive BasicInfo :=
  | EObject (o : Object)
  | EDir (d : Dir).

Definition entryRemote (e : BasicInfo) : string :=
  match e with
  | EObject o => Remote o
  | EDir d => dirRemote d
  end.

Definition DirEntries := list BasicInfo.

Record ObjectPair := mkObjectPair {
  src : Object;
  dst : option Object;
}.

Inductive DeleteMode :=
  | DeleteModeOff
  | DeleteModeBefore
  | DeleteModeDuring
  | DeleteModeAfter
  | DeleteModeOnly.

Global Instance DeleteMode_eq_dec : EqDecision DeleteMode.
Proof. solve_decision. Defined.

(** Modelled from the spec: hash types and hash sets ([fs/hash.go] is not
    among the source files).  A [HashSet] is a bit field, one bit per hash
    algorithm; a [HashType] is a single bit of it, [HashNone] the empty
    field.  [Overlap] is the intersection and [GetOne] picks the canonical
    member of a set, [HashNone] when the set is empty. *)
Definition HashType := N.
Definition HashSet := N.
Definition HashNone : HashType := 0%N.

Definition Overlap (h t : HashSet) : HashSet := N.land h t.

Fixpoint lowest_bit (p : positive) : positive :=
  match p with
  | xO q => xO (lowest_bit q)
  | _ => xH
  end.

Definition GetOne (h : HashSet) : HashType :=
  match h with
  | N0 => HashNone
  | Npos p => Npos (lowest_bit p)
  end.

(** The part of a remote ([Fs]) that the engine inspects. *)
Record Fs := mkFs {
  fsName : string;
  fsRoot : string;
  Hashes : HashSet;
  featureMove : bool; (* Features().Move != nil *)
  featureCopy : bool; (* Features().Copy != nil *)
}.

(** Modelled from the spec: [CanServerSideMove] ([fs/operations.go] is not
    among the source files) holds when the remote can move or copy objects
    server side. *)
Definition CanServerSideMove (f : Fs) : bool := featureMove f || featureCopy f.

(** The fields of the global [Config] read by the engine. *)
Record ConfigInfo := mkConfig {
  NoTraverse : bool;
  TrackRenames : bool;
  IgnoreExisting : bool;
  IgnoreTimes : bool;
  UpdateOlder : bool;
  ModifyWindow : Duration;
  BackupDir : string;
  Suffix : string;
  DeleteExcluded : bool; (* Config.Filter.DeleteExcluded *)
}.

Record syncCopyMove := mkSyncCopyMove {
  fdst : Fs; (* destination *)
  fsrc : Fs; (* source *)
  deleteMode : DeleteMode; (* how we are doing deletions *)
  DoMove : bool;
  dir : string;
  noTraverse : bool; (* if set don't traverse the dst *)
  deleteFilesCh : list Object; (* objects sent for deletion *)
  trackRenames : bool; (* set if we should do server side renames *)
  dstFiles : gmap string Object; (* dst files *)
  srcFiles : gmap string Object; (* src files, only used if deleteBefore *)
  abort : signal; (* signal to abort the copiers *)
  toBeChecked : list ObjectPair; (* pairs sent to the checkers *)
  toBeUploaded : list ObjectPair; (* pairs sent to the copiers *)
  err : option error; (* normal error from copy process *)
  noRetryErr : option error; (* error with NoRetry set *)
  fatalErr : option error; (* fatal error *)
  commonHash : HashType; (* common hash type between src and dst *)
  toBeRenamed : list ObjectPair; (* pairs sent to the renamers *)
  trackRenamesCh : list Object; (* objects saved to check for a rename *)
  backupDir : option Fs; (* place to store overwrites/deletes *)
  suffix : string; (* suffix to add to files placed in backupDir *)
}.

(** Field updates ([s.f = v] in the source). *)
Definition set_deleteFilesCh (v : list Object) (s : syncCopyMove) : syncCopyMove :=
  mkSyncCopyMove (fdst s) (fsrc s) (deleteMode s) (DoMove s) (dir s)
    (noTraverse s) v (trackRenames s) (dstFiles s) (srcFiles s) (abort s)
    (toBeChecked s) (toBeUploaded s) (err s) (noRetryErr s) (fatalErr s)
    (commonHash s) (toBeRenamed s) (trackRenamesCh s) (backupDir s) (suffix s).

Definition set_dstFiles (v : gmap string Object) (s : syncCopyMove) : syncCopyMove :=
  mkSyncCopyMove (fdst s) (fsrc s) (deleteMode s) (DoMove s) (dir s)
    (noTraverse s) (deleteFilesCh s) (trackRenames s) v (srcFiles s) (abort s)
    (toBeChecked s) (toBeUploaded s) (err s) (noRetryErr s) (fatalErr s)
    (commonHash s) (toBeRenamed s) (trackRenamesCh s) (backupDir s) (suffix s).

Definition set_abort (v : signal) (s : syncCopyMove) : syncCopyMove :=
  mkSyncCopyMove (fdst s) (fsrc s) (deleteMode s) (DoMove s) (dir s)
    (noTraverse s) (deleteFilesCh s) (trackRenames s) (dstFiles s) (srcFiles
    s) v (toBeChecked s) (toBeUploaded s) (err s) (noRetryErr s) (fatalErr s)
    (commonHash s) (toBeRenamed s) (trackRenamesCh s) (backupDir s) (suffix s).

Definition set_toBeChecked (v : list ObjectPair) (s : syncCopyMove) : syncCopyMove :=
  mkSyncCopyMove (fdst s) (fsrc s) (deleteMode s) (DoMove s) (dir s)
    (noTraverse s) (deleteFilesCh s) (trackRenames s) (dstFiles s) (srcFiles
    s) (abort s) v (toBeUploaded s) (err s) (noRetryErr s) (fatalErr s)
    (commonHash s) (toBeRenamed s) (trackRenamesCh s) (backupDir s) (suffix s).

Definition set_toBeUploaded (v : list ObjectPair) (s : syncCopyMove) : syncCopyMove :=
  mkSyncCopyMove (fdst s) (fsrc s) (deleteMode s) (DoMove s) (dir s)
    (noTraverse s) (deleteFilesCh s) (trackRenames s) (dstFiles s) (srcFiles
    s) (abort s) (toBeChecked s) v (err s) (noRetryErr s) (fatalErr s)
    (commonHash s) (toBeRenamed s) (trackRenamesCh s) (backupDir s) (suffix s).

Definition set_err (v : option error) (s : syncCopyMove) : syncCopyMove :=
  mkSyncCopyMove (fdst s) (fsrc s) (deleteMode s) (DoMove s) (dir s)
    (noTraverse s) (deleteFilesCh s) (trackRenames s) (dstFiles s) (srcFiles
    s) (abort s) (toBeChecked s) (toBeUploaded s) v (noRetryErr s) (fatalErr
    s) (commonHash s) (toBeRenamed s) (trackRenamesCh s) (backupDir s) (suffix
    s).

Definition set_noRetryErr (v : option error) (s : syncCopyMove) : syncCopyMove :=
  mkSyncCopyMove (fdst s) (fsrc s) (deleteMode s) (DoMove s) (dir s)
    (noTraverse s) (deleteFilesCh s) (trackRenames s) (dstFiles s) (srcFiles
    s) (abort s) (toBeChecked s) (toBeUploaded s) (err s) v (fatalErr s)
    (commonHash s) (toBeRenamed s) (trackRenamesCh s) (backupDir s) (suffix s).

Definition set_fatalErr (v : option error) (s : syncCopyMove) : syncCopyMove :=
  mkSyncCopyMove (fdst s) (fsrc s) (deleteMode s) (DoMove s) (dir s)
    (noTraverse s) (deleteFilesCh s) (trackRenames s) (dstFiles s) (srcFiles
    s) (abort s) (toBeChecked s) (toBeUploaded s) (err s) (noRetryErr s) v
    (commonHash s) (toBeRenamed s) (trackRenamesCh s) (backupDir s) (suffix s).

Definition set_toBeRenamed (v : list ObjectPair) (s : syncCopyMove) : syncCopyMove :=
  mkSyncCopyMove (fdst s) (fsrc s) (deleteMode s) (DoMove s) (dir s)
    (noTraverse s) (deleteFilesCh s) (trackRenames s) (dstFiles s) (srcFiles
    s) (abort s) (toBeChecked s) (toBeUploaded s) (err s) (noRetryErr s)
    (fatalErr s) (commonHash s) v (trackRenamesCh s) (backupDir s) (suffix s).

Definition set_trackRenamesCh (v : list Object) (s : syncCopyMove) : syncCopyMove :=
  mkSyncCopyMove (fdst s) (fsrc s) (deleteMode s) (DoMove s) (dir s)
    (noTraverse s) (deleteFilesCh s) (trackRenames s) (dstFiles s) (srcFiles
    s) (abort s) (toBeChecked s) (toBeUploaded s) (err s) (noRetryErr s)
    (fatalErr s) (commonHash s) (toBeRenamed s) v (backupDir s) (suffix s).

Definition ErrorNotDeleting : error :=
  errors_New "not deleting files as there were IO errors".
Definition ErrorDirNotFound : error := errors_New "directory not found".

(** *** NeedTransfer *)

Section NeedTransfer.

(** The sentinel precision of remotes without modification times and the
    comparison [Equal] of [fs/operations.go] are declared outside the source
    files at hand. *)
Variable ModTimeNotSupported : Duration.
Variable Equal : Object → Object → bool.
Variable Config : ConfigInfo.

Definition NeedTransfer (dst : option Object) (src : Object) : bool :=
  match dst with
  | None => true
  | Some dst =>
    if IgnoreExisting Config then false
    else if IgnoreTimes Config then true
    else if UpdateOlder Config then
      let srcModTime := ModTime src in
      let dstModTime := ModTime dst in
      let dt := Time_Sub dstModTime srcModTime in
      let modifyWindow := ModifyWindow Config in
      let modifyWindow :=
        if modifyWindow =? ModTimeNotSupported then Second else modifyWindow in
      if dt >=? modifyWindow then false
      else if dt <=? Int64.neg modifyWindow then true
      else if Size src =? Size dst then false
      else true
    else
      if Equal src dst then false else true
  end.

End NeedTransfer.

(** *** Error aggregation *)

Definition aborting (s : syncCopyMove) : bool := closed (abort s).

Definition processError (e : option error) (s : syncCopyMove) : syncCopyMove :=
  match e with
  | None => s
  | Some e =>
    if IsFatalError e then
      let s := if aborting s then s else set_abort (close_signal (abort s)) s in
      set_fatalErr (Some e) s
    else if IsNoRetryError e then set_noRetryErr (Some e) s
    else set_err (Some e) s
  end.

Definition currentError (s : syncCopyMove) : option error :=
  match fatalErr s with
  | Some e => Some e
  | None =>
    match err s with
    | Some e => Some e
    | None => noRetryErr s
    end
  end.

(** *** newSyncCopyMove *)

Section newSyncCopyMove.

(** [NewFs], [SameConfig] and [Overlapping] belong to other files of the
    package. *)
Variable NewFs : string → Fs + error.
Variable SameConfig : Fs → Fs → bool.
Variable Overlapping : Fs → Fs → bool.
Variable Config : ConfigInfo.

Definition newSyncCopyMove (fdst fsrc : Fs) (deleteMode : DeleteMode)
    (DoMove : bool) : syncCopyMove + error :=
  let commonHash := GetOne (Overlap (Hashes fsrc) (Hashes fdst)) in
  let noTraverse := NoTraverse Config in
  let trackRenames := TrackRenames Config in
  let noTraverse :=
    if noTraverse && bool_decide (deleteMode ≠ DeleteModeOff) then false
    else noTraverse in
  let trackRenames :=
    if trackRenames then
      let trackRenames :=
        if negb (CanServerSideMove fdst) then false else trackRenames in
      let trackRenames :=
        if bool_decide (commonHash = HashNone) then false else trackRenames in
      trackRenames
    else trackRenames in
  let deleteMode :=
    if trackRenames then
      if bool_decide (deleteMode ≠ DeleteModeOff) then DeleteModeAfter
      else deleteMode
    else deleteMode in
  let noTraverse :=
    if trackRenames then (if noTraverse then false else noTraverse)
    else noTraverse in
  let s backupDir suffix :=
    mkSyncCopyMove fdst fsrc deleteMode DoMove EmptyString noTraverse []
      trackRenames ∅ ∅ make_signal [] [] None None None commonHash [] [] backupDir suffix in
  if bool_decide (BackupDir Config ≠ EmptyString) then
    match NewFs (BackupDir Config) with
    | inr e =>
      inr (FatalError (errors_New
             ("Failed to make fs for --backup-dir: " +:+ errMsg e)))
    | inl backupDir =>
      if negb (CanServerSideMove backupDir) then
        inr (FatalError (errors_New "can't use --backup-dir on a remote which doesn't support server side move or copy"))
      else if negb (SameConfig fdst backupDir) then
        inr (FatalError (errors_New "parameter to --backup-dir has to be on the same remote as destination"))
      else if Overlapping fdst backupDir then
        inr (FatalError (errors_New "destination and parameter to --backup-dir mustn't overlap"))
      else if Overlapping fsrc backupDir then
        inr (FatalError (errors_New "source and parameter to --backup-dir mustn't overlap"))
      else inl (s (Some backupDir) (Suffix Config))
    end
  else inl (s None EmptyString).

End newSyncCopyMove.

(** *** The pipeline workers *)

(** listDirJob describes a directory listing that needs to be done. *)
Record listDirJob := mkJob {
  remote : string;
  srcDepth : Z;
  dstDepth : Z;
  noSrc : bool;
  noDst : bool;
}.

Section Engine.

(** The remotes and the process-wide [Stats] form the environment of the
    engine.  Its state is a value of [World]; the operations of
    [fs/operations.go] and of the backends, which are not among the source
    files, act on it. *)
Variable World : Type.
Variable Stats_Errored : World → bool.
Variable NewObject : Fs → string → World → option Object.
Variable Move : Fs → option Object → string → Object → World → World * option error.
Variable DeleteFile : Object → World → World * option error.
Variable deleteFilesWithBackupDir :
  list Object → option Fs → World → World * option error.
Variable ListDirSorted : Fs → bool → string → World → DirEntries * option error.
Variable ModTimeNotSupported : Duration.
Variable Equal : Object → Object → bool.
Variable Config : ConfigInfo.

(** The body of the loop of [pairChecker] for one pair received on [in];
    [out] is [toBeUploaded]. *)
Definition checkPair (p : ObjectPair) (st : syncCopyMove * World)
    : syncCopyMove * World :=
  let '(s, w) := st in
  if Storable (src p) then
    if NeedTransfer ModTimeNotSupported Equal Config (dst p) (src p) then
      match dst p, backupDir s with
      | Some pdst, Some bdir =>
        let remoteWithSuffix := Remote pdst +:+ suffix s in
        let overwritten := NewObject bdir remoteWithSuffix w in
        let '(w, e) := Move bdir overwritten remoteWithSuffix pdst w in
        match e with
        | Some e => (processError (Some e) s, w)
        | None =>
          (set_toBeUploaded (toBeUploaded s ++ [mkObjectPair (src p) None]) s, w)
        end
      | _, _ => (set_toBeUploaded (toBeUploaded s ++ [p]) s, w)
      end
    else if DoMove s then
      let '(w, e) := DeleteFile (src p) w in
      (processError e s, w)
    else (s, w)
  else (s, w).

(** [pairChecker] run by one worker on the pairs it receives, until the
    channel is closed or the abort signal is seen. *)
Fixpoint pairChecker (inp : list ObjectPair) (st : syncCopyMove * World)
    : syncCopyMove * World :=
  match inp with
  | [] => st
  | p :: inp => if aborting st.1 then st else pairChecker inp (checkPair p st)
  end.

(** The objects [deleteFiles] sends to the deleter, in the order in which
    the map is ranged over. *)
Fixpoint spareFiles (checkSrcMap : bool) (s : syncCopyMove)
    (entries : list (string * Object)) : list Object :=
  match entries with
  | [] => []
  | (name, o) :: entries =>
    if checkSrcMap && bool_decide (is_Some (srcFiles s !! name))
    then spareFiles checkSrcMap s entries
    else if aborting s then []
    else o :: spareFiles checkSrcMap s entries
  end.

Definition deleteFiles (checkSrcMap : bool) (st : syncCopyMove * World)
    : World * option error :=
  let '(s, w) := st in
  if Stats_Errored w then (w, Some ErrorNotDeleting)
  else
    let toDelete := spareFiles checkSrcMap s (map_to_list (dstFiles s)) in
    deleteFilesWithBackupDir toDelete (backupDir s) w.

(** The end of [runDirAtATime], once the workers have been stopped:
    the delete-after pass and the returned error. *)
Definition runDirAtATime_finish (st : syncCopyMove * World)
    : (syncCopyMove * World) * option error :=
  let '(s, w) := st in
  let st :=
    if bool_decide (deleteMode s = DeleteModeAfter) then
      match currentError s with
      | Some _ => (s, w)
      | None =>
        let '(w, e) := deleteFiles false (s, w) in
        (processError e s, w)
      end
    else (s, w) in
  (st, currentError st.1).

(** Have an object which is in the destination only. *)
Definition dstOnly (dst : BasicInfo) (job : listDirJob)
    (st : syncCopyMove * list listDirJob) : outcome (syncCopyMove * list listDirJob) :=
  let '(s, jobs) := st in
  if bool_decide (deleteMode s = DeleteModeOff) then Returns (s, jobs)
  else
    match dst with
    | EObject x =>
      match deleteMode s with
      | DeleteModeAfter =>
        Returns (set_dstFiles (<[Remote x := x]> (dstFiles s)) s, jobs)
      | DeleteModeDuring | DeleteModeOnly =>
        Returns (set_deleteFilesCh (deleteFilesCh s ++ [x]) s, jobs)
      | _ => Panics "unexpected delete mode"
      end
    | EDir _ =>
      if dstDepth job >? 0 then
        Returns (s, jobs ++ [mkJob (entryRemote dst) 0 (dstDepth job - 1) true false])
      else Returns (s, jobs)
    end.

(** Have an object which is in the source only. *)
Definition srcOnly (src : BasicInfo) (job : listDirJob)
    (st : syncCopyMove * list listDirJob) : outcome (syncCopyMove * list listDirJob) :=
  let '(s, jobs) := st in
  if bool_decide (deleteMode s = DeleteModeOnly) then Returns (s, jobs)
  else
    match src with
    | EObject x =>
      if trackRenames s then
        Returns (set_trackRenamesCh (trackRenamesCh s ++ [x]) s, jobs)
      else
        Returns (set_toBeUploaded (toBeUploaded s ++ [mkObjectPair x None]) s, jobs)
    | EDir _ =>
      if srcDepth job >? 0 then
        Returns (s, jobs ++ [mkJob (entryRemote src) (srcDepth job - 1) 0 false true])
      else Returns (s, jobs)
    end.

(** Given a src and a dst, transfer the src to dst. *)
Definition transfer (dst src : BasicInfo) (job : listDirJob)
    (st : syncCopyMove * list listDirJob) : outcome (syncCopyMove * list listDirJob) :=
  let '(s, jobs) := st in
  match src with
  | EObject srcX =>
    if bool_decide (deleteMode s = DeleteModeOnly) then Returns (s, jobs)
    else
      match dst with
      | EObject dstX =>
        Returns (set_toBeChecked (toBeChecked s ++ [mkObjectPair srcX (Some dstX)]) s, jobs)
      | EDir _ =>
        let e := errors_New "can't overwrite directory with file" in
        Returns (processError (Some e) s, jobs)
      end
  | EDir _ =>
    match dst with
    | EDir _ =>
      if (srcDepth job >? 0) && (dstDepth job >? 0) then
        Returns (s, jobs ++ [mkJob (entryRemote src) (srcDepth job - 1)
                               (dstDepth job - 1) false false])
      else Returns (s, jobs)
    | EObject _ =>
      let e := errors_New "can't overwrite file with directory" in
      Returns (processError (Some e) s, jobs)
    end
  end.

(** [srcList[i]] guarded by [i < len(srcList)], [nil] otherwise. *)
Definition entryAt (l : DirEntries) (i : Z) : option BasicInfo :=
  if i <? Z.of_nat (length l) then l !! Z.to_nat i else None.

(** The loop of [_runDirAtATime] matching up the items of the two sorted
    slices, started at the indices [iSrc] and [iDst].  [fuel] bounds the
    number of iterations; [None] means that it ran out. *)
Fixpoint matchLoop (fuel : nat) (job : listDirJob) (srcList dstList : DirEntries)
    (iSrc iDst : Z) (st : syncCopyMove * list listDirJob)
    : option (outcome (syncCopyMove * list listDirJob)) :=
  match fuel with
  | O => None
  | S fuel =>
    if aborting st.1 then Some (Returns (st.1, []))
    else
      let src := entryAt srcList iSrc in
      let dst := entryAt dstList iDst in
      match src, dst with
      | None, None => Some (Returns st)
      | _, _ =>
        let '(src, dst, iSrc, iDst) :=
          match src, dst with
          | Some a, Some b =>
            if String.ltb (entryRemote a) (entryRemote b) then
              (src, None, iSrc, iDst - 1) (* retry the dst *)
            else if String.ltb (entryRemote b) (entryRemote a) then
              (None, dst, iSrc - 1, iDst) (* retry the src *)
            else (src, dst, iSrc, iDst)
          | _, _ => (src, dst, iSrc, iDst)
          end in
        let r :=
          match src, dst with
          | None, Some b => dstOnly b job st
          | Some a, None => srcOnly a job st
          | Some a, Some b => transfer b a job st
          | None, None => Returns st
          end in
        match r with
        | Returns st => matchLoop fuel job srcList dstList (iSrc + 1) (iDst + 1) st
        | Panics msg => Some (Panics msg)
        end
      end
  end.

(** Every iteration consumes an entry of one of the listings, so this many
    iterations are enough (see [matchLoop_spec] and [runDirAtATime_returns]). *)
Definition matchFuel (srcList dstList : DirEntries) : nat :=
  S (length srcList + length dstList).

(** The two listings are made concurrently in the source; they only read
    the remotes.  When the destination listing fails the source wraps
    [srcListErr], which is nil at that point, so no error is recorded. *)
Definition _runDirAtATime (job : listDirJob) (w : World) (s : syncCopyMove)
    : option (outcome (syncCopyMove * list listDirJob)) :=
  let '(srcList, srcListErr) :=
    if noSrc job then ([], None)
    else ListDirSorted (fsrc s) false (remote job) w in
  let '(dstList, dstListErr) :=
    if noDst job then ([], None)
    else ListDirSorted (fdst s) (DeleteExcluded Config) (remote job) w in
  match srcListErr with
  | Some _ =>
    Some (Returns
      (processError (errors_Wrapf srcListErr "error reading source directory") s, []))
  | None =>
    if negb (bool_decide (dstListErr = Some ErrorDirNotFound))
       && bool_decide (dstListErr ≠ None) then
      Some (Returns
        (processError (errors_Wrapf srcListErr "error reading destination directory") s,
         []))
    else matchLoop (matchFuel srcList dstList) job srcList dstList 0 0 (s, [])
  end.

(** *** The merge as the specification describes it *)

(** How an entry of a pair of listings is classified. *)
Inductive matchClass :=
  | MatchedPair (src dst : BasicInfo)
  | SrcOnly (src : BasicInfo)
  | DstOnly (dst : BasicInfo).

(** The merge of two listings following the specification's pseudo-code:
    equal names are classified together, otherwise the entry with the
    smaller name is classified alone; past the end of a listing the other
    listing's entries are classified alone. *)
Fixpoint specMerge (srcList dstList : DirEntries) : list matchClass :=
  match srcList with
  | [] => DstOnly <$> dstList
  | a :: srcList' =>
    (fix specMerge_dst (dstList : DirEntries) : list matchClass :=
       match dstList with
       | [] => SrcOnly a :: specMerge srcList' []
       | b :: dstList' =>
         if bool_decide (entryRemote a = entryRemote b) then
           MatchedPair a b :: specMerge srcList' dstList'
         else if String.ltb (entryRemote a) (entryRemote b) then
           SrcOnly a :: specMerge srcList' (b :: dstList')
         else DstOnly b :: specMerge_dst dstList'
       end) dstList
  end.

(** The handler [_runDirAtATime] calls for an entry of each class. *)
Definition classify (job : listDirJob) (c : matchClass)
    (st : syncCopyMove * list listDirJob) : outcome (syncCopyMove * list listDirJob) :=
  match c with
  | MatchedPair a b => transfer b a job st
  | SrcOnly a => srcOnly a job st
  | DstOnly b => dstOnly b job st
  end.

Fixpoint classifyAll (job : listDirJob) (cs : list matchClass)
    (st : syncCopyMove * list listDirJob) : outcome (syncCopyMove * list listDirJob) :=
  match cs with
  | [] => Returns st
  | c :: cs => bind_outcome (classify job c st) (classifyAll job cs)
  end.

Definition classSrc (c : matchClass) : option BasicInfo :=
  match c with
  | MatchedPair a _ | SrcOnly a => Some a
  | DstOnly _ => None
  end.

Definition classDst (c : matchClass) : option BasicInfo :=
  match c with
  | MatchedPair _ b | DstOnly b => Some b
  | SrcOnly _ => None
  end.

(** A listing sorted by name, without repeated names. *)
Definition name_lt (a b : BasicInfo) : Prop :=
  String.ltb (entryRemote a) (entryRemote b) = true.

Definition sortedByName (l : DirEntries) : Prop := StronglySorted name_lt l.

End Engine.

(** *** Statements about [NeedTransfer] *)

(** The window [NeedTransfer] compares modification times with under
    [--update]: the configured window, or one second when that is the
    sentinel of remotes without modification times. *)
Definition updateWindow (ModTimeNotSupported : Duration) (Config : ConfigInfo)
    : Duration :=
  if ModifyWindow Config =? ModTimeNotSupported then Second
  else ModifyWindow Config.

(** The rule of [--update] for a window [W], a difference [dt] of the
    modification times (destination minus source) and a decision [r]:
    skip when the destination is newer, transfer when it is older, and
    within the window transfer exactly when the sizes differ. *)
Definition updateOlderRule (W dt : Duration) (src dst : Object) (r : bool) : Prop :=
  (dt >= W → r = false) ∧
  (dt <= - W → r = true) ∧
  (- W < dt < W → (r = true ↔ Size src ≠ Size dst)).

(** *** Statements about the error slots *)

(** [processError] called with each error of a sequence in turn. *)
Definition processErrors (errs : list (option error)) (s : syncCopyMove)
    : syncCopyMove :=
  foldl (λ s e, processError e s) s errs.

(** The classes of the [switch] of [processError]. *)
Definition isOrdinary (e : error) : bool :=
  negb (IsFatalError e) && negb (IsNoRetryError e).
Definition isNoRetry (e : error) : bool :=
  negb (IsFatalError e) && IsNoRetryError e.

(** The last error of [errs] in the class [P]; [d] when there is none. *)
Definition lastWhere (P : error → bool) (errs : list error) (d : option error)
    : option error :=
  match last (List.filter P errs) with
  | Some e => Some e
  | None => d
  end.

Lemma NeedTransfer_update_older_eq ModTimeNotSupported Equal Config dst src :
  IgnoreExisting Config = false →
  IgnoreTimes Config = false →
  UpdateOlder Config = true →
  NeedTransfer ModTimeNotSupported Equal Config (Some dst) src =
    let W := updateWindow ModTimeNotSupported Config in
    let dt := Time_Sub (ModTime dst) (ModTime src) in
    if dt >=? W then false
    else if dt <=? Int64.neg W then true
    else negb (Size src =? Size dst).
Proof.
  intros Hie Hit Huo. unfold NeedTransfer, updateWindow.
  rewrite Hie, Hit, Huo. cbv zeta.
  repeat case_match; reflexivity.
Qed.

(** C1, as stated, fails when the configured window is the sentinel of
    remotes without modification times: the destination is two seconds
    newer than the source, which is well within the configured window of a
    hundred years, and the sizes differ, yet the file is skipped. *)
Lemma NeedTransfer_update_older_counterexample :
  let ModTimeNotSupported := 100 * 365 * 24 * Hour in
  let Config :=
    mkConfig false false false false true ModTimeNotSupported
      EmptyString EmptyString false in
  let src := mkObject "file" 1 0 true in
  let dst := mkObject "file" 2 (2 * Second) true in
  ¬ updateOlderRule (ModifyWindow Config) (Time_Sub (ModTime dst) (ModTime src))
      src dst
      (NeedTransfer ModTimeNotSupported (λ _ _, false) Config (Some dst) src).
Proof.
  intros ModTimeNotSupported Config src dst (_ & _ & Hwithin).
  vm_compute in Hwithin.
  assert (false = true) as Hr; [|discriminate Hr].
  apply Hwithin; [split; reflexivity|]. intros Heq. discriminate Heq.
Qed.

Lemma NeedTransfer_update_older_cases ModTimeNotSupported Equal Config dst src :
  IgnoreExisting Config = false →
  IgnoreTimes Config = false →
  UpdateOlder Config = true →
  let W := updateWindow ModTimeNotSupported Config in
  let dt := Time_Sub (ModTime dst) (ModTime src) in
  let r := NeedTransfer ModTimeNotSupported Equal Config (Some dst) src in
  (dt >= W → r = false) ∧
  (dt < W → dt <= Int64.neg W → r = true) ∧
  (dt < W → Int64.neg W < dt → (r = true ↔ Size src ≠ Size dst)) ∧
  (0 < W <= Int64.max_int → updateOlderRule W dt src dst r).
Proof.
  intros Hie Hit Huo W dt r.
  assert (r = if dt >=? W then false
              else if dt <=? Int64.neg W then true
              else negb (Size src =? Size dst)) as Hr.
  { subst r. by rewrite NeedTransfer_update_older_eq. }
  clearbody r. rewrite Z.geb_leb in Hr.
  assert ((dt >= W → r = false) ∧
          (dt < W → dt <= Int64.neg W → r = true) ∧
          (dt < W → Int64.neg W < dt → (r = true ↔ Size src ≠ Size dst)))
    as (H1 & H2 & H3).
  { destruct (Z.leb_spec W dt) as [Hge|Hlt].
    { subst r. repeat split; intros; try lia; done. }
    destruct (Z.leb_spec dt (Int64.neg W)) as [Hle|Hgt].
    { subst r. repeat split; intros; try lia; done. }
    subst r. split; [lia|]. split; [lia|]. intros _ _. split.
    - intros Hn Heq. rewrite Heq, Z.eqb_refl in Hn. discriminate Hn.
    - intros Hne. apply Z.eqb_neq in Hne. by rewrite Hne. }
  split; [exact H1|]. split; [exact H2|]. split; [exact H3|].
  intros HW. pose proof (Int64.neg_small W) as Hneg.
  unfold Int64.min_int, Int64.max_int in *.
  split; [exact H1|]. split.
  - intros Hd. apply H2; lia.
  - intros Hd. apply H3; lia.
Qed.

(** C1 (amended).  Under [--update] (with [--ignore-existing] and
    [--ignore-times] off) and for a destination that exists, let [W] be the
    window in force: [Config.ModifyWindow], or one second when that equals
    the sentinel [ModTimeNotSupported]; let [dt] be the destination's mtime
    minus the source's.  [NeedTransfer] returns false when [dt >= W];
    otherwise it returns true when [dt <= -W]; otherwise it returns true
    exactly when the sizes differ.  For a positive [W] this is
    [updateOlderRule] for the window [W]. *)
Theorem NeedTransfer_update_older ModTimeNotSupported Equal Config dst src :
  IgnoreExisting Config = false →
  IgnoreTimes Config = false →
  UpdateOlder Config = true →
  let W := updateWindow ModTimeNotSupported Config in
  let dt := Time_Sub (ModTime dst) (ModTime src) in
  let r := NeedTransfer ModTimeNotSupported Equal Config (Some dst) src in
  (dt >= W → r = false) ∧
  (dt < W → dt <= Int64.neg W → r = true) ∧
  (dt < W → Int64.neg W < dt → (r = true ↔ Size src ≠ Size dst)) ∧
  (0 < W <= Int64.max_int → updateOlderRule W dt src dst r).
Proof. apply NeedTransfer_update_older_cases. Qed.

Lemma NeedTransfer_update_older_witness :
  let Config :=
    mkConfig false false false false true Second EmptyString EmptyString false in
  let src := mkObject "file" 1 0 true in
  let dst := mkObject "file" 2 (3 * Second) true in
  NeedTransfer (100 * 365 * 24 * Hour) (λ _ _, false) Config (Some dst) src = false.
Proof.
  intros Config src dst.
  destruct (NeedTransfer_update_older (100 * 365 * 24 * Hour) (λ _ _, false)
              Config dst src eq_refl eq_refl eq_refl) as [Hnewer _].
  apply Hnewer. vm_compute. discriminate.
Defined.

(** C9.  Under [--update], when the configured [ModifyWindow] is the
    sentinel [ModTimeNotSupported], [NeedTransfer] returns a decision made
    with a window of exactly one second: skip when the destination is at
    least a second newer, transfer when it is at least a second older, and
    otherwise transfer exactly when the sizes differ. *)
Theorem NeedTransfer_sentinel_window ModTimeNotSupported Equal Config dst src :
  IgnoreExisting Config = false →
  IgnoreTimes Config = false →
  UpdateOlder Config = true →
  ModifyWindow Config = ModTimeNotSupported →
  let dt := Time_Sub (ModTime dst) (ModTime src) in
  NeedTransfer ModTimeNotSupported Equal Config (Some dst) src =
    (if dt >=? Second then false
     else if dt <=? - Second then true
     else negb (Size src =? Size dst)) ∧
  updateOlderRule Second dt src dst
    (NeedTransfer ModTimeNotSupported Equal Config (Some dst) src).
Proof.
  intros Hie Hit Huo Hmw dt.
  pose proof (NeedTransfer_update_older_cases ModTimeNotSupported Equal Config
                dst src Hie Hit Huo) as Hrule.
  rewrite NeedTransfer_update_older_eq in * by done.
  unfold updateWindow in *. rewrite Hmw, Z.eqb_refl in *. cbv zeta in *.
  split; [reflexivity|].
  apply Hrule. unfold Int64.max_int, Second. lia.
Qed.

Lemma NeedTransfer_sentinel_window_witness :
  let ModTimeNotSupported := 100 * 365 * 24 * Hour in
  let Config :=
    mkConfig false false false false true ModTimeNotSupported
      EmptyString EmptyString false in
  let src := mkObject "file" 1 0 true in
  let dst := mkObject "file" 2 (2 * Second) true in
  NeedTransfer ModTimeNotSupported (λ _ _, false) Config (Some dst) src = false.
Proof.
  intros ModTimeNotSupported Config src dst.
  exact (proj1 (NeedTransfer_sentinel_window ModTimeNotSupported (λ _ _, false)
                  Config dst src eq_refl eq_refl eq_refl eq_refl)).
Defined.

(** *** Error aggregation *)

Lemma lastWhere_cons P x l d :
  lastWhere P (x :: l) d = lastWhere P l (if P x then Some x else d).
Proof.
  unfold lastWhere. simpl. destruct (P x); [|reflexivity].
  rewrite last_cons. by destruct (last (List.filter P l)).
Qed.

Lemma processErrors_slots errs s :
  let s' := processErrors errs s in
  let reported := omap id errs in
  fatalErr s' = lastWhere IsFatalError reported (fatalErr s) ∧
  err s' = lastWhere isOrdinary reported (err s) ∧
  noRetryErr s' = lastWhere isNoRetry reported (noRetryErr s) ∧
  closed (abort s') = closed (abort s) || existsb IsFatalError reported ∧
  closeCalls (abort s') =
    (closeCalls (abort s) +
     if closed (abort s) then 0
     else if existsb IsFatalError reported then 1 else 0)%nat.
Proof.
  revert s. induction errs as [|e errs IH]; intros s; cbv zeta.
  { simpl. unfold lastWhere. simpl. rewrite orb_false_r.
    repeat split; try done. destruct (closed (abort s)); lia. }
  change (processErrors (e :: errs) s) with (processErrors errs (processError e s)).
  destruct (IH (processError e s)) as (Hf & He & Hn & Hc & Hk).
  rewrite Hf, He, Hn, Hc, Hk. clear IH Hf He Hn Hc Hk.
  destruct e as [e|]; [|done].
  change (omap id (Some e :: errs)) with (e :: omap id errs).
  rewrite !lastWhere_cons. simpl existsb.
  unfold processError, isOrdinary, isNoRetry, aborting.
  destruct (IsFatalError e) eqn:Hfatal; simpl.
  - destruct (closed (abort s)) eqn:Hcl; simpl; rewrite ?Hcl; simpl;
      repeat split; try done; lia.
  - destruct (IsNoRetryError e); simpl; done.
Qed.

(** C3.  After any sequence of errors has been reported through
    [processError] to a fresh state, [currentError] returns the fatal error
    recorded (the last fatal one) if an error of the sequence was fatal;
    otherwise the last ordinary error if there is one; otherwise the last
    no-retry error.  The abort channel is closed exactly when an error of
    the sequence was fatal, and [close] has then been called once. *)
Theorem processError_precedence (errs : list (option error)) (s0 : syncCopyMove) :
  fatalErr s0 = None →
  err s0 = None →
  noRetryErr s0 = None →
  abort s0 = make_signal →
  let s := processErrors errs s0 in
  let reported := omap id errs in
  currentError s =
    lastWhere IsFatalError reported
      (lastWhere isOrdinary reported (lastWhere isNoRetry reported None)) ∧
  closed (abort s) = existsb IsFatalError reported ∧
  closeCalls (abort s) = (if existsb IsFatalError reported then 1 else 0)%nat.
Proof.
  intros Hf He Hn Ha s reported.
  destruct (processErrors_slots errs s0) as (Hf' & He' & Hn' & Hc' & Hk').
  fold s reported in Hf', He', Hn', Hc', Hk'.
  rewrite Hf in Hf'. rewrite He in He'. rewrite Hn in Hn'.
  rewrite Ha in Hc', Hk'. simpl in Hc', Hk'.
  split; [|by split].
  unfold currentError. rewrite Hf', He', Hn'. unfold lastWhere.
  repeat case_match; congruence.
Qed.

Lemma processError_precedence_witness :
  let s0 :=
    mkSyncCopyMove (mkFs "dst" EmptyString 1%N true false) (mkFs "src" EmptyString 1%N false false)
      DeleteModeOff false EmptyString false [] false ∅ ∅ make_signal [] []
      None None None 1%N [] [] None EmptyString in
  let fatal := FatalError (errors_New "denied") in
  let plain := errors_New "failed" in
  let noRetry := NoRetryError (errors_New "reader consumed") in
  let s := processErrors [Some plain; None; Some fatal; Some noRetry; Some plain] s0 in
  currentError s = Some fatal ∧ closed (abort s) = true ∧ closeCalls (abort s) = 1%nat.
Proof.
  intros s0 fatal plain noRetry s.
  exact (processError_precedence
           [Some plain; None; Some fatal; Some noRetry; Some plain] s0
           eq_refl eq_refl eq_refl eq_refl).
Defined.

(** *** Construction of the sync state *)

Lemma GetOne_none (h : HashSet) : GetOne h = HashNone ↔ h = 0%N.
Proof. destruct h; simpl; split; intros H; done. Qed.

Lemma Overlap_common (h t : HashSet) :
  Overlap h t ≠ 0%N ↔ ∃ i, N.testbit h i = true ∧ N.testbit t i = true.
Proof.
  unfold Overlap. split.
  - intros Hne. exists (N.log2 (N.land h t)).
    apply andb_true_iff. rewrite <- N.land_spec. by apply N.bit_log2.
  - intros (i & Hh & Ht) Hz.
    assert (N.testbit (N.land h t) i = true) as Hb.
    { rewrite N.land_spec, Hh, Ht. reflexivity. }
    rewrite Hz, N.bits_0 in Hb. discriminate Hb.
Qed.

Lemma newSyncCopyMove_fields NewFs SameConfig Overlapping Config fdst fsrc mode doMove s :
  newSyncCopyMove NewFs SameConfig Overlapping Config fdst fsrc mode doMove = inl s →
  trackRenames s =
    TrackRenames Config && CanServerSideMove fdst
    && negb (bool_decide (GetOne (Overlap (Hashes fsrc) (Hashes fdst)) = HashNone)) ∧
  deleteMode s =
    (if trackRenames s then
       if bool_decide (mode = DeleteModeOff) then DeleteModeOff else DeleteModeAfter
     else mode).
Proof.
  unfold newSyncCopyMove. intros Hs.
  assert (∃ bdir sfx, s =
    mkSyncCopyMove fdst fsrc
      (if TrackRenames Config && CanServerSideMove fdst
          && negb (bool_decide (GetOne (Overlap (Hashes fsrc) (Hashes fdst)) = HashNone))
       then if bool_decide (mode = DeleteModeOff) then DeleteModeOff else DeleteModeAfter
       else mode)
      doMove EmptyString (noTraverse s) []
      (TrackRenames Config && CanServerSideMove fdst
       && negb (bool_decide (GetOne (Overlap (Hashes fsrc) (Hashes fdst)) = HashNone)))
      ∅ ∅ make_signal [] [] None None None
      (GetOne (Overlap (Hashes fsrc) (Hashes fdst))) [] [] bdir sfx) as (bdir & sfx & ->).
  { destruct (TrackRenames Config), (CanServerSideMove fdst),
      (bool_decide (GetOne (Overlap (Hashes fsrc) (Hashes fdst)) = HashNone)),
      mode; simpl in Hs;
      repeat case_match; simplify_eq; simpl; eauto. }
  simpl. split; reflexivity.
Qed.

(** C4, as stated, fails when the requested delete mode is off: renames are
    tracked and the delete mode stays off. *)
Lemma newSyncCopyMove_trackRenames_counterexample :
  let Config :=
    mkConfig false true false false false Nanosecond EmptyString EmptyString false in
  let fdst := mkFs "dst" EmptyString 1%N true false in
  let fsrc := mkFs "src" EmptyString 1%N false false in
  ∃ s, newSyncCopyMove (λ _, inr (errors_New "no such remote")) (λ _ _, true)
         (λ _ _, false) Config fdst fsrc DeleteModeOff false = inl s ∧
       trackRenames s = true ∧ deleteMode s ≠ DeleteModeAfter.
Proof. eexists. split; [reflexivity|]. split; [reflexivity|]. discriminate. Qed.

(** C4 (amended).  Whenever [newSyncCopyMove] returns a sync state, track
    renames is enabled in it only if it was requested, the destination
    supports server-side move or copy and the two remotes have a hash type
    in common (and it is enabled whenever all three hold); and whenever it
    is enabled, the delete mode of the state is delete-after, unless the
    requested delete mode is off, which stays off. *)
Theorem newSyncCopyMove_trackRenames NewFs SameConfig Overlapping Config
    fdst fsrc mode doMove s :
  newSyncCopyMove NewFs SameConfig Overlapping Config fdst fsrc mode doMove = inl s →
  (trackRenames s = true ↔
     TrackRenames Config = true ∧ CanServerSideMove fdst = true ∧
     ∃ i, N.testbit (Hashes fsrc) i = true ∧ N.testbit (Hashes fdst) i = true) ∧
  (trackRenames s = true →
     deleteMode s =
       if bool_decide (mode = DeleteModeOff) then DeleteModeOff else DeleteModeAfter).
Proof.
  intros Hs. apply newSyncCopyMove_fields in Hs as [Htr Hdm].
  split.
  - rewrite Htr, !andb_true_iff, negb_true_iff, bool_decide_eq_false.
    rewrite GetOne_none, Overlap_common. tauto.
  - intros Hon. by rewrite Hon in Hdm.
Qed.

Lemma newSyncCopyMove_trackRenames_witness :
  ∃ s, newSyncCopyMove (λ _, inr (errors_New "no such remote")) (λ _ _, true)
         (λ _ _, false)
         (mkConfig false true false false false Nanosecond EmptyString EmptyString false)
         (mkFs "dst" EmptyString 1%N true false) (mkFs "src" EmptyString 1%N false false)
         DeleteModeDuring false = inl s ∧
       (trackRenames s = true → deleteMode s = DeleteModeAfter).
Proof.
  eexists. split; [reflexivity|].
  exact (proj2 (newSyncCopyMove_trackRenames
                  (λ _, inr (errors_New "no such remote")) (λ _ _, true) (λ _ _, false)
                  (mkConfig false true false false false Nanosecond
                     EmptyString EmptyString false)
                  (mkFs "dst" EmptyString 1%N true false)
                  (mkFs "src" EmptyString 1%N false false)
                  DeleteModeDuring false _ eq_refl)).
Defined.

(** *** The workers *)

Lemma processError_channels e s :
  toBeUploaded (processError e s) = toBeUploaded s ∧
  toBeChecked (processError e s) = toBeChecked s ∧
  trackRenamesCh (processError e s) = trackRenamesCh s ∧
  deleteFilesCh (processError e s) = deleteFilesCh s ∧
  dstFiles (processError e s) = dstFiles s.
Proof.
  unfold processError. destruct e as [e|]; [|done].
  destruct (IsFatalError e); [destruct (aborting s); done|].
  destruct (IsNoRetryError e); done.
Qed.

Lemma processError_recorded e s : currentError (processError (Some e) s) ≠ None.
Proof.
  unfold processError, currentError.
  destruct (IsFatalError e); [destruct (aborting s); done|].
  destruct (IsNoRetryError e); simpl; repeat case_match; done.
Qed.

Section Workers.

Context {World : Type}.
Variable Stats_Errored : World → bool.
Variable NewObject : Fs → string → World → option Object.
Variable Move : Fs → option Object → string → Object → World → World * option error.
Variable DeleteFile : Object → World → World * option error.
Variable deleteFilesWithBackupDir :
  list Object → option Fs → World → World * option error.
Variable ModTimeNotSupported : Duration.
Variable Equal : Object → Object → bool.
Variable Config : ConfigInfo.


(** C5.  At the end of [runDirAtATime] in delete-after mode, if an error
    has been recorded ([currentError] is not nil) or the error counter is
    not zero, no deletion takes place: either [deleteFiles] is not called
    (the state and the returned error are those before), or it returns
    [ErrorNotDeleting] at once, which is then recorded.  In both cases the
    remotes are left as they were, whatever the deleter would do, and the
    run returns an error. *)
Theorem delete_after_suppressed (s : syncCopyMove) (w : World) :
  deleteMode s = DeleteModeAfter →
  currentError s ≠ None ∨ Stats_Errored w = true →
  let res := runDirAtATime_finish World Stats_Errored deleteFilesWithBackupDir (s, w) in
  res.1.2 = w ∧
  res.2 ≠ None ∧
  dstFiles res.1.1 = dstFiles s ∧
  (currentError s ≠ None → res = ((s, w), currentError s)) ∧
  (currentError s = None →
     deleteFiles World Stats_Errored deleteFilesWithBackupDir false (s, w)
       = (w, Some ErrorNotDeleting) ∧
     res = ((processError (Some ErrorNotDeleting) s, w), Some ErrorNotDeleting)).
Proof.
  intros Hmode Herr res. subst res.
  unfold runDirAtATime_finish. rewrite Hmode. simpl bool_decide. cbv iota.
  destruct (currentError s) as [e|] eqn:Hcur.
  - simpl. rewrite Hcur. repeat split; done.
  - destruct Herr as [Herr|Herr]; [done|].
    unfold deleteFiles. rewrite Herr. cbn [fst snd].
    assert (currentError (processError (Some ErrorNotDeleting) s)
            = Some ErrorNotDeleting) as Hrec.
    { unfold currentError in *. simpl.
      destruct (fatalErr s); [done|]. reflexivity. }
    rewrite Hrec.
    pose proof (processError_channels (Some ErrorNotDeleting) s) as (_ & _ & _ & _ & Hd).
    repeat split; done.
Qed.

End Workers.


Lemma delete_after_suppressed_witness :
  let s :=
    mkSyncCopyMove (mkFs "dst" EmptyString 1%N true false)
      (mkFs "src" EmptyString 1%N false false)
      DeleteModeAfter false EmptyString false [] false
      {[ "old" := mkObject "old" 2 0 true ]} ∅ make_signal [] []
      (Some (errors_New "copy failed")) None None 1%N [] [] None EmptyString in
  (* a deleter that would remove everything it is given *)
  let deleter (os : list Object) (b : option Fs) (w : list string) :=
    (filter (λ name, name ∉ Remote <$> os) w, None) in
  (runDirAtATime_finish (list string) (λ _, false) deleter (s, ["old"])).1.2 = ["old"].
Proof.
  intros s deleter.
  assert (currentError s ≠ None) as Hcur by (unfold currentError; simpl; discriminate).
  destruct (delete_after_suppressed (λ _, false) deleter s ["old"] eq_refl
              (or_introl Hcur)) as [Hworld _].
  exact Hworld.
Defined.

(** *** The order of names *)

Lemma ltb_lt (a b : string) : String.ltb a b = true ↔ String.compare a b = Lt.
Proof. unfold String.ltb. destruct (String.compare a b); split; done. Qed.

Lemma compare_refl (a : string) : String.compare a a = Eq.
Proof.
  induction a as [|c a IH]; simpl; [done|].
  unfold Ascii.compare. by rewrite N.compare_refl.
Qed.

Lemma ltb_irrefl (a : string) : String.ltb a a = false.
Proof. unfold String.ltb. by rewrite compare_refl. Qed.

Lemma ltb_asym (a b : string) : String.ltb a b = true → String.ltb b a = false.
Proof.
  unfold String.ltb. rewrite (String.compare_antisym b a).
  by destruct (String.compare a b).
Qed.

Lemma ltb_neq (a b : string) : String.ltb a b = true → a ≠ b.
Proof. intros Hlt ->. by rewrite ltb_irrefl in Hlt. Qed.

Lemma ltb_trichotomy (a b : string) :
  String.ltb a b = false → String.ltb b a = false → a = b.
Proof.
  unfold String.ltb. rewrite (String.compare_antisym b a).
  destruct (String.compare a b) eqn:Hc; try done.
  intros _ _. by apply String.compare_eq_iff.
Qed.

Lemma ltb_le (a b : string) : String.ltb a b = true → String.le a b.
Proof.
  unfold String.le, String.ltb, String.leb.
  destruct (String.compare a b); simpl; intros; done.
Qed.

Lemma ltb_trans (a b c : string) :
  String.ltb a b = true → String.ltb b c = true → String.ltb a c = true.
Proof.
  intros Hab Hbc.
  assert (String.le a c) as Hac by (trans b; by apply ltb_le).
  destruct (String.ltb a c) eqn:Hlt; [done|].
  destruct (String.ltb c a) eqn:Hgt.
  - assert (b = c) as ->.
    { apply (anti_symm String.le); [by apply ltb_le|].
      trans a; by apply ltb_le. }
    by rewrite ltb_irrefl in Hbc.
  - assert (a = c) as -> by by apply ltb_trichotomy.
    by rewrite (ltb_asym _ _ Hab) in Hbc.
Qed.

Global Instance name_lt_trans : Transitive name_lt.
Proof. intros a b c. apply ltb_trans. Qed.

Lemma sortedByName_cons_lt a l b :
  sortedByName (a :: l) → b ∈ l → name_lt a b.
Proof.
  intros Hs Hin. apply StronglySorted_inv in Hs as [_ Hall].
  rewrite Forall_forall in Hall. by apply Hall.
Qed.

Lemma sortedByName_tail a l : sortedByName (a :: l) → sortedByName l.
Proof. intros Hs. by apply StronglySorted_inv in Hs as [? _]. Qed.

(** *** The loop of [_runDirAtATime] computes the merge *)

Lemma entryAt_drop (l : DirEntries) (i : Z) :
  0 <= i → entryAt l i = head (drop (Z.to_nat i) l).
Proof.
  intros Hi. unfold entryAt. rewrite head_lookup, lookup_drop, Nat.add_0_r.
  destruct (Z.ltb_spec i (Z.of_nat (length l))); [done|].
  symmetry. apply lookup_ge_None. lia.
Qed.

Lemma drop_next (l : DirEntries) (i : Z) :
  0 <= i → drop (Z.to_nat (i + 1)) l = tail (drop (Z.to_nat i) l).
Proof.
  intros Hi. replace (Z.to_nat (i + 1)) with (Z.to_nat i + 1)%nat by lia.
  rewrite <- drop_drop. by destruct (drop (Z.to_nat i) l).
Qed.

Lemma classify_aborting job c st st' :
  classify job c st = Returns st' → aborting st'.1 = aborting st.1.
Proof.
  destruct st as [s jobs], c as [a b|a|b]; simpl;
    unfold transfer, srcOnly, dstOnly; intros H;
    repeat case_match; simplify_eq; done.
Qed.

Lemma specMerge_nil_l dstList : specMerge [] dstList = DstOnly <$> dstList.
Proof. done. Qed.

Lemma specMerge_nil_r a srcList :
  specMerge (a :: srcList) [] = SrcOnly a :: specMerge srcList [].
Proof. done. Qed.

Lemma specMerge_cons a srcList b dstList :
  specMerge (a :: srcList) (b :: dstList) =
    if bool_decide (entryRemote a = entryRemote b) then
      MatchedPair a b :: specMerge srcList dstList
    else if String.ltb (entryRemote a) (entryRemote b) then
      SrcOnly a :: specMerge srcList (b :: dstList)
    else DstOnly b :: specMerge (a :: srcList) dstList.
Proof. done. Qed.

Lemma matchLoop_spec job srcList dstList fuel : ∀ iSrc iDst st,
  0 <= iSrc → 0 <= iDst →
  aborting st.1 = false →
  (length (drop (Z.to_nat iSrc) srcList)
   + length (drop (Z.to_nat iDst) dstList) < fuel)%nat →
  matchLoop fuel job srcList dstList iSrc iDst st =
    Some (classifyAll job
            (specMerge (drop (Z.to_nat iSrc) srcList) (drop (Z.to_nat iDst) dstList))
            st).
Proof.
  induction fuel as [|fuel IH]; intros iSrc iDst st HiS HiD Hab Hfuel; [lia|].
  simpl matchLoop. rewrite Hab, !entryAt_drop by done.
  pose proof (drop_next srcList iSrc HiS) as HnS.
  pose proof (drop_next dstList iDst HiD) as HnD.
  destruct (drop (Z.to_nat iSrc) srcList) as [|a ss] eqn:Hs,
           (drop (Z.to_nat iDst) dstList) as [|b dd] eqn:Hd;
    cbn [head]; simpl tail in HnS, HnD; simpl length in Hfuel.
  - done.
  - rewrite specMerge_nil_l. cbn [fmap list_fmap classifyAll classify].
    destruct (dstOnly b job st) as [st'|msg] eqn:Hh; [|done]. simpl bind_outcome.
    rewrite IH; [by rewrite HnS, HnD| lia | lia | | rewrite HnS, HnD; simpl; lia].
    by rewrite (classify_aborting job (DstOnly b) st st').
  - rewrite specMerge_nil_r. cbn [classifyAll classify].
    destruct (srcOnly a job st) as [st'|msg] eqn:Hh; [|done]. simpl bind_outcome.
    rewrite IH; [by rewrite HnS, HnD| lia | lia | | rewrite HnS, HnD; simpl; lia].
    by rewrite (classify_aborting job (SrcOnly a) st st').
  - rewrite specMerge_cons.
    destruct (String.ltb (entryRemote a) (entryRemote b)) eqn:Hab'.
    { rewrite bool_decide_eq_false_2 by by apply ltb_neq.
      cbn [classifyAll classify].
      destruct (srcOnly a job st) as [st'|msg] eqn:Hh; [|done]. simpl bind_outcome.
      replace (iDst - 1 + 1) with iDst by lia.
      rewrite IH; [by rewrite HnS, Hd| lia | lia | | rewrite HnS, Hd; simpl; lia].
      by rewrite (classify_aborting job (SrcOnly a) st st'). }
    destruct (String.ltb (entryRemote b) (entryRemote a)) eqn:Hba.
    { rewrite bool_decide_eq_false_2
        by (intros Heq; symmetry in Heq; by apply ltb_neq in Hba).
      cbn [classifyAll classify].
      destruct (dstOnly b job st) as [st'|msg] eqn:Hh; [|done]. simpl bind_outcome.
      replace (iSrc - 1 + 1) with iSrc by lia.
      rewrite IH; [by rewrite HnD, Hs| lia | lia | | rewrite HnD, Hs; simpl; lia].
      by rewrite (classify_aborting job (DstOnly b) st st'). }
    rewrite bool_decide_eq_true_2 by by apply ltb_trichotomy.
    cbn [classifyAll classify].
    destruct (transfer b a job st) as [st'|msg] eqn:Hh; [|done]. simpl bind_outcome.
    rewrite IH; [by rewrite HnS, HnD| lia | lia | | rewrite HnS, HnD; simpl; lia].
    by rewrite (classify_aborting job (MatchedPair a b) st st').
Qed.

(** *** What the merge classifies *)

Lemma omap_cons {A B} (f : A → option B) (x : A) (l : list A) :
  omap f (x :: l) =
    match f x with
    | Some y => y :: omap f l
    | None => omap f l
    end.
Proof. done. Qed.

Lemma specMerge_src srcList : ∀ dstList,
  omap classSrc (specMerge srcList dstList) = srcList.
Proof.
  induction srcList as [|a srcList IHs]; intros dstList.
  { rewrite specMerge_nil_l. by induction dstList. }
  induction dstList as [|b dstList IHd].
  { rewrite specMerge_nil_r, omap_cons. cbn [classSrc]. by rewrite IHs. }
  rewrite specMerge_cons.
  repeat case_match; rewrite omap_cons; cbn [classSrc]; by rewrite ?IHs, ?IHd.
Qed.

Lemma specMerge_dst srcList : ∀ dstList,
  omap classDst (specMerge srcList dstList) = dstList.
Proof.
  induction srcList as [|a srcList IHs]; intros dstList.
  { rewrite specMerge_nil_l. induction dstList; simpl; by f_equal. }
  induction dstList as [|b dstList IHd].
  { rewrite specMerge_nil_r, omap_cons. cbn [classDst]. by rewrite IHs. }
  rewrite specMerge_cons.
  repeat case_match; rewrite omap_cons; cbn [classDst]; by rewrite ?IHs, ?IHd.
Qed.

Lemma specMerge_src_elem srcList dstList c a :
  c ∈ specMerge srcList dstList → classSrc c = Some a → a ∈ srcList.
Proof.
  intros Hc Ha. rewrite <- (specMerge_src srcList dstList).
  apply list_elem_of_omap. eauto.
Qed.

Lemma specMerge_dst_elem srcList dstList c b :
  c ∈ specMerge srcList dstList → classDst c = Some b → b ∈ dstList.
Proof.
  intros Hc Hb. rewrite <- (specMerge_dst srcList dstList).
  apply list_elem_of_omap. eauto.
Qed.

Lemma specMerge_matched srcList : ∀ dstList a b,
  MatchedPair a b ∈ specMerge srcList dstList → entryRemote a = entryRemote b.
Proof.
  induction srcList as [|a0 srcList IHs]; intros dstList a b.
  { rewrite specMerge_nil_l. intros (? & [=] & _)%list_elem_of_fmap. }
  induction dstList as [|b0 dstList IHd].
  { rewrite specMerge_nil_r. intros [[=]|Hin]%elem_of_cons. eauto. }
  rewrite specMerge_cons.
  destruct (bool_decide (entryRemote a0 = entryRemote b0)) eqn:Heq.
  - apply bool_decide_eq_true_1 in Heq.
    intros [[= -> ->]|Hin]%elem_of_cons; [done|eauto].
  - destruct (String.ltb (entryRemote a0) (entryRemote b0));
      intros [[=]|Hin]%elem_of_cons; eauto.
Qed.

Lemma name_not_in (a : BasicInfo) (l : list BasicInfo) :
  (∀ b, b ∈ l → name_lt a b) → entryRemote a ∉ entryRemote <$> l.
Proof.
  intros Hlt (b & Heq & Hin)%list_elem_of_fmap.
  apply Hlt in Hin. unfold name_lt in Hin.
  rewrite Heq, ltb_irrefl in Hin. discriminate Hin.
Qed.

Lemma specMerge_srcOnly srcList : ∀ dstList a,
  sortedByName srcList → sortedByName dstList →
  SrcOnly a ∈ specMerge srcList dstList →
  entryRemote a ∉ entryRemote <$> dstList.
Proof.
  induction srcList as [|a0 srcList IHs]; intros dstList a Hss Hsd.
  { rewrite specMerge_nil_l. intros (? & [=] & _)%list_elem_of_fmap. }
  induction dstList as [|b0 dstList IHd].
  { intros _. simpl. apply not_elem_of_nil. }
  rewrite specMerge_cons.
  destruct (bool_decide (entryRemote a0 = entryRemote b0)) eqn:Heq.
  - apply bool_decide_eq_true_1 in Heq.
    intros [[=]|Hin]%elem_of_cons.
    rewrite fmap_cons, not_elem_of_cons. split.
    + rewrite <- Heq. apply not_eq_sym, ltb_neq.
      eapply (sortedByName_cons_lt a0 srcList a Hss), specMerge_src_elem; done.
    + eapply IHs; eauto using sortedByName_tail.
  - destruct (String.ltb (entryRemote a0) (entryRemote b0)) eqn:Hlt.
    + intros [[= ->]|Hin]%elem_of_cons.
      * apply name_not_in. intros b [->|Hb]%elem_of_cons; [done|].
        trans b0; [done|]. by eapply sortedByName_cons_lt.
      * eapply IHs; eauto using sortedByName_tail.
    + apply bool_decide_eq_false_1 in Heq.
      assert (name_lt b0 a0) as Hgt.
      { unfold name_lt. destruct (String.ltb (entryRemote b0) (entryRemote a0)) eqn:Hba;
          [done|]. by apply ltb_trichotomy in Hba. }
      intros [[=]|Hin]%elem_of_cons.
      rewrite fmap_cons, not_elem_of_cons. split.
      * assert (a ∈ a0 :: srcList) as [->|Ha]%elem_of_cons
          by (eapply specMerge_src_elem; done).
        -- by apply not_eq_sym, ltb_neq.
        -- apply not_eq_sym, ltb_neq. apply (ltb_trans _ (entryRemote a0)); [done|].
           by eapply sortedByName_cons_lt.
      * apply IHd; [by eapply sortedByName_tail|done].
Qed.

Lemma specMerge_dstOnly srcList : ∀ dstList b,
  sortedByName srcList → sortedByName dstList →
  DstOnly b ∈ specMerge srcList dstList →
  entryRemote b ∉ entryRemote <$> srcList.
Proof.
  induction srcList as [|a0 srcList IHs]; intros dstList b Hss Hsd.
  { intros _. simpl. apply not_elem_of_nil. }
  induction dstList as [|b0 dstList IHd].
  { rewrite specMerge_nil_r. intros [[=]|Hin]%elem_of_cons.
    apply (specMerge_dst_elem _ _ _ b) in Hin; [|done]. by apply elem_of_nil in Hin. }
  rewrite specMerge_cons.
  destruct (bool_decide (entryRemote a0 = entryRemote b0)) eqn:Heq.
  - apply bool_decide_eq_true_1 in Heq.
    intros [[=]|Hin]%elem_of_cons.
    rewrite fmap_cons, not_elem_of_cons. split.
    + rewrite Heq. apply not_eq_sym, ltb_neq.
      eapply (sortedByName_cons_lt b0 dstList b Hsd), specMerge_dst_elem; done.
    + apply (IHs dstList b); [by eapply sortedByName_tail..|done].
  - destruct (String.ltb (entryRemote a0) (entryRemote b0)) eqn:Hlt.
    + intros [[=]|Hin]%elem_of_cons.
      rewrite fmap_cons, not_elem_of_cons. split.
      * assert (b ∈ b0 :: dstList) as [->|Hb]%elem_of_cons
          by (eapply specMerge_dst_elem; done).
        -- by apply not_eq_sym, ltb_neq.
        -- apply not_eq_sym, ltb_neq. apply (ltb_trans _ (entryRemote b0)); [done|].
           by eapply sortedByName_cons_lt.
      * apply (IHs (b0 :: dstList) b); [by eapply sortedByName_tail|done..].
    + apply bool_decide_eq_false_1 in Heq.
      assert (name_lt b0 a0) as Hgt.
      { unfold name_lt. destruct (String.ltb (entryRemote b0) (entryRemote a0)) eqn:Hba;
          [done|]. by apply ltb_trichotomy in Hba. }
      intros [[= ->]|Hin]%elem_of_cons.
      * apply name_not_in. intros a [->|Ha]%elem_of_cons; [done|].
        trans a0; [done|]. by eapply sortedByName_cons_lt.
      * apply IHd; [by eapply sortedByName_tail|done].
Qed.

Section Merge.

Context {World : Type}.
Variable ListDirSorted : Fs → bool → string → World → DirEntries * option error.
Variable Config : ConfigInfo.

Lemma runDirAtATime_loop job w s srcList dstList dstListErr :
  (if noSrc job then ([], None)
   else ListDirSorted (fsrc s) false (remote job) w) = (srcList, None) →
  (if noDst job then ([], None)
   else ListDirSorted (fdst s) (DeleteExcluded Config) (remote job) w)
    = (dstList, dstListErr) →
  dstListErr = None ∨ dstListErr = Some ErrorDirNotFound →
  aborting s = false →
  _runDirAtATime World ListDirSorted Config job w s =
    Some (classifyAll job (specMerge srcList dstList) (s, [])).
Proof.
  intros Hsrc Hdst Herr Hab. unfold _runDirAtATime. rewrite Hsrc, Hdst.
  assert (negb (bool_decide (dstListErr = Some ErrorDirNotFound))
          && bool_decide (dstListErr ≠ None) = false) as ->.
  { destruct Herr as [-> | ->]; done. }
  rewrite matchLoop_spec; [done|lia|lia|done|].
  unfold matchFuel. rewrite !drop_0. lia.
Qed.

(** [_runDirAtATime] always comes to an end. *)
Lemma runDirAtATime_returns job w s :
  is_Some (_runDirAtATime World ListDirSorted Config job w s).
Proof.
  unfold _runDirAtATime.
  destruct (if noSrc job then _ else _) as [srcList srcListErr].
  destruct (if noDst job then _ else _) as [dstList dstListErr].
  destruct srcListErr; [done|].
  destruct (negb _ && _); [done|].
  destruct (aborting s) eqn:Hab.
  - unfold matchFuel. simpl. by rewrite Hab.
  - rewrite matchLoop_spec; [done|lia|lia|done|].
    unfold matchFuel. rewrite !drop_0. lia.
Qed.

(** C2 (amended).  For a directory job whose source listing succeeds and
    whose destination listing succeeds or reports that the directory is
    missing, with the abort signal not raised and each listing sorted by
    name without repeated names, [_runDirAtATime] classifies the entries in
    the order of the merge, every entry of either listing exactly once; an
    entry is classified in a matched pair exactly with the entry of the
    same name of the other listing, alone as source-only only if no
    destination entry has its name, and alone as destination-only only if
    no source entry has its name.  Unless the delete mode is delete-only,
    in which source-only entries and source files are passed over, a
    file/file pair is sent to the checkers and a source-only file is queued
    as a rename candidate when renames are tracked and sent to upload
    otherwise; directories are recursed into subject to the remaining
    depths; a destination-only file is recorded for deletion in
    delete-after mode, sent to the deleter in delete-during and delete-only
    mode and left alone when the delete mode is off, and a destination-only
    directory is recursed into with the source side suppressed unless the
    delete mode is off. *)
Theorem runDirAtATime_merge job w s srcList dstList dstListErr :
  (if noSrc job then ([], None)
   else ListDirSorted (fsrc s) false (remote job) w) = (srcList, None) →
  (if noDst job then ([], None)
   else ListDirSorted (fdst s) (DeleteExcluded Config) (remote job) w)
    = (dstList, dstListErr) →
  dstListErr = None ∨ dstListErr = Some ErrorDirNotFound →
  aborting s = false →
  sortedByName srcList →
  sortedByName dstList →
  let events := specMerge srcList dstList in
  _runDirAtATime World ListDirSorted Config job w s =
    Some (classifyAll job events (s, [])) ∧
  omap classSrc events = srcList ∧
  omap classDst events = dstList ∧
  (∀ a b, MatchedPair a b ∈ events → entryRemote a = entryRemote b) ∧
  (∀ a, SrcOnly a ∈ events → entryRemote a ∉ entryRemote <$> dstList) ∧
  (∀ b, DstOnly b ∈ events → entryRemote b ∉ entryRemote <$> srcList) ∧
  (∀ st x y, deleteMode st.1 ≠ DeleteModeOnly →
     classify job (MatchedPair (EObject x) (EObject y)) st =
       Returns (set_toBeChecked (toBeChecked st.1 ++ [mkObjectPair x (Some y)]) st.1,
                st.2)) ∧
  (∀ st d e,
     classify job (MatchedPair (EDir d) (EDir e)) st =
       Returns (st.1,
                st.2 ++ if (srcDepth job >? 0) && (dstDepth job >? 0)
                        then [mkJob (dirRemote d) (srcDepth job - 1)
                                (dstDepth job - 1) false false]
                        else [])) ∧
  (∀ st x, deleteMode st.1 ≠ DeleteModeOnly →
     classify job (SrcOnly (EObject x)) st =
       Returns (if trackRenames st.1
                then set_trackRenamesCh (trackRenamesCh st.1 ++ [x]) st.1
                else set_toBeUploaded (toBeUploaded st.1 ++ [mkObjectPair x None]) st.1,
                st.2)) ∧
  (∀ st d, deleteMode st.1 ≠ DeleteModeOnly →
     classify job (SrcOnly (EDir d)) st =
       Returns (st.1,
                st.2 ++ if srcDepth job >? 0
                        then [mkJob (dirRemote d) (srcDepth job - 1) 0 false true]
                        else [])) ∧
  (∀ st a x, deleteMode st.1 = DeleteModeOnly →
     classify job (SrcOnly a) st = Returns st ∧
     classify job (MatchedPair (EObject x) a) st = Returns st) ∧
  (∀ st x, deleteMode st.1 = DeleteModeAfter →
     classify job (DstOnly (EObject x)) st =
       Returns (set_dstFiles (<[Remote x := x]> (dstFiles st.1)) st.1, st.2)) ∧
  (∀ st x, deleteMode st.1 = DeleteModeDuring ∨ deleteMode st.1 = DeleteModeOnly →
     classify job (DstOnly (EObject x)) st =
       Returns (set_deleteFilesCh (deleteFilesCh st.1 ++ [x]) st.1, st.2)) ∧
  (∀ st d, deleteMode st.1 ≠ DeleteModeOff →
     classify job (DstOnly (EDir d)) st =
       Returns (st.1,
                st.2 ++ if dstDepth job >? 0
                        then [mkJob (dirRemote d) 0 (dstDepth job - 1) true false]
                        else [])) ∧
  (∀ st b, deleteMode st.1 = DeleteModeOff → classify job (DstOnly b) st = Returns st).
Proof.
  intros Hsrc Hdst Herr Hab Hss Hsd events. subst events.
  split; [by eapply runDirAtATime_loop|].
  split; [apply specMerge_src|]. split; [apply specMerge_dst|].
  split; [apply specMerge_matched|].
  split; [intros a; by apply specMerge_srcOnly|].
  split; [intros b; by apply specMerge_dstOnly|].
  repeat split.
  - intros [s' jobs] x y Hm. simpl in *. by rewrite bool_decide_eq_false_2.
  - intros [s' jobs] d e. simpl.
    destruct (srcDepth job >? 0), (dstDepth job >? 0); simpl;
      by rewrite ?app_nil_r.
  - intros [s' jobs] x Hm. simpl in *. rewrite bool_decide_eq_false_2 by done.
    by destruct (trackRenames s').
  - intros [s' jobs] d Hm. simpl in *. rewrite bool_decide_eq_false_2 by done.
    destruct (srcDepth job >? 0); by rewrite ?app_nil_r.
  - destruct st as [s' jobs]. simpl in *. by rewrite bool_decide_eq_true_2.
  - destruct st as [s' jobs]. simpl in *. by rewrite bool_decide_eq_true_2.
  - intros [s' jobs] x Hm. simpl in *. by rewrite Hm.
  - intros [s' jobs] x Hm. simpl in *. by destruct Hm as [-> | ->].
  - intros [s' jobs] d Hm. simpl in *. rewrite bool_decide_eq_false_2 by done.
    destruct (dstDepth job >? 0); by rewrite ?app_nil_r.
  - intros [s' jobs] b Hm. simpl in *. by rewrite bool_decide_eq_true_2.
Qed.

End Merge.

(** C2, as stated, fails in two ways.  In delete-only mode a source-only
    file is neither queued as a rename candidate nor sent to upload.  And
    when a sorted listing repeats a name, only the first of the entries of
    that name is matched: the second source entry named "a" is sent to
    upload as source-only although the destination listing has an entry of
    that name. *)
Lemma runDirAtATime_merge_counterexample :
  let state mode :=
    mkSyncCopyMove (mkFs "dst" EmptyString 1%N true false)
      (mkFs "src" EmptyString 1%N false false)
      mode false EmptyString false [] false ∅ ∅ make_signal [] []
      None None None 1%N [] [] None EmptyString in
  let Config :=
    mkConfig false false false false false Nanosecond EmptyString EmptyString false in
  let job := mkJob EmptyString 5 5 false false in
  let listing (srcList dstList : DirEntries) (f : Fs) (all : bool) (d : string)
      (w : unit) :=
    if bool_decide (fsName f = "src") then (srcList, None) else (dstList, None) in
  let x := mkObject "a" 1 0 true in
  let x' := mkObject "a" 2 0 true in
  let y := mkObject "a" 3 0 true in
  (∃ s', _runDirAtATime unit (listing [EObject x] []) Config job ()
           (state DeleteModeOnly) = Some (Returns (s', [])) ∧
         toBeUploaded s' = [] ∧ trackRenamesCh s' = []) ∧
  (∃ s', _runDirAtATime unit (listing [EObject x; EObject x'] [EObject y]) Config
           job () (state DeleteModeOff) = Some (Returns (s', [])) ∧
         toBeChecked s' = [mkObjectPair x (Some y)] ∧
         toBeUploaded s' = [mkObjectPair x' None]).
Proof. split; eexists; (split; [reflexivity|]); split; reflexivity. Qed.

Lemma runDirAtATime_merge_witness :
  let s :=
    mkSyncCopyMove (mkFs "dst" EmptyString 1%N true false)
      (mkFs "src" EmptyString 1%N false false)
      DeleteModeDuring false EmptyString false [] false ∅ ∅ make_signal [] []
      None None None 1%N [] [] None EmptyString in
  let Config :=
    mkConfig false false false false false Nanosecond EmptyString EmptyString false in
  let job := mkJob EmptyString 5 5 false false in
  let srcList := [EObject (mkObject "a" 1 0 true); EDir (mkDir "c")] in
  let dstList := [EObject (mkObject "a" 3 0 true); EObject (mkObject "b" 2 0 true)] in
  let listing (f : Fs) (all : bool) (d : string) (w : unit) :=
    if bool_decide (fsName f = "src") then (srcList, None) else (dstList, None) in
  _runDirAtATime unit listing Config job () s =
    Some (classifyAll job
            [MatchedPair (EObject (mkObject "a" 1 0 true)) (EObject (mkObject "a" 3 0 true));
             DstOnly (EObject (mkObject "b" 2 0 true));
             SrcOnly (EDir (mkDir "c"))]
            (s, [])).
Proof.
  intros s Config job srcList dstList listing.
  assert (sortedByName srcList) as Hss by (repeat constructor).
  assert (sortedByName dstList) as Hsd by (repeat constructor).
  exact (proj1 (runDirAtATime_merge listing Config job () s srcList dstList None
                  eq_refl eq_refl (or_introl eq_refl) eq_refl Hss Hsd)).
Defined.

End Sync.

(** ** The repeatable reader ([fs/repeatable.go]) *)

Module RepeatableReader.

(** An input reader over a fixed sequence of bytes, to run the definitions
    on examples; its state is the number of bytes handed out. *)
Definition streamRead (stream : list Byte.byte) (pos n : nat)
    : (list Byte.byte * option error) * nat :=
  let data := take n (drop pos stream) in
  ((data, if bool_decide (data = []) then Some (errors_New "EOF") else None),
   (pos + length data)%nat).

Section Reader.

(** The input reader [in], an [io.Reader].  [in_Read r n] is a call of
    [Read] with a buffer of [n] bytes on the reader in state [r]: it returns
    the bytes stored at the front of the buffer (their number is the result
    [n] of the call), the error, and the next state of the reader.
    [delivered r] is everything the reader has handed out so far. *)
Variable R : Type.
Variable in_Read : R → nat → (list Byte.byte * option error) * R.
Variable delivered : R → list Byte.byte.

Record RepeatableReader := mkReader {
  rin : R; (* Input reader *)
  i : Z; (* current reading index *)
  b : list Byte.byte; (* internal cache buffer *)
}.


(** The [switch] of [Seek]: the absolute position asked for, [None] for an
    invalid [whence]. *)
Definition seekAbs (offset whence : Z) (r : RepeatableReader) : option Z :=
  let cacheLen := Z.of_nat (length (b r)) in
  if whence =? 0 then Some offset (* io.SeekStart *)
  else if whence =? 1 then Some (Int64.add (i r) offset) (* io.SeekCurrent *)
  else if whence =? 2 then Some (Int64.add cacheLen offset) (* io.SeekEnd *)
  else None.

Definition Seek (offset whence : Z) (r : RepeatableReader)
    : (Z * option error) * RepeatableReader :=
  let cacheLen := Z.of_nat (length (b r)) in
  match seekAbs offset whence r with
  | None => ((0, Some (errors_New "fs.RepeatableReader.Seek: invalid whence")), r)
  | Some abs =>
    if abs <? 0 then
      ((0, Some (errors_New "fs.RepeatableReader.Seek: negative position")), r)
    else if abs >? cacheLen then
      ((Int64.sub offset (Int64.sub abs cacheLen),
        Some (errors_New "fs.RepeatableReader.Seek: offset is unavailable")), r)
    else ((abs, None), mkReader (rin r) abs (b r))
  end.

(** [Read] with a buffer of [n] bytes; the result is the bytes stored in the
    buffer and the error.  The slice expression [r.b[r.i:]] panics when the
    index is out of range. *)
Definition Read (n : nat) (r : RepeatableReader)
    : outcome ((list Byte.byte * option error) * RepeatableReader) :=
  let cacheLen := Z.of_nat (length (b r)) in
  if i r =? cacheLen then
    let '((data, e), rin') := in_Read (rin r) n in
    let b' := if (0 <? length data)%nat then b r ++ data else b r in
    Returns ((data, e),
             mkReader rin' (Int64.add (i r) (Z.of_nat (length data))) b')
  else if (0 <=? i r) && (i r <=? cacheLen) then
    let data := take n (drop (Z.to_nat (i r)) (b r)) in
    Returns ((data, None),
             mkReader (rin r) (Int64.add (i r) (Z.of_nat (length data))) (b r))
  else Panics "slice bounds out of range".

(** The calls made on a reader. *)
Inductive call :=
  | CallSeek (offset whence : Z)
  | CallRead (n : nat).

Definition step (c : call) (r : RepeatableReader) : outcome RepeatableReader :=
  match c with
  | CallSeek offset whence => Returns (Seek offset whence r).2
  | CallRead n => bind_outcome (Read n r) (λ res, Returns res.2)
  end.

Fixpoint run (cs : list call) (r : RepeatableReader) : outcome RepeatableReader :=
  match cs with
  | [] => Returns r
  | c :: cs => bind_outcome (step c r) (run cs)
  end.


(** What the interface [io.Reader] and the size of memory give: a call of
    [Read] delivers the bytes it returns, and no more bytes are ever
    delivered than a slice can hold. *)
Hypothesis in_Read_delivered : ∀ r n,
  delivered (in_Read r n).2 = delivered r ++ (in_Read r n).1.1.
Hypothesis delivered_bound : ∀ r,
  Z.of_nat (length (delivered r)) <= Int64.max_int.

Lemma Seek_within offset whence r p :
  seekAbs offset whence r = Some p →
  0 <= p <= Z.of_nat (length (b r)) →
  Seek offset whence r = ((p, None), mkReader (rin r) p (b r)).
Proof.
  intros Habs Hp. unfold Seek. rewrite Habs.
  destruct (Z.ltb_spec p 0); [lia|].
  rewrite Z.gtb_ltb. destruct (Z.ltb_spec (Z.of_nat (length (b r))) p); [lia|done].
Qed.






End Reader.





End RepeatableReader.

(** ** The upload URL pool of the B2 backend ([b2/b2.go]) *)

Module B2.

(** GetUploadURLResponse is received from b2_get_upload_url
    ([b2/api/types.go]). *)
Record GetUploadURLResponse := mkUpload {
  BucketID : string;
  UploadURL : string;
  AuthorizationToken : string;
}.

(** The fields of [Fs] used on the upload path. *)
Record Fs := mkFs {
  _bucketID : string; (* the ID of the bucket we are working on *)
  uploads : list GetUploadURLResponse; (* result of get upload URL calls *)
}.

(** What the server answered to an HTTP call: the status code of the
    response, if there is a response, and the error. *)
Record reply := mkReply {
  StatusCode : option Z;
  callErr : option error;
}.

(** retryErrorCodes is a slice of error codes that we will retry *)
Definition retryErrorCodes : list Z := [401; 408; 429; 500; 503; 504].

(** Modelled from the spec: [fs.ShouldRetryHTTP], which is not among the
    source files, asks for a retry when there is a response whose status
    is one of the given codes. *)
Definition ShouldRetryHTTP (resp : option Z) (codes : list Z) : bool :=
  match resp with
  | Some status => bool_decide (status ∈ codes)
  | None => false
  end.

(** Modelled from the spec: [fs.RetryError] and [pacer.CallNoRetry], which
    are not among the source files.  [CallNoRetry] invokes the call once
    and surfaces its error, as an error to be retried by the caller when
    the call asked for a retry. *)
Definition RetryError (e : option error) : error :=
  match e with
  | Some e => e
  | None => errors_New "needs retry"
  end.

Definition CallNoRetry (r : bool * option error) : option error :=
  if r.1 then Some (RetryError r.2) else r.2.

Section Server.

(** The transport classification [fs.ShouldRetry] and the answers of the
    server: to the listing of the buckets, to b2_get_upload_url and to
    b2_authorize_account. *)
Variable ShouldRetry : option error → bool.
Variable lookupBucket : string * option error.
Variable requestUploadURL : string → GetUploadURLResponse + error.
Variable authorizeAccount : option error.

Definition getBucketID (f : Fs) : (string * option error) * Fs :=
  if bool_decide (_bucketID f ≠ EmptyString) then ((_bucketID f, None), f)
  else
    let '(bucketID, e) := lookupBucket in
    let e :=
      if bool_decide (bucketID = EmptyString)
      then Some (errors_New "directory not found") else e in
    ((bucketID, e), mkFs bucketID (uploads f)).

(** getUploadURL returns the upload info with the UploadURL and the
    AuthorizationToken.  This should be returned with returnUploadURL when
    finished *)
Definition getUploadURL (f : Fs) : (GetUploadURLResponse + error) * Fs :=
  let '((bucketID, e), f) := getBucketID f in
  match e with
  | Some e => (inr e, f)
  | None =>
    match uploads f with
    | [] =>
      match requestUploadURL bucketID with
      | inr e =>
        (inr (errors_New ("Failed to get upload URL: " +:+ errMsg e)), f)
      | inl upload => (inl upload, f)
      end
    | upload :: rest => (inl upload, mkFs (_bucketID f) rest)
    end
  end.

(** returnUploadURL returns the UploadURL to the cache *)
Definition returnUploadURL (upload : GetUploadURLResponse) (f : Fs) : Fs :=
  mkFs (_bucketID f) (uploads f ++ [upload]).

(** clearUploadURL clears the current UploadURL and the AuthorizationToken *)
Definition clearUploadURL (f : Fs) : Fs := mkFs (_bucketID f) [].

Definition shouldRetryNoReauth (resp : reply) : bool * option error :=
  (ShouldRetry (callErr resp) || ShouldRetryHTTP (StatusCode resp) retryErrorCodes,
   callErr resp).

Definition shouldRetry (resp : reply) (f : Fs) : (bool * option error) * Fs :=
  if bool_decide (StatusCode resp = Some 401) then
    let e :=
      match authorizeAccount with
      | Some authErr => Some authErr
      | None => callErr resp
      end in
    ((true, e), clearUploadURL f)
  else (shouldRetryNoReauth resp, f).

(** [Object.Update] from the point where the upload URL is obtained;
    [resp] is the answer of the server to the upload.  The call of
    [returnUploadURL] is deferred in the source: it runs when the function
    returns, after the upload. *)
Definition Update (resp : reply) (f : Fs) : option error * Fs :=
  let '(got, f) := getUploadURL f in
  match got with
  | inr e => (Some e, f)
  | inl upload =>
    let '(r, f) := shouldRetry resp f in
    let e := CallNoRetry r in
    (e, returnUploadURL upload f)
  end.

(** C7 (amended).  An upload URL checked out of the pool by [getUploadURL]
    at the start of [Object.Update] is back in the pool, appended at its
    end, when [Update] returns: when the upload succeeded, and equally when
    it failed with an answer other than 401. *)
Theorem Update_returns_upload_url (resp : reply) (f f1 : Fs)
    (upload : GetUploadURLResponse) :
  getUploadURL f = (inl upload, f1) →
  StatusCode resp ≠ Some 401 →
  uploads (Update resp f).2 = uploads f1 ++ [upload] ∧
  (Update resp f).1 =
    if ShouldRetry (callErr resp) || ShouldRetryHTTP (StatusCode resp) retryErrorCodes
    then Some (RetryError (callErr resp)) else callErr resp.
Proof.
  intros Hget Hresp. unfold Update, shouldRetry. rewrite Hget.
  rewrite bool_decide_eq_false_2 by done. done.
Qed.

End Server.

(** C7, as stated, fails: the upload is answered with a 500 and fails, and
    the upload URL taken from the pool is in the pool again afterwards. *)
Lemma Update_returns_upload_url_counterexample :
  let upload := mkUpload "bucket" "https://pod/upload" "token" in
  let f := mkFs "bucket" [upload] in
  let resp := mkReply (Some 500) (Some (errors_New "internal error")) in
  let res :=
    Update (λ _, false) ("bucket", None) (λ _, inr (errors_New "unused")) None
      resp f in
  res.1 ≠ None ∧ upload ∈ uploads res.2.
Proof. split; [discriminate|]. apply list_elem_of_In. left. reflexivity. Qed.

Lemma Update_returns_upload_url_witness :
  let upload := mkUpload "bucket" "https://pod/upload" "token" in
  let other := mkUpload "bucket" "https://pod/other" "token2" in
  let f := mkFs "bucket" [upload; other] in
  let resp := mkReply (Some 500) (Some (errors_New "internal error")) in
  uploads (Update (λ _, false) ("bucket", None) (λ _, inr (errors_New "unused"))
             None resp f).2
    = [other; upload].
Proof.
  intros upload other f resp.
  exact (proj1 (Update_returns_upload_url (λ _, false)
                  ("bucket", None) (λ _, inr (errors_New "unused")) None
                  resp f (mkFs "bucket" [other]) upload eq_refl
                  ltac:(discriminate))).
Defined.

End B2.

(** ** The listing files of bisync ([cmd/bisync/listing.go]) *)

Module Bisync.

(** *** Characters and strings *)

Definition newline : string := String "010" EmptyString.
Definition quoteChar : ascii := "034".

(** The class [\s] of the regular expressions of Go: [\t\n\f\r ]. *)
Definition isSpace (c : ascii) : bool :=
  Ascii.eqb c "009" || Ascii.eqb c "010" || Ascii.eqb c "012"
  || Ascii.eqb c "013" || Ascii.eqb c " ".

(** The class [\d]. *)
Definition isDigit (c : ascii) : bool :=
  let n := nat_of_ascii c in (48 <=? n)%nat && (n <=? 57)%nat.

Fixpoint allChars (P : ascii → bool) (s : string) : bool :=
  match s with
  | EmptyString => true
  | String c s => P c && allChars P s
  end.

(** The longest prefix of [s] of characters in [P], and what follows. *)
Fixpoint span (P : ascii → bool) (s : string) : string * string :=
  match s with
  | EmptyString => (EmptyString, EmptyString)
  | String c r =>
    if P c then let '(a, rest) := span P r in (String c a, rest)
    else (EmptyString, s)
  end.


Fixpoint lastChar (s : string) : option ascii :=
  match s with
  | EmptyString => None
  | String c EmptyString => Some c
  | String _ s => lastChar s
  end.

Fixpoint repeatChar (n : nat) (c : ascii) : string :=
  match n with
  | O => EmptyString
  | S n => String c (repeatChar n c)
  end.

(** The verb [%d] of [fmt] and [strconv.ParseInt(s, 10, 64)] on a string
    that is an optional minus sign and digits. *)
Definition formatInt (z : Z) : string := NilZero.string_of_int (Z.to_int z).

Definition ParseInt (s : string) : option Z :=
  match NilZero.int_of_string s with
  | Some d =>
    let z := Z.of_int d in
    if (Int64.min_int <=? z) && (z <=? Int64.max_int) then Some z else None
  | None => None
  end.

(** [%8d]: padded with spaces on the left to a width of 8. *)
Definition padLeft (width : nat) (s : string) : string :=
  repeatChar (width - String.length s) " " +:+ s.

(** *** The format of a listing *)

(** ListingHeader defines first line of a listing *)
Definition ListingHeader : string := "# bisync listing v1 from".

(** A character of the pattern of a time in a listing,
    [\d{4}-\d\d-\d\dT\d\d:\d\d:\d\d\.\d{9}[+-]\d{4}]. *)
Inductive charClass :=
  | CDigit
  | CSign
  | CLit (c : ascii).

Definition inClass (k : charClass) (c : ascii) : bool :=
  match k with
  | CDigit => isDigit c
  | CSign => Ascii.eqb c "+" || Ascii.eqb c "-"
  | CLit d => Ascii.eqb c d
  end.

Definition timePattern : list charClass :=
  [CDigit; CDigit; CDigit; CDigit; CLit "-"; CDigit; CDigit; CLit "-";
   CDigit; CDigit; CLit "T"; CDigit; CDigit; CLit ":"; CDigit; CDigit;
   CLit ":"; CDigit; CDigit; CLit ".";
   CDigit; CDigit; CDigit; CDigit; CDigit; CDigit; CDigit; CDigit; CDigit;
   CSign; CDigit; CDigit; CDigit; CDigit].

(** The prefix of [s] matching a sequence of classes, and what follows. *)
Fixpoint matchClasses (ks : list charClass) (s : string) : option (string * string) :=
  match ks with
  | [] => Some (EmptyString, s)
  | k :: ks =>
    match s with
    | String c r =>
      if inClass k c then
        match matchClasses ks r with
        | Some (m, rest) => Some (String c m, rest)
        | None => None
        end
      else None
    | EmptyString => None
    end
  end.

(** [(".+")$]: a quote, one or more characters other than a newline, and
    a quote which is the last character of the line. *)
Definition isQuoted (q : string) : bool :=
  match q with
  | String c m =>
    Ascii.eqb c quoteChar
    && (2 <=? String.length m)%nat
    && bool_decide (lastChar m = Some quoteChar)
    && allChars (λ c, negb (Ascii.eqb c "010")) m
  | EmptyString => false
  end.

(** lineRegex defines the listing line format,
    [^(\S) +(-?\d+) (\S+) (\S+) (time) (".+")$].  Every repetition of the
    pattern is followed by a character outside the repeated class, so the
    match, when there is one, takes the longest run at each repetition. *)
Definition lineRegex (line : string)
    : option (string * string * string * string * string * string) :=
  match line with
  | EmptyString => None
  | String c rest =>
    if isSpace c then None
    else
      let '(spaces, rest) := span (Ascii.eqb " ") rest in
      if bool_decide (spaces = EmptyString) then None
      else
        let '(sign, rest) :=
          match rest with
          | String c r => if Ascii.eqb c "-" then ("-", r) else (EmptyString, rest)
          | EmptyString => (EmptyString, rest)
          end in
        let '(digits, rest) := span isDigit rest in
        if bool_decide (digits = EmptyString) then None
        else
          match rest with
          | String " " rest =>
            let '(hash, rest) := span (λ c, negb (isSpace c)) rest in
            if bool_decide (hash = EmptyString) then None
            else
              match rest with
              | String " " rest =>
                let '(id, rest) := span (λ c, negb (isSpace c)) rest in
                if bool_decide (id = EmptyString) then None
                else
                  match rest with
                  | String " " rest =>
                    match matchClasses timePattern rest with
                    | Some (time, String " " name) =>
                      if isQuoted name then
                        Some (String c EmptyString, sign +:+ digits, hash, id,
                              time, name)
                      else None
                    | _ => None
                    end
                  | _ => None
                  end
              | _ => None
              end
          | _ => None
          end
  end.

(** [strings.Index(str, ":")]: the characters before the first colon and
    those after it. *)
Fixpoint cutColon (s : string) : option (string * string) :=
  match s with
  | EmptyString => None
  | String c r =>
    if Ascii.eqb c ":" then Some (EmptyString, r)
    else
      match cutColon r with
      | Some (a, rest) => Some (String c a, rest)
      | None => None
      end
  end.

(** The name and the value of a hash; [None] is the error. *)
Definition parseHash (str : string) : option (string * string) :=
  if bool_decide (str = "-") then Some (EmptyString, EmptyString)
  else
    match cutColon str with
    | Some (name, val) =>
      if bool_decide (name ≠ EmptyString) && bool_decide (val ≠ EmptyString)
      then Some (name, val) else None
    | None => None
    end.

(** *** Listings *)

(** fileInfo describes a file *)
Record fileInfo := mkFileInfo {
  size : Z;
  time : Time;
  hash : string;
  id : string;
  flags : string;
}.

(** fileList represents a listing; the field [list] of the source is
    [names] here. *)
Record fileList := mkFileList {
  names : list string;
  info : gmap string fileInfo;
  lsHash : N; (* hash.Type *)
}.

Definition hash_None : N := 0%N.

Definition newFileList : fileList := mkFileList [] ∅ hash_None.

(** A time in the format of a listing, and quoting and unquoting for
    names without special characters, to run the definitions on examples. *)
Definition sampleTime : string := "2006-01-02T15:04:05.000000000+0000".

Definition plainQuote (s : string) : string :=
  String quoteChar (s +:+ String quoteChar EmptyString).

Fixpoint dropLastChar (s : string) : string :=
  match s with
  | EmptyString => EmptyString
  | String c EmptyString => EmptyString
  | String c r => String c (dropLastChar r)
  end.

Definition plainUnquote (s : string) : option string :=
  match s with
  | String c r =>
    if Ascii.eqb c quoteChar && bool_decide (lastChar r = Some quoteChar)
    then Some (dropLastChar r) else None
  | EmptyString => None
  end.

Section Listing.

(** Functions of the Go library and of the package [fs/hash]:
    [strconv.Quote] (the verb [%q]) and [strconv.Unquote]; the formatting
    and the parsing of a time in the time zone [TZ] with [timeFormat]; the
    clock; the name of a hash type and the hash type of a name. *)
Variable Quote : string → string.
Variable Unquote : string → option string.
Variable formatTime : Time → string.
Variable parseTime : string → option Time.
Variable now : Time.
Variable hash_String : N → string.
Variable hash_Set : string → option N.

(** The key under which [get] finds a file, with its info: the name
    itself, or else the name unquoted. *)
Definition getKey (file : string) (ls : fileList) : option (string * fileInfo) :=
  match info ls !! file with
  | Some fi => Some (file, fi)
  | None =>
    (* try unquoting *)
    let file :=
      default EmptyString
        (Unquote (String quoteChar file +:+ String quoteChar EmptyString)) in
    (λ fi, (file, fi)) <$> info ls !! file
  end.

Definition get (file : string) (ls : fileList) : option fileInfo :=
  snd <$> getKey file ls.

Definition has (file : string) (ls : fileList) : bool :=
  bool_decide (is_Some (get file ls)).

Definition afterTime (file : string) (t : Time) (ls : fileList) : bool :=
  match get file ls with
  | None => false
  | Some fi => t <? time fi
  end.

Definition put (file : string) (size : Z) (modtime : Time) (hash id flags : string)
    (ls : fileList) : fileList :=
  match getKey file ls with
  | Some (key, fi) =>
    (* if already have higher precision of same time, avoid overwriting it *)
    let modtime :=
      if negb (time fi =? modtime) && (modtime <? time fi)
         && (Time_Sub (time fi) modtime <? Second)
      then time fi else modtime in
    mkFileList (names ls)
      (<[key := mkFileInfo size modtime hash id flags]> (info ls)) (lsHash ls)
  | None =>
    mkFileList (names ls ++ [file])
      (<[file := mkFileInfo size modtime hash id flags]> (info ls)) (lsHash ls)
  end.

(** sort by path name *)
Definition sort (ls : fileList) : fileList :=
  mkFileList (merge_sort String.le (names ls)) (info ls) (lsHash ls).

(** [fmt.Sprintf(lineFormat, ...)] with [lineFormat = "%s %8d %s %s %s %q\n"]. *)
Definition lineFormat (flags : string) (size : Z) (hash id time remote : string)
    : string :=
  flags +:+ " " +:+ padLeft 8 (formatInt size) +:+ " " +:+ hash +:+ " " +:+ id
  +:+ " " +:+ time +:+ " " +:+ Quote remote +:+ newline.

(** The text of a sequence of lines. *)
Definition concatLines (lines : list string) : string :=
  foldr String.append EmptyString lines.

(** The line [save] writes for a file. *)
Definition saveLine (hashName remote : string) (fi : fileInfo) : string :=
  let time := formatTime (time fi) in
  let hash :=
    if bool_decide (hashName ≠ EmptyString) && bool_decide (hash fi ≠ EmptyString)
    then hashName +:+ ":" +:+ hash fi else "-" in
  let id := if bool_decide (id fi = EmptyString) then "-" else id fi in
  let flags := if bool_decide (flags fi = EmptyString) then "-" else flags fi in
  lineFormat flags (size fi) hash id time remote.

Fixpoint saveLines (hashName : string) (ls : fileList) (remotes : list string)
    : outcome string :=
  match remotes with
  | [] => Returns EmptyString
  | remote :: remotes =>
    match get remote ls with
    | None => Panics "nil pointer dereference"
    | Some fi =>
      bind_outcome (saveLines hashName ls remotes)
        (λ text, Returns (saveLine hashName remote fi +:+ text))
    end
  end.

(** save will save listing to a file: the sorted listing and the text
    written when no write fails (a failed write removes the file). *)
Definition save (ls : fileList) : outcome (fileList * string) :=
  let ls := sort ls in
  let hashName :=
    if bool_decide (lsHash ls ≠ hash_None) then hash_String (lsHash ls)
    else EmptyString in
  let header := ListingHeader +:+ " " +:+ formatTime now +:+ newline in
  bind_outcome (saveLines hashName ls (names ls))
    (λ text, Returns (ls, header +:+ text)).

(** [strings.TrimSuffix(line, "\n")] *)
Fixpoint trimNewline (line : string) : string :=
  match line with
  | EmptyString => EmptyString
  | String c EmptyString => if Ascii.eqb c "010" then EmptyString else line
  | String c r => String c (trimNewline r)
  end.

(** The body of the loop of [loadListing] for a line read from the file;
    the state is the listing and [lastHashName]. *)
Definition loadLine (line : string) (st : fileList * string) : fileList * string :=
  let '(ls, lastHashName) := st in
  let line := trimNewline line in
  match line with
  | EmptyString => st
  | String c _ =>
    if Ascii.eqb c "#" then st
    else
      match lineRegex line with
      | None => st (* Ignoring incorrect line *)
      | Some (flags, sizeStr, hashStr, id, timeStr, nameStr) =>
        let sizeVal := ParseInt sizeStr in
        let timeVal := parseTime timeStr in
        let nameVal := Unquote nameStr in
        let parsed := parseHash hashStr in
        let hashName := default EmptyString (fst <$> parsed) in
        let hashVal := default EmptyString (snd <$> parsed) in
        let hashErr := bool_decide (parsed = None) in
        let checkHash := negb hashErr && bool_decide (hashName ≠ EmptyString) in
        if checkHash && bool_decide (lastHashName ≠ EmptyString)
           && bool_decide (hashName ≠ lastHashName)
        then st (* Inconsistent hash type in line *)
        else
          let first := checkHash && bool_decide (lastHashName = EmptyString) in
          let lastHashName := if first then hashName else lastHashName in
          let '(ls, hashErr) :=
            if first then
              match hash_Set hashName with
              | Some h => (mkFileList (names ls) (info ls) h, false)
              | None => (ls, true)
              end
            else (ls, hashErr) in
          match sizeVal, timeVal, nameVal with
          | Some sizeVal, Some timeVal, Some nameVal =>
            if (bool_decide (flags ≠ "-") && bool_decide (flags ≠ "d"))
               || bool_decide (id ≠ "-") || hashErr
            then (ls, lastHashName) (* Ignoring incorrect line *)
            else if has nameVal ls && afterTime nameVal timeVal ls
            then (ls, lastHashName) (* Duplicate line (keeping latest) *)
            else (put nameVal sizeVal timeVal hashVal id flags ls, lastHashName)
          | _, _, _ => (ls, lastHashName) (* Ignoring incorrect line *)
          end
      end
  end.

(** The lines [reader.ReadString('\n')] returns before it reports
    [io.EOF], each with its newline; [cur] is the line being read.  What
    follows the last newline is returned together with [io.EOF] and is
    dropped by [loadListing]. *)
Fixpoint readLines (content cur : string) : list string :=
  match content with
  | EmptyString => []
  | String c content =>
    if Ascii.eqb c "010" then (cur +:+ newline) :: readLines content EmptyString
    else readLines content (cur +:+ String c EmptyString)
  end.

(** loadListing will load listing from a file, here from its text. *)
Definition loadListing (content : string) : fileList :=
  (foldl (λ st line, loadLine line st) (newFileList, EmptyString)
     (readLines content EmptyString)).1.

(** *** Facts about strings *)

Lemma append_cons c (a b : string) : String c a +:+ b = String c (a +:+ b).
Proof. done. Qed.



Lemma allChars_app P (a b : string) :
  allChars P (a +:+ b) = allChars P a && allChars P b.
Proof.
  induction a as [|x a IH]; [done|].
  rewrite append_cons. simpl. by rewrite IH, andb_assoc.
Qed.





(** *** Decimal numbers *)

Lemma string_of_uint_digits d : allChars isDigit (NilEmpty.string_of_uint d) = true.
Proof. induction d; simpl; by rewrite ?IHd. Qed.

Lemma NilZero_string_of_uint_digits d :
  allChars isDigit (NilZero.string_of_uint d) = true ∧
  NilZero.string_of_uint d ≠ EmptyString.
Proof.
  destruct d; simpl; (split; [|done]);
    try done; apply (string_of_uint_digits d).
Qed.

Lemma formatInt_shape z :
  ∃ sign digits,
    formatInt z = sign +:+ digits ∧
    (sign = EmptyString ∨ sign = "-") ∧
    allChars isDigit digits = true ∧ digits ≠ EmptyString.
Proof.
  unfold formatInt.
  destruct (Z.to_int z) as [d|d]; simpl.
  - exists EmptyString, (NilZero.string_of_uint d).
    split; [done|]. split; [by left|]. apply NilZero_string_of_uint_digits.
  - exists "-", (NilZero.string_of_uint d).
    split; [done|]. split; [by right|]. apply NilZero_string_of_uint_digits.
Qed.

Lemma ParseInt_formatInt z : Int64.in_range z → ParseInt (formatInt z) = Some z.
Proof.
  intros [Hlo Hhi]. unfold ParseInt, formatInt.
  rewrite NilZero.isi.
  - rewrite DecimalZ.of_to.
    apply Z.leb_le in Hlo, Hhi. by rewrite Hlo, Hhi.
  - destruct z; simpl; try done. intros [= Hnil].
    by apply Unsigned.to_uint_nonnil in Hnil.
  - destruct z; simpl; try done. intros [= Hnil].
    by apply Unsigned.to_uint_nonnil in Hnil.
Qed.

(** *** The lines [save] writes match [lineRegex] *)





(** *** Saving and loading *)

Lemma get_sort file ls : get file (sort ls) = get file ls.
Proof. done. Qed.

Lemma saveLines_spec hashName ls remotes :
  (∀ remote, remote ∈ remotes → is_Some (get remote ls)) →
  ∃ lines,
    saveLines hashName ls remotes = Returns (concatLines lines) ∧
    Forall2 (λ remote line,
               ∃ fi, get remote ls = Some fi ∧ line = saveLine hashName remote fi)
      remotes lines.
Proof.
  induction remotes as [|remote remotes IH]; intros Hget.
  { exists []. by split; [|constructor]. }
  destruct IH as (lines & Hlines & Hall).
  { intros r Hr. apply Hget. by right. }
  destruct (Hget remote) as [fi Hfi]; [by left|].
  exists (saveLine hashName remote fi :: lines). simpl.
  rewrite Hfi, Hlines. split; [done|]. constructor; eauto.
Qed.



End Listing.



(** A listing of two files, saved and loaded again. *)
Example save_load_example :
  let ls :=
    mkFileList ["b.txt"; "a.txt"]
      {[ "a.txt" := mkFileInfo 12 0 "900150983cd24fb0" EmptyString EmptyString;
         "b.txt" := mkFileInfo 3009805 0 "d41d8cd98f00b204" "-" "-" ]} 1 in
  ∃ text,
    save plainQuote plainUnquote (λ _, sampleTime) 0 (λ _, "md5") ls
      = Returns (sort ls, text) ∧
    names (sort ls) = ["a.txt"; "b.txt"] ∧
    loadListing plainUnquote (λ _, Some 0) (λ _, Some 1%N) text =
      mkFileList ["a.txt"; "b.txt"]
        {[ "a.txt" := mkFileInfo 12 0 "900150983cd24fb0" "-" "-";
           "b.txt" := mkFileInfo 3009805 0 "d41d8cd98f00b204" "-" "-" ]} 1.
Proof.
  eexists. split; [vm_compute; reflexivity|]. split; [reflexivity|].
  vm_compute. reflexivity.
Qed.

End Bisync.


(** ** More of the sync engine ([fs/sync.go]) *)

Module SyncFlow.

Import Sync.

(** *** The rename map *)

(** [renameMap]: dst files by hash, only used by trackRenames. *)
Abbreviation renameMapT := (gmap string (list Object)).

(** pushRenameMap adds the object with hash to the rename map *)
Definition pushRenameMap (hash : string) (obj : Object) (m : renameMapT) : renameMapT :=
  <[hash := default [] (m !! hash) ++ [obj]]> m.

(** popRenameMap finds the object with hash and pop the first match from
    renameMap or returns nil if not found. *)
Definition popRenameMap (hash : string) (m : renameMapT) : option Object * renameMapT :=
  match m !! hash with
  | Some (dst :: dsts) =>
    (Some dst,
     if bool_decide (dsts ≠ []) then <[hash := dsts]> m else delete hash m)
  | _ => (None, m)
  end.

(** [popRenameMap] called [n] times for a hash: the objects found, in the
    order of the calls, and the map left. *)
Fixpoint popMany (n : nat) (hash : string) (m : renameMapT) : list Object * renameMapT :=
  match n with
  | O => ([], m)
  | S n =>
    match popRenameMap hash m with
    | (Some dst, m) => let '(dsts, m) := popMany n hash m in (dst :: dsts, m)
    | (None, m) => ([], m)
    end
  end.

(** No hash is kept with an empty slice of objects. *)
Definition noEmptySlot (m : renameMapT) : Prop := ∀ hash, m !! hash ≠ Some [].

Section Flow.

(** The hash of an object ([obj.Hash(t)]), the moves on a remote and the
    copies and moves of [fs/operations.go] are outside the source files. *)
Variable World : Type.
Variable ObjectHash : Object → HashType → string + error.
Variable MoveFile : Fs → Fs → string → string → World → World * option error.
Variable Move : Fs → option Object → string → Object → World → World * option error.
Variable Copy : Fs → option Object → string → Object → World → World * option error.
Variable FsNewObject : Fs → string → World → Object + error.

(** renameHash makes a string with the size and the hash for rename
    detection; it may return an empty string in which case no hash could be
    made *)
Definition renameHash (s : syncCopyMove) (obj : Object) : string :=
  match ObjectHash obj (commonHash s) with
  | inr _ => EmptyString
  | inl hash =>
    if bool_decide (hash = EmptyString) then EmptyString
    else Bisync.formatInt (Size obj) +:+ "," +:+ hash
  end.

(** The body of the workers of [makeRenameMap] on the objects pumped to
    them, in the order in which they take them.  The workers run
    concurrently in the source and push under a mutex: the order of the
    objects under a key depends on the schedule, the objects under it do
    not. *)
Definition makeRenameMapFrom (s : syncCopyMove) (possibleSizes : gset Z)
    (objs : list Object) : renameMapT :=
  foldl (λ m obj,
           (* only create hash for dst Object if its size could match *)
           if bool_decide (Size obj ∈ possibleSizes) then
             let hash := renameHash s obj in
             if bool_decide (hash ≠ EmptyString) then pushRenameMap hash obj m
             else m
           else m)
    ∅ objs.

(** makeRenameMap builds a map of the destination files by hash that match
    sizes in the slice of objects in s.renameCheck.  [pumpMapToChan] sends
    nothing once the abort signal is raised; the signal is taken as it is
    when the map is made. *)
Definition makeRenameMap (renameCheck : list Object) (s : syncCopyMove) : renameMapT :=
  let possibleSizes : gset Z := list_to_set (Size <$> renameCheck) in
  let pumped := if aborting s then [] else (map_to_list (dstFiles s)).*2 in
  makeRenameMapFrom s possibleSizes pumped.



(** The copy or move of one pair by [pairCopyOrMove].  [transfers] is the
    record of the calls of [Stats.DoneTransferring]: the name of the source
    and whether the transfer ended without an error. *)
Definition copyOrMove (fdst : Fs) (p : ObjectPair)
    (st : syncCopyMove * World * list (string * bool))
    : syncCopyMove * World * list (string * bool) :=
  let '(s, w, transfers) := st in
  let '(w, e) :=
    if DoMove s then Move fdst (dst p) (Remote (src p)) (src p) w
    else Copy fdst (dst p) (Remote (src p)) (src p) w in
  (processError e s, w,
   transfers ++ [(Remote (src p), match e with None => true | Some _ => false end)]).

(** pairCopyOrMove reads Objects on in and moves or copies them. *)
Fixpoint pairCopyOrMove (inp : list ObjectPair) (fdst : Fs)
    (st : syncCopyMove * World * list (string * bool))
    : syncCopyMove * World * list (string * bool) :=
  match inp with
  | [] => st
  | p :: inp =>
    if aborting st.1.1 then st
    else pairCopyOrMove inp fdst (copyOrMove fdst p st)
  end.

(** The body of the loop of [runRecursive] over the source objects: the
    destination object of the same name is looked up, and taken out of
    [dstFiles] when the destination has been traversed. *)
Definition matchSrc (w : World) (src : Object) (s : syncCopyMove) : syncCopyMove :=
  let remote := Remote src in
  let '(dst, s) :=
    if noTraverse s then
      match FsNewObject (fdst s) remote w with
      | inl o => (Some o, s)
      | inr _ => (None, s)
      end
    else
      match dstFiles s !! remote with
      | Some o =>
        (* Remove file from s.dstFiles because it exists in srcFiles *)
        (Some o, set_dstFiles (delete remote (dstFiles s)) s)
      | None => (None, s)
      end in
  match dst with
  | Some dst =>
    set_toBeChecked (toBeChecked s ++ [mkObjectPair src (Some dst)]) s
  | None =>
    if trackRenames s then
      (* Save object to check for a rename later *)
      set_trackRenamesCh (trackRenamesCh s ++ [src]) s
    else
      (* No need to check since doesn't exist *)
      set_toBeUploaded (toBeUploaded s ++ [mkObjectPair src None]) s
  end.

Definition matchAllSrc (w : World) (srcs : list Object) (s : syncCopyMove)
    : syncCopyMove :=
  foldl (λ s src, matchSrc w src s) s srcs.

(** *** The passes of a sync *)

(** [newSyncCopyMove] reads the configuration; the two engines
    [runDirAtATime] and [runRecursive] are run on the state it makes.
    [oldSyncMethod] is the flag [--old-sync-method] and [ConfigDeleteMode]
    the delete mode of the configuration. *)
Variable NewFs : string → Fs + error.
Variable SameConfig : Fs → Fs → bool.
Variable Overlapping : Fs → Fs → bool.
Variable Config : ConfigInfo.
Variable oldSyncMethod : bool.
Variable ConfigDeleteMode : DeleteMode.

Section Passes.

Variable runDirAtATime : syncCopyMove → World → World * option error.
Variable runRecursive : syncCopyMove → World → World * option error.

Definition runSyncCopyMove (fdst fsrc : Fs) (deleteMode : DeleteMode) (DoMove : bool)
    (w : World) : World * option error :=
  if bool_decide (deleteMode ≠ DeleteModeOff) && DoMove then
    (w, Some (errors_New "can't delete and move at the same time"))
  else
    (* Run an extra pass to delete only *)
    let extra : World * DeleteMode + World * error :=
      if negb oldSyncMethod && bool_decide (ConfigDeleteMode = DeleteModeBefore) then
        if TrackRenames Config then
          inr (w, errors_New "can't use --delete-before with --track-renames")
        else
          (* only delete stuff during in this pass *)
          match newSyncCopyMove NewFs SameConfig Overlapping Config
                  fdst fsrc DeleteModeOnly false with
          | inr e => inr (w, e)
          | inl do =>
            let '(w, e) := runDirAtATime do w in
            match e with
            | Some e => inr (w, e)
            | None => inl (w, DeleteModeOff) (* Next pass does a copy only *)
            end
          end
      else inl (w, deleteMode) in
    match extra with
    | inr (w, e) => (w, Some e)
    | inl (w, deleteMode) =>
      match newSyncCopyMove NewFs SameConfig Overlapping Config
              fdst fsrc deleteMode DoMove with
      | inr e => (w, Some e)
      | inl do => if oldSyncMethod then runRecursive do w else runDirAtATime do w
      end
    end.

(** Sync fsrc into fdst *)
Definition Sync (fdst fsrc : Fs) : World → World * option error :=
  runSyncCopyMove fdst fsrc ConfigDeleteMode false.

(** CopyDir copies fsrc into fdst *)
Definition CopyDir (fdst fsrc : Fs) : World → World * option error :=
  runSyncCopyMove fdst fsrc DeleteModeOff false.

(** moveDir moves fsrc into fdst *)
Definition moveDir (fdst fsrc : Fs) : World → World * option error :=
  runSyncCopyMove fdst fsrc DeleteModeOff true.

End Passes.

End Flow.

(** *** The rename map is a queue per hash *)

Lemma pushRenameMap_lookup hash obj m hash' :
  pushRenameMap hash obj m !! hash' =
    if bool_decide (hash = hash') then Some (default [] (m !! hash) ++ [obj])
    else m !! hash'.
Proof.
  unfold pushRenameMap. case_bool_decide as Heq.
  - subst. apply lookup_insert_eq.
  - by apply lookup_insert_ne.
Qed.

Lemma pushMany_lookup hash objs : ∀ m hash',
  foldl (λ m obj, pushRenameMap hash obj m) m objs !! hash' =
    if bool_decide (hash = hash' ∧ objs ≠ []) then Some (default [] (m !! hash) ++ objs)
    else m !! hash'.
Proof.
  induction objs as [|obj objs IH]; intros m hash'; simpl.
  { rewrite bool_decide_eq_false_2; [done|]. by intros [_ ?]. }
  rewrite IH, !pushRenameMap_lookup.
  repeat case_bool_decide; destruct_and?; simplify_eq/=;
    rewrite <- ?app_assoc; try done.
  all: try (destruct objs; [done|exfalso; naive_solver]).
  all: exfalso; naive_solver.
Qed.

Lemma popMany_slot hash l : ∀ m,
  l ≠ [] → popMany (length l) hash (<[hash := l]> m) = (l, delete hash m).
Proof.
  induction l as [|x l IH]; intros m Hl; [done|]. simpl.
  unfold popRenameMap. rewrite lookup_insert_eq.
  destruct l as [|y l].
  - rewrite bool_decide_eq_false_2 by (by intros H). simpl.
    by rewrite delete_insert_eq.
  - rewrite bool_decide_eq_true_2 by done. rewrite insert_insert_eq.
    rewrite IH by done. done.
Qed.

(** X1.  The objects pushed for a hash that was not in the rename map
    are popped in the order in which they were pushed; once they have all
    been popped the map is as it was before, and a further pop finds
    nothing.  Other hashes are not affected by the pushes. *)
Theorem renameMap_fifo (hash : string) (objs : list Object) (m : renameMapT) :
  m !! hash = None →
  let m' := foldl (λ m obj, pushRenameMap hash obj m) m objs in
  popMany (length objs) hash m' = (objs, m) ∧
  popRenameMap hash m = (None, m) ∧
  (∀ hash', hash' ≠ hash → m' !! hash' = m !! hash').
Proof.
  intros Hnone m'. split; [|split].
  - destruct objs as [|obj objs]; [done|].
    assert (m' = <[hash := obj :: objs]> m) as ->.
    { apply map_eq. intros h. subst m'. rewrite pushMany_lookup.
      destruct (decide (hash = h)) as [->|Hne].
      - rewrite bool_decide_eq_true_2 by done.
        by rewrite Hnone, lookup_insert_eq.
      - rewrite bool_decide_eq_false_2 by (by intros [? _]).
        by rewrite lookup_insert_ne. }
    rewrite popMany_slot by done. by rewrite delete_id.
  - unfold popRenameMap. by rewrite Hnone.
  - intros hash' Hne. subst m'. rewrite pushMany_lookup.
    rewrite bool_decide_eq_false_2; [done|]. intros [-> _]. done.
Qed.

Lemma renameMap_fifo_witness :
  let a := mkObject "a" 1 0 true in
  let b := mkObject "b" 1 0 true in
  popMany 2 "1,abc" (pushRenameMap "1,abc" b (pushRenameMap "1,abc" a ∅))
    = ([a; b], ∅).
Proof.
  intros a b.
  exact (proj1 (renameMap_fifo "1,abc" [a; b] ∅ eq_refl)).
Defined.

(** *** Building the rename map *)

Lemma makeRenameMapFrom_lookup ObjectHash s (possibleSizes : gset Z) objs : ∀ (m : renameMapT) hash obj,
  obj ∈ default [] (foldl (λ m obj,
           if bool_decide (Size obj ∈ possibleSizes) then
             let hash := renameHash ObjectHash s obj in
             if bool_decide (hash ≠ EmptyString) then pushRenameMap hash obj m
             else m
           else m) m objs !! hash) ↔
  obj ∈ default [] (m !! hash) ∨
  (obj ∈ objs ∧ Size obj ∈ possibleSizes ∧ renameHash ObjectHash s obj = hash ∧
   hash ≠ EmptyString).
Proof.
  induction objs as [|o objs IH]; intros m hash obj; simpl.
  { split; [by left|]. intros [?|[Hin _]]; [done|]. by apply elem_of_nil in Hin. }
  rewrite IH. clear IH. rewrite elem_of_cons.
  repeat case_bool_decide; simpl.
  - rewrite pushRenameMap_lookup. case_bool_decide as Hh; simpl.
    + rewrite elem_of_app, list_elem_of_singleton. subst hash.
      intuition (subst; auto).
    + intuition (subst; auto). congruence.
  - intuition (subst; auto). congruence.
  - intuition (subst; auto). congruence.
Qed.

Lemma makeRenameMapFrom_noEmpty ObjectHash s (possibleSizes : gset Z) objs : ∀ m : renameMapT,
  noEmptySlot m →
  noEmptySlot (foldl (λ m obj,
           if bool_decide (Size obj ∈ possibleSizes) then
             let hash := renameHash ObjectHash s obj in
             if bool_decide (hash ≠ EmptyString) then pushRenameMap hash obj m
             else m
           else m) m objs).
Proof.
  induction objs as [|o objs IH]; intros m Hm; [done|]. simpl. apply IH.
  repeat case_bool_decide; try done.
  intros hash. rewrite pushRenameMap_lookup. case_bool_decide; [|done].
  intros [= Hnil]. by apply app_nil in Hnil as [_ ?].
Qed.

(** X2.  When the abort signal is not raised, the rename map built by
    [makeRenameMap] holds under a key exactly the remaining destination
    files whose size is that of a rename candidate and whose rename hash
    (size and common hash) is that key; files without a hash are left out,
    and no key is kept with an empty slice. *)
Theorem makeRenameMap_spec ObjectHash (renameCheck : list Object) (s : syncCopyMove)
    (hash : string) (obj : Object) :
  aborting s = false →
  (obj ∈ default [] (makeRenameMap ObjectHash renameCheck s !! hash) ↔
     (∃ name, dstFiles s !! name = Some obj) ∧
     (∃ candidate, candidate ∈ renameCheck ∧ Size candidate = Size obj) ∧
     renameHash ObjectHash s obj = hash ∧ hash ≠ EmptyString) ∧
  noEmptySlot (makeRenameMap ObjectHash renameCheck s).
Proof.
  intros Hab. unfold makeRenameMap, makeRenameMapFrom. rewrite Hab. split.
  - rewrite makeRenameMapFrom_lookup. rewrite lookup_empty. simpl.
    rewrite elem_of_nil, elem_of_list_to_set, !list_elem_of_fmap.
    split.
    + intros [[]|((name_obj & -> & Hin) & (c & Hsz & Hc) & Hh & Hne)].
      destruct name_obj as [name o]. apply elem_of_map_to_list in Hin.
      split; [by exists name|]. split; [by exists c|]. done.
    + intros ((name & Hname) & (c & Hc & Hsz) & Hh & Hne). right.
      split; [exists (name, obj); split; [done|by apply elem_of_map_to_list]|].
      split; [by exists c|]. done.
  - apply makeRenameMapFrom_noEmpty. intros h. by rewrite lookup_empty.
Qed.

Lemma makeRenameMap_spec_witness :
  let s :=
    mkSyncCopyMove (mkFs "dst" EmptyString 1%N true false)
      (mkFs "src" EmptyString 1%N false false)
      DeleteModeAfter false EmptyString false [] true
      {[ "old" := mkObject "old" 2 0 true ]} ∅ make_signal [] []
      None None None 1%N [] [] None EmptyString in
  noEmptySlot (makeRenameMap (λ _ _, inl "abc") [mkObject "new" 2 0 true] s).
Proof.
  intros s.
  exact (proj2 (makeRenameMap_spec (λ _ _, inl "abc") [mkObject "new" 2 0 true] s
                  "2,abc" (mkObject "old" 2 0 true) eq_refl)).
Defined.

(** *** The renamers *)




(** *** The transfers *)

Lemma processError_sticky e s :
  currentError s ≠ None → currentError (processError e s) ≠ None.
Proof.
  destruct e as [e|]; [|done]. intros _.
  unfold processError, currentError.
  destruct (IsFatalError e); [destruct (aborting s); done|].
  destruct (IsNoRetryError e); simpl; repeat case_match; done.
Qed.

Lemma pairCopyOrMove_sticky {World} Move Copy inp fdst :
  ∀ (s : syncCopyMove) (w : World) transfers,
  currentError s ≠ None →
  currentError (pairCopyOrMove World Move Copy inp fdst (s, w, transfers)).1.1 ≠ None.
Proof.
  induction inp as [|p inp IH]; intros s w transfers Hs; [done|].
  cbn [pairCopyOrMove fst snd]. destruct (aborting s); [done|].
  unfold copyOrMove.
  destruct (if DoMove s then _ else _) as [w1 e]. apply IH.
  by apply processError_sticky.
Qed.

(** X4.  Started with no error recorded and the abort signal not raised,
    [pairCopyOrMove] ends with no error recorded exactly when it has taken
    every pair it was given, in order, and each copy or move ended without
    an error. *)
Theorem pairCopyOrMove_all_or_error {World} Move Copy (inp : list ObjectPair)
    (fdst : Fs) (s : syncCopyMove) (w : World) :
  aborting s = false →
  currentError s = None →
  let st' := pairCopyOrMove World Move Copy inp fdst (s, w, []) in
  currentError st'.1.1 = None ↔ st'.2 = (λ p, (Remote (src p), true)) <$> inp.
Proof.
  intros Hab Hs. cbn zeta.
  enough (∀ transfers,
    let st' := pairCopyOrMove World Move Copy inp fdst (s, w, transfers) in
    currentError st'.1.1 = None ↔
    st'.2 = transfers ++ ((λ p, (Remote (src p), true)) <$> inp)) as H
    by apply (H []).
  revert s w Hab Hs. induction inp as [|p inp IH]; intros s w Hab Hs transfers.
  { cbn. by rewrite app_nil_r. }
  cbn [pairCopyOrMove fst snd]. rewrite Hab. unfold copyOrMove.
  destruct (if DoMove s then _ else _) as [w1 [e|]].
  - split.
    + intros Hnone. exfalso.
      eapply (pairCopyOrMove_sticky Move Copy inp fdst); [|exact Hnone].
      apply Sync.processError_recorded.
    + intros Hlog. exfalso.
      assert (Hpre : ∀ inp (st : syncCopyMove * World * list (string * bool)),
        st.2 `prefix_of` (pairCopyOrMove World Move Copy inp fdst st).2).
      { clear. induction inp as [|q inp IH]; intros [[s w] tr]; [done|].
        cbn [pairCopyOrMove fst snd]. destruct (aborting s); [done|].
        etrans; [|apply IH]. unfold copyOrMove.
        destruct (if DoMove s then _ else _) as [w1 e]. by apply prefix_app_r. }
      specialize (Hpre inp (processError (Some e) s, w1,
                            transfers ++ [(Remote (src p), false)])).
      rewrite Hlog in Hpre. cbn in Hpre.
      rewrite (cons_middle _ transfers), app_assoc in Hpre.
      destruct Hpre as [k Hk]. rewrite <- !app_assoc in Hk.
      apply app_inv_head in Hk. by injection Hk.
  - cbn [processError]. rewrite (IH s w1 Hab Hs).
    by rewrite <- app_assoc.
Qed.

Lemma pairCopyOrMove_all_or_error_witness :
  let s :=
    mkSyncCopyMove (mkFs "dst" EmptyString 1%N true false)
      (mkFs "src" EmptyString 1%N false false)
      DeleteModeOff false EmptyString false [] false ∅ ∅ make_signal [] []
      None None None 1%N [] [] None EmptyString in
  let ok : Fs → option Object → string → Object → unit → unit * option error :=
    λ _ _ _ _ w, (w, None) in
  let p := mkObjectPair (mkObject "a" 1 0 true) None in
  let st' := pairCopyOrMove unit ok ok [p] (fdst s) (s, tt, []) in
  currentError st'.1.1 = None ↔ st'.2 = [("a", true)].
Proof.
  intros s ok p.
  exact (pairCopyOrMove_all_or_error ok ok [p] (fdst s) s tt eq_refl eq_refl).
Defined.

(** *** The loop of [runRecursive] *)

Lemma matchSrc_noTraverse {World} FsNewObject (w : World) src s :
  noTraverse (matchSrc World FsNewObject w src s) = noTraverse s ∧
  trackRenames (matchSrc World FsNewObject w src s) = trackRenames s.
Proof.
  unfold matchSrc. destruct (noTraverse s) eqn:Hn.
  - destruct (FsNewObject _ _ _); [done|]. by destruct (trackRenames s) eqn:Ht.
  - destruct (dstFiles s !! Remote src); [done|].
    by destruct (trackRenames s) eqn:Ht.
Qed.

Lemma matchSrc_dstFiles {World} FsNewObject (w : World) src s :
  noTraverse s = false →
  dstFiles (matchSrc World FsNewObject w src s) = delete (Remote src) (dstFiles s).
Proof.
  intros Hn. unfold matchSrc. rewrite Hn.
  destruct (dstFiles s !! Remote src) eqn:Hl; [done|].
  rewrite delete_id by done. by destruct (trackRenames s).
Qed.

(** X5.  When the destination has been traversed, the loop of
    [runRecursive] over the source objects leaves in [dstFiles] exactly
    the destination files whose name is the name of no source object: these
    are the files the delete pass that follows removes. *)
Theorem runRecursive_leftover {World} FsNewObject (w : World) (srcs : list Object)
    (s : syncCopyMove) (name : string) :
  noTraverse s = false →
  dstFiles (matchAllSrc World FsNewObject w srcs s) !! name =
    if bool_decide (name ∈ Remote <$> srcs) then None else dstFiles s !! name.
Proof.
  unfold matchAllSrc. revert s. induction srcs as [|a srcs IH]; intros s Hn.
  { cbn. case_bool_decide as H; [by apply elem_of_nil in H|done]. }
  cbn [foldl]. rewrite IH by (by rewrite (proj1 (matchSrc_noTraverse _ _ _ _))).
  rewrite matchSrc_dstFiles by done. rewrite fmap_cons.
  rewrite !bool_decide_decide.
  destruct (decide (name ∈ Remote <$> srcs)) as [Hin|Hnin].
  - rewrite decide_True by (by right). done.
  - destruct (decide (name = Remote a)) as [->|Hne].
    + rewrite decide_True by (by left). by rewrite lookup_delete_eq.
    + rewrite decide_False by (by intros [?|?]%elem_of_cons).
      by rewrite lookup_delete_ne.
Qed.

Lemma runRecursive_leftover_witness :
  let s :=
    mkSyncCopyMove (mkFs "dst" EmptyString 1%N true false)
      (mkFs "src" EmptyString 1%N false false)
      DeleteModeAfter false EmptyString false [] false
      {[ "a" := mkObject "a" 1 0 true; "old" := mkObject "old" 2 0 true ]} ∅
      make_signal [] [] None None None 1%N [] [] None EmptyString in
  let NewObject : Fs → string → unit → Object + error :=
    λ _ _ _, inr (errors_New "object not found") in
  dstFiles (matchAllSrc unit NewObject tt [mkObject "a" 3 5 true] s) !! "old" =
    if bool_decide ("old" ∈ Remote <$> [mkObject "a" 3 5 true]) then None
    else dstFiles s !! "old".
Proof.
  intros s NewObject.
  assert (H : noTraverse s = false) by reflexivity.
  exact (runRecursive_leftover NewObject tt [mkObject "a" 3 5 true] s "old" H).
Defined.

Lemma matchSrc_channels {World} FsNewObject (w : World) src s :
  noTraverse s = false →
  let s' := matchSrc World FsNewObject w src s in
  toBeChecked s' =
    toBeChecked s ++ option_list (mkObjectPair src ∘ Some <$> dstFiles s !! Remote src) ∧
  trackRenamesCh s' =
    trackRenamesCh s ++
    (if trackRenames s then
       if bool_decide (dstFiles s !! Remote src = None) then [src] else []
     else []) ∧
  toBeUploaded s' =
    toBeUploaded s ++
    (if trackRenames s then []
     else if bool_decide (dstFiles s !! Remote src = None)
          then [mkObjectPair src None] else []).
Proof.
  intros Hn. unfold matchSrc. rewrite Hn.
  destruct (dstFiles s !! Remote src) eqn:Hl; cbn.
  - rewrite ?app_nil_r. by destruct (trackRenames s); rewrite ?app_nil_r.
  - destruct (trackRenames s) eqn:Ht; cbn; by rewrite ?app_nil_r.
Qed.

Lemma matchAllSrc_channels {World} FsNewObject (w : World) (srcs : list Object) :
  ∀ (s : syncCopyMove) (d : gmap string Object),
  noTraverse s = false →
  NoDup (Remote <$> srcs) →
  (∀ src, src ∈ srcs → dstFiles s !! Remote src = d !! Remote src) →
  let s' := matchAllSrc World FsNewObject w srcs s in
  let fresh := filter (λ src, d !! Remote src = None) srcs in
  toBeChecked s' =
    toBeChecked s ++
    omap (λ src, mkObjectPair src ∘ Some <$> d !! Remote src) srcs ∧
  trackRenamesCh s' = trackRenamesCh s ++ (if trackRenames s then fresh else []) ∧
  toBeUploaded s' =
    toBeUploaded s ++
    (if trackRenames s then [] else (λ src, mkObjectPair src None) <$> fresh).
Proof.
  unfold matchAllSrc. induction srcs as [|a srcs IH]; intros s d Hn Hnd Hd.
  { cbn. destruct (trackRenames s); cbn; by rewrite ?app_nil_r. }
  rewrite fmap_cons in Hnd. apply NoDup_cons in Hnd as [Ha Hnd].
  cbn [foldl]. cbn zeta.
  destruct (IH (matchSrc World FsNewObject w a s) d) as (IHc & IHt & IHu);
    [by rewrite (proj1 (matchSrc_noTraverse _ _ _ _))|done| |].
  { intros src Hsrc. rewrite matchSrc_dstFiles by done.
    rewrite lookup_delete_ne; [apply Hd; by right|].
    intros Heq. apply Ha. rewrite Heq. apply list_elem_of_fmap. by exists src. }
  rewrite IHc, IHt, IHu. clear IHc IHt IHu IH.
  rewrite (proj2 (matchSrc_noTraverse _ _ _ _)).
  destruct (matchSrc_channels FsNewObject w a s Hn) as (Hc & Ht & Hu).
  rewrite Hc, Ht, Hu, (Hd a) by by left. clear Hc Ht Hu.
  rewrite filter_cons. cbn [omap].
  destruct (d !! Remote a) eqn:Hl; cbn; rewrite ?Hl; cbn;
    rewrite ?decide_False, ?decide_True by done;
    destruct (trackRenames s); cbn; rewrite <- ?app_assoc, ?app_nil_r; done.
Qed.

(** X6.  When the destination has been traversed and no two source
    objects have the same name, the loop of [runRecursive] sends every
    source object to exactly one place: with the destination file of the
    same name to the checkers when there is one, and otherwise to the
    rename candidates when renames are tracked and to the uploads when they
    are not. *)
Theorem runRecursive_dispatch {World} FsNewObject (w : World) (srcs : list Object)
    (s : syncCopyMove) :
  noTraverse s = false →
  NoDup (Remote <$> srcs) →
  let s' := matchAllSrc World FsNewObject w srcs s in
  let fresh := filter (λ src, dstFiles s !! Remote src = None) srcs in
  toBeChecked s' =
    toBeChecked s ++
    omap (λ src, mkObjectPair src ∘ Some <$> dstFiles s !! Remote src) srcs ∧
  trackRenamesCh s' = trackRenamesCh s ++ (if trackRenames s then fresh else []) ∧
  toBeUploaded s' =
    toBeUploaded s ++
    (if trackRenames s then [] else (λ src, mkObjectPair src None) <$> fresh).
Proof.
  intros Hn Hnd. by apply matchAllSrc_channels.
Qed.

Lemma runRecursive_dispatch_witness :
  let s :=
    mkSyncCopyMove (mkFs "dst" EmptyString 1%N true false)
      (mkFs "src" EmptyString 1%N false false)
      DeleteModeAfter false EmptyString false [] false
      {[ "a" := mkObject "a" 1 0 true ]} ∅
      make_signal [] [] None None None 1%N [] [] None EmptyString in
  let NewObject : Fs → string → unit → Object + error :=
    λ _ _ _, inr (errors_New "object not found") in
  let srcs := [mkObject "a" 3 5 true; mkObject "b" 4 5 true] in
  toBeUploaded (matchAllSrc unit NewObject tt srcs s) =
    [mkObjectPair (mkObject "b" 4 5 true) None].
Proof.
  intros s NewObject srcs.
  assert (Hn : noTraverse s = false) by reflexivity.
  assert (Hnd : NoDup (Remote <$> srcs)).
  { apply NoDup_cons. split; [|apply NoDup_singleton].
    intros H%list_elem_of_singleton. discriminate H. }
  destruct (runRecursive_dispatch NewObject tt srcs s Hn Hnd) as (_ & _ & Hu).
  rewrite Hu. reflexivity.
Defined.

(** *** [NeedTransfer] under [--update] *)

(** X7.  Under [--update] (with ignore-existing and ignore-times off, and
    a window that is an [int64]) two objects are never transferred in both
    directions unless their sizes differ, and an object is not transferred
    onto an object with the same modification time and size, whatever the
    window is. *)
Theorem NeedTransfer_update_one_way ModTimeNotSupported Equal Config (a b : Object) :
  IgnoreExisting Config = false →
  IgnoreTimes Config = false →
  UpdateOlder Config = true →
  Int64.in_range (ModifyWindow Config) →
  (NeedTransfer ModTimeNotSupported Equal Config (Some a) b = true →
   NeedTransfer ModTimeNotSupported Equal Config (Some b) a = true →
   Size a ≠ Size b) ∧
  (ModTime a = ModTime b → Size a = Size b →
   NeedTransfer ModTimeNotSupported Equal Config (Some a) b = false).
Proof.
  intros H1 H2 H3 Hrange.
  rewrite !(NeedTransfer_update_older_eq _ _ _ _ _ H1 H2 H3). cbn zeta.
  assert (HW : Int64.in_range (updateWindow ModTimeNotSupported Config)).
  { unfold updateWindow. case_match; [|done].
    unfold Int64.in_range, Int64.min_int, Int64.max_int, Second. lia. }
  revert HW. generalize (updateWindow ModTimeNotSupported Config). intros W HW.
  assert (Hneg : Int64.neg W = - W ∨ (W = Int64.min_int ∧ Int64.neg W = Int64.min_int)).
  { destruct (decide (W = Int64.min_int)) as [->|Hne]; [by right|left].
    apply Int64.neg_small. unfold Int64.in_range in HW. lia. }
  revert Hneg. generalize (Int64.neg W). intros nW Hneg.
  assert (Hc : ∀ x,
    (x < Int64.min_int ∧ Int64.clamp x = Int64.min_int) ∨
    (Int64.max_int < x ∧ Int64.clamp x = Int64.max_int) ∨
    (Int64.in_range x ∧ Int64.clamp x = x)).
  { intros x. unfold Int64.clamp, Int64.in_range. repeat case_match; lia. }
  unfold Time_Sub. split.
  - intros Ha Hb Heq. rewrite Heq, Z.eqb_refl in Ha, Hb. cbn [negb] in Ha, Hb.
    pose proof (Hc (ModTime a - ModTime b)) as Hab.
    pose proof (Hc (ModTime b - ModTime a)) as Hba.
    revert Ha Hb Hab Hba.
    generalize (Int64.clamp (ModTime a - ModTime b)).
    generalize (Int64.clamp (ModTime b - ModTime a)).
    unfold Int64.in_range, Int64.min_int, Int64.max_int in *.
    intros dba dab Ha Hb Hab Hba.
    repeat match type of Ha with context [if ?c then _ else _] =>
      destruct c eqn:? end; try discriminate;
    repeat match type of Hb with context [if ?c then _ else _] =>
      destruct c eqn:? end; try discriminate; lia.
  - intros -> ->. rewrite Z.sub_diag, Z.eqb_refl. cbn [negb].
    change (Int64.clamp 0) with 0.
    unfold Int64.in_range, Int64.min_int, Int64.max_int in *.
    repeat match goal with |- context [if ?c then _ else _] =>
      destruct c eqn:? end; try done; lia.
Qed.

Lemma NeedTransfer_update_one_way_witness :
  let Config :=
    mkConfig false false false false true 1000000000 EmptyString EmptyString false in
  NeedTransfer (100 * 365 * 24 * Hour) (λ _ _, false) Config
    (Some (mkObject "f" 10 7 true)) (mkObject "f" 10 7 true) = false.
Proof.
  intros Config.
  assert (Hrange : Int64.in_range (ModifyWindow Config)).
  { unfold Int64.in_range, Int64.min_int, Int64.max_int. cbn. lia. }
  exact (proj2 (NeedTransfer_update_one_way (100 * 365 * 24 * Hour) (λ _ _, false) Config
           (mkObject "f" 10 7 true) (mkObject "f" 10 7 true) eq_refl eq_refl eq_refl
           Hrange)
         eq_refl eq_refl).
Defined.

(** *** The files [deleteFiles] deletes *)

Lemma spareFiles_elem checkSrcMap s (entries : list (string * Object)) (o : Object) :
  aborting s = false →
  o ∈ spareFiles checkSrcMap s entries ↔
  ∃ name, (name, o) ∈ entries ∧ (checkSrcMap = true → srcFiles s !! name = None).
Proof.
  intros Hab. induction entries as [|[name x] entries IH].
  { cbn. split; [by intros ?%elem_of_nil|].
    by intros (name & ?%elem_of_nil & _). }
  cbn [spareFiles]. rewrite Hab.
  destruct checkSrcMap; cbn [andb].
  - case_bool_decide as Hs.
    + rewrite IH. split.
      * intros (n & Hin & Hn). exists n. split; [by right|done].
      * intros (n & Hin & Hn). exists n. split; [|done].
        apply elem_of_cons in Hin as [[= -> ->]|Hin]; [|done].
        rewrite Hn in Hs by done. by destruct Hs.
    + rewrite elem_of_cons, IH. split.
      * intros [->|(n & Hin & Hn)].
        -- exists name. split; [by left|]. intros _.
           destruct (srcFiles s !! name) eqn:Hl; [|done].
           exfalso. apply Hs. by eexists.
        -- exists n. split; [by right|done].
      * intros (n & Hin & Hn).
        apply elem_of_cons in Hin as [[= -> ->]|Hin]; [by left|].
        right. by exists n.
  - rewrite elem_of_cons, IH. split.
    + intros [->|(n & Hin & Hn)].
      * exists name. split; [by left|done].
      * exists n. split; [by right|done].
    + intros (n & Hin & Hn).
      apply elem_of_cons in Hin as [[= -> ->]|Hin]; [by left|].
      right. by exists n.
Qed.

(** X8.  When no error has been counted and the abort signal is not
    raised, [deleteFiles] hands to the deleter exactly the files of
    [dstFiles]; with [checkSrcMap] set, exactly those whose name is not a
    key of [srcFiles].  Its result is the result of the deleter on them. *)
Theorem deleteFiles_spare {World} Stats_Errored deleteFilesWithBackupDir
    (checkSrcMap : bool) (s : syncCopyMove) (w : World) :
  Stats_Errored w = false →
  aborting s = false →
  ∃ toDelete : list Object,
    Sync.deleteFiles World Stats_Errored deleteFilesWithBackupDir checkSrcMap (s, w) =
      deleteFilesWithBackupDir toDelete (backupDir s) w ∧
    ∀ o, o ∈ toDelete ↔
         ∃ name, dstFiles s !! name = Some o ∧
                 (checkSrcMap = true → srcFiles s !! name = None).
Proof.
  intros Hst Hab. unfold Sync.deleteFiles. rewrite Hst.
  eexists. split; [done|]. intros o. rewrite spareFiles_elem by done.
  by setoid_rewrite elem_of_map_to_list.
Qed.

Lemma deleteFiles_spare_witness :
  let s :=
    mkSyncCopyMove (mkFs "dst" EmptyString 1%N true false)
      (mkFs "src" EmptyString 1%N false false)
      DeleteModeBefore false EmptyString false [] false
      {[ "a" := mkObject "a" 1 0 true; "old" := mkObject "old" 2 0 true ]}
      {[ "a" := mkObject "a" 1 5 true ]}
      make_signal [] [] None None None 1%N [] [] None EmptyString in
  let deleter : list Object → option Fs → list Object → list Object * option error :=
    λ objs _ w, (w ++ objs, None) in
  ∃ toDelete : list Object,
    Sync.deleteFiles (list Object) (λ _, false) deleter true (s, []) =
      deleter toDelete None [] ∧
    ∀ o, o ∈ toDelete ↔
         ∃ name, dstFiles s !! name = Some o ∧ (true = true → srcFiles s !! name = None).
Proof.
  intros s deleter.
  assert (Hab : aborting s = false) by reflexivity.
  exact (deleteFiles_spare (λ _, false) deleter true s [] eq_refl Hab).
Defined.

(** *** The checkers *)

Lemma checkPair_inv {World} NewObject Move DeleteFile ModTimeNotSupported Equal Config
    (p : ObjectPair) (s : syncCopyMove) (w : World) :
  let s' := (checkPair World NewObject Move DeleteFile ModTimeNotSupported Equal Config
               p (s, w)).1 in
  (∃ out, toBeUploaded s' = toBeUploaded s ++ out ∧
     ∀ q, q ∈ out →
       src q = src p ∧ Storable (src p) = true ∧
       NeedTransfer ModTimeNotSupported Equal Config (dst p) (src p) = true ∧
       (dst q = dst p ∨ dst q = None)) ∧
  toBeChecked s' = toBeChecked s ∧ dstFiles s' = dstFiles s ∧
  deleteFilesCh s' = deleteFilesCh s ∧ trackRenamesCh s' = trackRenamesCh s ∧
  backupDir s' = backupDir s ∧ DoMove s' = DoMove s.
Proof.
  assert (Hpe : ∀ e, backupDir (processError e s) = backupDir s ∧
                     DoMove (processError e s) = DoMove s).
  { intros [e|]; [|done]. unfold processError.
    destruct (IsFatalError e); [by destruct (aborting s)|].
    by destruct (IsNoRetryError e). }
  assert (Hnil : ∀ e,
    (∃ out, toBeUploaded (processError e s) = toBeUploaded s ++ out ∧
       ∀ q, q ∈ out →
         src q = src p ∧ Storable (src p) = true ∧
         NeedTransfer ModTimeNotSupported Equal Config (dst p) (src p) = true ∧
         (dst q = dst p ∨ dst q = None)) ∧
    toBeChecked (processError e s) = toBeChecked s ∧
    dstFiles (processError e s) = dstFiles s ∧
    deleteFilesCh (processError e s) = deleteFilesCh s ∧
    trackRenamesCh (processError e s) = trackRenamesCh s ∧
    backupDir (processError e s) = backupDir s ∧
    DoMove (processError e s) = DoMove s).
  { intros e. destruct (processError_channels e s) as (Hu & Hc & Ht & Hd & Hf).
    destruct (Hpe e) as [Hb Hm].
    split; [|done]. exists []. rewrite app_nil_r. split; [done|].
    by intros q ?%elem_of_nil. }
  unfold checkPair. destruct (Storable (src p)) eqn:Hst; [|apply (Hnil None)].
  destruct (NeedTransfer _ _ _ _ _) eqn:Hneed.
  - destruct (dst p) as [pdst|] eqn:Hdst, (backupDir s) as [bdir|] eqn:Hb.
    + destruct (Move _ _ _ _ _) as [w1 [e|]]; [apply (Hnil (Some e))|].
      cbn. rewrite Hb. split; [|done]. eexists. split; [done|].
      intros q ->%list_elem_of_singleton. cbn. auto.
    + cbn. rewrite Hb. split; [|done]. eexists. split; [done|].
      intros q ->%list_elem_of_singleton. auto.
    + cbn. rewrite Hb. split; [|done]. eexists. split; [done|].
      intros q ->%list_elem_of_singleton. auto.
    + cbn. rewrite Hb. split; [|done]. eexists. split; [done|].
      intros q ->%list_elem_of_singleton. auto.
  - destruct (DoMove s); [|apply (Hnil None)].
    destruct (DeleteFile _ _) as [w1 e]. apply (Hnil e).
Qed.

(** X9.  [pairChecker] only appends to the uploads, and every pair it
    appends comes from a pair it received whose source can be stored and
    for which [NeedTransfer] answered yes; the source is that of the pair
    received and the destination is the one received or nil.  It sends
    nothing to the other channels and leaves [dstFiles] as it is. *)
Theorem pairChecker_uploads {World} NewObject Move DeleteFile ModTimeNotSupported
    Equal Config (inp : list ObjectPair) (s : syncCopyMove) (w : World) :
  let s' := (pairChecker World NewObject Move DeleteFile ModTimeNotSupported Equal
               Config inp (s, w)).1 in
  (∃ out, toBeUploaded s' = toBeUploaded s ++ out ∧
     ∀ q, q ∈ out → ∃ p, p ∈ inp ∧
       src q = src p ∧ Storable (src p) = true ∧
       NeedTransfer ModTimeNotSupported Equal Config (dst p) (src p) = true ∧
       (dst q = dst p ∨ dst q = None)) ∧
  toBeChecked s' = toBeChecked s ∧ dstFiles s' = dstFiles s ∧
  deleteFilesCh s' = deleteFilesCh s ∧ trackRenamesCh s' = trackRenamesCh s.
Proof.
  revert s w. induction inp as [|p inp IH]; intros s w.
  { cbn. split; [|done]. exists []. rewrite app_nil_r. split; [done|].
    by intros q ?%elem_of_nil. }
  cbn [pairChecker fst]. destruct (aborting s).
  { cbn. split; [|done]. exists []. rewrite app_nil_r. split; [done|].
    by intros q ?%elem_of_nil. }
  pose proof (checkPair_inv NewObject Move DeleteFile ModTimeNotSupported Equal
                Config p s w) as Hp.
  destruct (checkPair _ _ _ _ _ _ _ _ _) as [s1 w1]. cbn in Hp.
  destruct Hp as ((out1 & Hu1 & Hout1) & Hc1 & Hd1 & Hf1 & Ht1 & _).
  specialize (IH s1 w1). cbn zeta in IH.
  destruct IH as ((out & Hu & Hout) & Hc & Hd & Hf & Ht).
  split; [|by rewrite Hc, Hd, Hf, Ht].
  exists (out1 ++ out). split; [by rewrite Hu, Hu1, app_assoc|].
  intros q [Hq|Hq]%elem_of_app.
  - exists p. split; [by left|]. by apply Hout1.
  - destruct (Hout q Hq) as (p' & Hin & H'). exists p'. split; [by right|done].
Qed.




(** *** One directory job *)

Lemma classifyAll_inv job (P : syncCopyMove * list listDirJob → Prop)
    (cs : list matchClass) :
  (∀ c st st', c ∈ cs → P st → classify job c st = Returns st' → P st') →
  ∀ st st', P st → classifyAll job cs st = Returns st' → P st'.
Proof.
  induction cs as [|c cs IH]; intros Hstep st st' HP Hrun.
  { cbn in Hrun. by injection Hrun as <-. }
  cbn [classifyAll] in Hrun.
  destruct (classify job c st) as [st1|msg] eqn:Hc; [|done].
  cbn in Hrun. eapply IH; [|eapply Hstep; [by left|exact HP|exact Hc]|exact Hrun].
  intros c' s1 s2 Hin. apply Hstep. by right.
Qed.

(** The ways in which [_runDirAtATime] ends: after an error of a listing or
    with the abort signal raised, having classified nothing, or having
    classified the entries of the two listings. *)
Lemma runDirAtATime_cases {World} ListDirSorted Config job (w : World) s :
  (∃ e, (noSrc job = true → e = None) ∧
        _runDirAtATime World ListDirSorted Config job w s =
          Some (Returns (processError e s, []))) ∨
  (∃ srcList dstList,
     (noSrc job = true → srcList = []) ∧ (noDst job = true → dstList = []) ∧
     aborting s = false ∧
     _runDirAtATime World ListDirSorted Config job w s =
       Some (classifyAll job (specMerge srcList dstList) (s, []))).
Proof.
  destruct (if noSrc job then ([], None)
            else ListDirSorted (fsrc s) false (remote job) w)
    as [srcList srcErr] eqn:Hsrc.
  destruct (if noDst job then ([], None)
            else ListDirSorted (fdst s) (DeleteExcluded Config) (remote job) w)
    as [dstList dstErr] eqn:Hdst.
  destruct srcErr as [e|].
  { left. eexists. split; [|unfold _runDirAtATime; rewrite Hsrc, Hdst; done].
    intros Hn. rewrite Hn in Hsrc. discriminate Hsrc. }
  destruct (negb (bool_decide (dstErr = Some ErrorDirNotFound))
            && bool_decide (dstErr ≠ None)) eqn:Hd.
  { left. exists None. split; [done|].
    unfold _runDirAtATime. rewrite Hsrc, Hdst, Hd. done. }
  destruct (aborting s) eqn:Hab.
  { left. exists None. split; [done|].
    unfold _runDirAtATime. rewrite Hsrc, Hdst, Hd.
    cbn [matchFuel matchLoop fst]. by rewrite Hab. }
  right. exists srcList, dstList.
  split; [intros Hn; rewrite Hn in Hsrc; by injection Hsrc|].
  split; [intros Hn; rewrite Hn in Hdst; by injection Hdst|].
  split; [done|].
  apply (runDirAtATime_loop ListDirSorted Config job w s srcList dstList dstErr);
    try done.
  apply andb_false_iff in Hd as [Hd|Hd].
  - right. apply negb_false_iff in Hd. by apply bool_decide_eq_true in Hd.
  - left. apply bool_decide_eq_false in Hd. by destruct dstErr; [exfalso; apply Hd|].
Qed.

Lemma processError_config e s :
  deleteMode (processError e s) = deleteMode s ∧
  trackRenames (processError e s) = trackRenames s.
Proof.
  destruct e as [e|]; [|done]. unfold processError.
  destruct (IsFatalError e); [by destruct (aborting s)|].
  by destruct (IsNoRetryError e).
Qed.

Lemma classify_deleteMode job c st st' :
  classify job c st = Returns st' → deleteMode st'.1 = deleteMode st.1.
Proof.
  destruct st as [s jobs]. destruct c as [a b|a|b]; cbn.
  - unfold transfer. destruct a, b; repeat case_match; intros [= <-]; try done;
      apply processError_config.
  - unfold srcOnly. destruct a; repeat case_match; by intros [= <-].
  - unfold dstOnly. destruct b; repeat case_match; try done; by intros [= <-].
Qed.

Lemma classifyAll_returns job (cs : list matchClass) :
  ∀ st, deleteMode st.1 ≠ DeleteModeBefore →
        ∃ st', classifyAll job cs st = Returns st'.
Proof.
  induction cs as [|c cs IH]; intros st Hmode; [by eexists|].
  cbn [classifyAll].
  assert (∃ st1, classify job c st = Returns st1) as [st1 Hc].
  { destruct st as [s jobs]. cbn in Hmode. destruct c as [a b|a|b]; cbn.
    - unfold transfer. destruct a, b; repeat case_match; eexists; reflexivity.
    - unfold srcOnly. destruct a; repeat case_match; eexists; reflexivity.
    - unfold dstOnly. destruct b; repeat case_match;
        first [eexists; reflexivity|exfalso; congruence|by exfalso]. }
  rewrite Hc. cbn. apply IH. by rewrite (classify_deleteMode _ _ _ _ Hc).
Qed.

(** A property of the state and of the jobs that holds when nothing has been
    classified and is kept by the handlers holds when the job ends. *)
Lemma runDirAtATime_inv {World} ListDirSorted Config job (w : World) s
    (P : syncCopyMove * list listDirJob → Prop) :
  deleteMode s ≠ DeleteModeBefore →
  (∀ e, (noSrc job = true → e = None) → P (processError e s, [])) →
  (∀ srcList dstList c st st',
     (noSrc job = true → srcList = []) → (noDst job = true → dstList = []) →
     c ∈ specMerge srcList dstList →
     P st → classify job c st = Returns st' → P st') →
  ∃ s' jobs,
    _runDirAtATime World ListDirSorted Config job w s = Some (Returns (s', jobs)) ∧
    P (s', jobs).
Proof.
  intros Hmode Hstart Hstep.
  destruct (runDirAtATime_cases ListDirSorted Config job w s)
    as [(e & He & ->)|(srcList & dstList & Hns & Hnd & _ & ->)].
  { exists (processError e s), []. split; [done|]. by apply Hstart. }
  destruct (classifyAll_returns job (specMerge srcList dstList) (s, []) Hmode)
    as [[s' jobs] Hrun].
  exists s', jobs. rewrite Hrun. split; [done|].
  eapply (classifyAll_inv job P (specMerge srcList dstList)); [|by apply (Hstart None)|exact Hrun].
  intros c st st'. by apply Hstep.
Qed.

(** X11.  A directory job run on a state whose delete mode is not
    delete-before ends normally: the panic of [dstOnly] on an unexpected
    delete mode is not reached. *)
Theorem runDirAtATime_no_panic {World} ListDirSorted Config job (w : World)
    (s : syncCopyMove) :
  deleteMode s ≠ DeleteModeBefore →
  ∃ s' jobs, _runDirAtATime World ListDirSorted Config job w s =
               Some (Returns (s', jobs)).
Proof.
  intros Hmode.
  destruct (runDirAtATime_inv ListDirSorted Config job w s (λ _, True) Hmode)
    as (s' & jobs & Hrun & _); [done|done|].
  by exists s', jobs.
Qed.

Lemma runDirAtATime_no_panic_witness :
  let s :=
    mkSyncCopyMove (mkFs "dst" EmptyString 1%N true false)
      (mkFs "src" EmptyString 1%N false false)
      DeleteModeDuring false EmptyString false [] false ∅ ∅ make_signal [] []
      None None None 1%N [] [] None EmptyString in
  let Config :=
    mkConfig false false false false false 1 EmptyString EmptyString false in
  let listing : Fs → bool → string → unit → DirEntries * option error :=
    λ f _ _ _,
      if String.eqb (fsName f) "src" then ([], None)
      else ([EObject (mkObject "old" 2 0 true)], None) in
  ∃ s' jobs, _runDirAtATime unit listing Config (mkJob EmptyString 1 1 false false) tt s =
               Some (Returns (s', jobs)).
Proof.
  intros s Config listing.
  assert (H : deleteMode s ≠ DeleteModeBefore) by discriminate.
  exact (runDirAtATime_no_panic listing Config (mkJob EmptyString 1 1 false false) tt s H).
Defined.

(** X12.  When the source listing of a job fails the error is recorded and
    no entry is classified; when the destination listing fails with an
    error other than [ErrorDirNotFound] no entry is classified either, but
    nothing is recorded, since the error that is wrapped and passed to
    [processError] is that of the source listing, which is nil: the state
    is left as it was.  No job is returned in both cases. *)
Theorem runDirAtATime_listing_error {World} ListDirSorted Config job (w : World)
    (s : syncCopyMove) (srcList dstList : DirEntries) (srcErr dstErr : option error) :
  noSrc job = false →
  noDst job = false →
  ListDirSorted (fsrc s) false (remote job) w = (srcList, srcErr) →
  ListDirSorted (fdst s) (DeleteExcluded Config) (remote job) w = (dstList, dstErr) →
  (∀ e, srcErr = Some e →
     ∃ s', _runDirAtATime World ListDirSorted Config job w s = Some (Returns (s', [])) ∧
           currentError s' ≠ None ∧
           toBeChecked s' = toBeChecked s ∧ toBeUploaded s' = toBeUploaded s ∧
           trackRenamesCh s' = trackRenamesCh s ∧
           deleteFilesCh s' = deleteFilesCh s ∧ dstFiles s' = dstFiles s) ∧
  (∀ e, srcErr = None → dstErr = Some e → e ≠ ErrorDirNotFound →
     _runDirAtATime World ListDirSorted Config job w s = Some (Returns (s, []))).
Proof.
  intros Hns Hnd Hsrc Hdst. unfold _runDirAtATime. rewrite Hns, Hnd, Hsrc, Hdst.
  split.
  - intros e ->. eexists. split; [done|]. cbn [errors_Wrapf fmap option_fmap option_map].
    split; [apply processError_recorded|].
    destruct (processError_channels
      (Some (mkError ("error reading source directory" +:+ ": " +:+ errMsg e)
                     (errFatal e) (errNoRetry e))) s)
      as (Hu & Hc & Ht & Hd & Hf).
    done.
  - intros e -> -> Hne.
    rewrite bool_decide_false by congruence.
    rewrite bool_decide_true by done. done.
Qed.

Lemma runDirAtATime_listing_error_witness :
  let s :=
    mkSyncCopyMove (mkFs "dst" EmptyString 1%N true false)
      (mkFs "src" EmptyString 1%N false false)
      DeleteModeDuring false EmptyString false [] false ∅ ∅ make_signal [] []
      None None None 1%N [] [] None EmptyString in
  let Config :=
    mkConfig false false false false false 1 EmptyString EmptyString false in
  let listing : Fs → bool → string → unit → DirEntries * option error :=
    λ f _ _ _,
      if String.eqb (fsName f) "src" then ([EObject (mkObject "new" 2 0 true)], None)
      else ([], Some (errors_New "permission denied")) in
  _runDirAtATime unit listing Config (mkJob EmptyString 1 1 false false) tt s =
    Some (Returns (s, [])).
Proof.
  intros s Config listing.
  assert (Hne : errors_New "permission denied" ≠ ErrorDirNotFound) by discriminate.
  exact (proj2 (runDirAtATime_listing_error listing Config
                  (mkJob EmptyString 1 1 false false) tt s
                  [EObject (mkObject "new" 2 0 true)] [] None
                  (Some (errors_New "permission denied"))
                  eq_refl eq_refl eq_refl eq_refl)
           (errors_New "permission denied") eq_refl eq_refl Hne).
Defined.

Lemma specMerge_dst_nil (srcList : DirEntries) : specMerge srcList [] = SrcOnly <$> srcList.
Proof.
  induction srcList as [|a srcList IH]; [done|].
  by rewrite specMerge_nil_r, IH.
Qed.

Lemma processError_fields e s :
  deleteMode (processError e s) = deleteMode s ∧
  trackRenames (processError e s) = trackRenames s ∧
  toBeUploaded (processError e s) = toBeUploaded s ∧
  toBeChecked (processError e s) = toBeChecked s ∧
  trackRenamesCh (processError e s) = trackRenamesCh s ∧
  deleteFilesCh (processError e s) = deleteFilesCh s ∧
  dstFiles (processError e s) = dstFiles s.
Proof.
  destruct (processError_config e s) as [? ?].
  destruct (processError_channels e s) as (? & ? & ? & ? & ?). done.
Qed.

(** The handlers of a class of entries taken apart: one goal for each way a
    handler returns. *)
Ltac classify_cases Hc :=
  match type of Hc with
  | classify _ ?c (?s, ?jobs) = Returns _ =>
    destruct c as [[?|?] [?|?]|[?|?]|[?|?]]; cbn [classify] in Hc;
    unfold transfer, srcOnly, dstOnly in Hc;
    repeat case_match; try discriminate Hc;
    injection Hc as <-;
    repeat match goal with
    | H : bool_decide _ = false |- _ => apply bool_decide_eq_false in H
    | H : bool_decide _ = true |- _ => apply bool_decide_eq_true in H
    end;
    try congruence
  end.

(** X13.  In a state that deletes nothing (delete mode off) a directory
    job sends no file to the deleters and adds none to [dstFiles], and it
    returns no job for a directory that is in the destination only. *)
Theorem runDirAtATime_delete_off {World} ListDirSorted Config job (w : World)
    (s : syncCopyMove) :
  deleteMode s = DeleteModeOff →
  ∃ s' jobs,
    _runDirAtATime World ListDirSorted Config job w s = Some (Returns (s', jobs)) ∧
    deleteFilesCh s' = deleteFilesCh s ∧ dstFiles s' = dstFiles s ∧
    ∀ j, j ∈ jobs → noSrc j = false.
Proof.
  intros Hmode.
  destruct (runDirAtATime_inv ListDirSorted Config job w s
    (λ st, deleteMode st.1 = DeleteModeOff ∧
           deleteFilesCh st.1 = deleteFilesCh s ∧ dstFiles st.1 = dstFiles s ∧
           ∀ j, j ∈ st.2 → noSrc j = false))
    as (s' & jobs & Hrun & _ & H); [by rewrite Hmode| | |by exists s', jobs].
  - intros e _. cbn. destruct (processError_fields e s) as (-> & _ & _ & _ & _ & -> & ->).
    repeat split; try done. by intros j ?%elem_of_nil.
  - intros srcList dstList c [s1 jobs1] st' _ _ _ (Hm & Hd & Hf & Hj) Hc. cbn in *.
    classify_cases Hc; cbn;
      repeat match goal with
      | |- context [processError ?e s1] =>
        destruct (processError_fields e s1) as (-> & _ & _ & _ & _ & -> & ->)
      end;
      try (split; [done|split; [done|split; [done|]]]);
      try done; try congruence.
    all: intros j [Hin| ->%list_elem_of_singleton]%elem_of_app; [by apply Hj|done].
Qed.

Lemma runDirAtATime_delete_off_witness :
  let s :=
    mkSyncCopyMove (mkFs "dst" EmptyString 1%N true false)
      (mkFs "src" EmptyString 1%N false false)
      DeleteModeOff false EmptyString false [] false ∅ ∅ make_signal [] []
      None None None 1%N [] [] None EmptyString in
  let Config :=
    mkConfig false false false false false 1 EmptyString EmptyString false in
  let listing : Fs → bool → string → unit → DirEntries * option error :=
    λ f _ _ _,
      if String.eqb (fsName f) "src" then ([], None)
      else ([EObject (mkObject "old" 2 0 true); EDir (mkDir "sub")], None) in
  ∃ s' jobs,
    _runDirAtATime unit listing Config (mkJob EmptyString 1 1 false false) tt s =
      Some (Returns (s', jobs)) ∧
    deleteFilesCh s' = deleteFilesCh s ∧ dstFiles s' = dstFiles s ∧
    ∀ j, j ∈ jobs → noSrc j = false.
Proof.
  intros s Config listing.
  assert (H : deleteMode s = DeleteModeOff) by reflexivity.
  exact (runDirAtATime_delete_off listing Config (mkJob EmptyString 1 1 false false)
           tt s H).
Defined.

(** X14.  In the delete-only pass a directory job sends nothing to the
    checkers, to the uploads or to the rename candidates, and it returns no
    job for a directory that is in the source only. *)
Theorem runDirAtATime_delete_only {World} ListDirSorted Config job (w : World)
    (s : syncCopyMove) :
  deleteMode s = DeleteModeOnly →
  ∃ s' jobs,
    _runDirAtATime World ListDirSorted Config job w s = Some (Returns (s', jobs)) ∧
    toBeChecked s' = toBeChecked s ∧ toBeUploaded s' = toBeUploaded s ∧
    trackRenamesCh s' = trackRenamesCh s ∧
    ∀ j, j ∈ jobs → noDst j = false.
Proof.
  intros Hmode.
  destruct (runDirAtATime_inv ListDirSorted Config job w s
    (λ st, deleteMode st.1 = DeleteModeOnly ∧
           toBeChecked st.1 = toBeChecked s ∧ toBeUploaded st.1 = toBeUploaded s ∧
           trackRenamesCh st.1 = trackRenamesCh s ∧
           ∀ j, j ∈ st.2 → noDst j = false))
    as (s' & jobs & Hrun & _ & H); [by rewrite Hmode| | |by exists s', jobs].
  - intros e _. cbn.
    destruct (processError_fields e s) as (-> & _ & -> & -> & -> & _ & _).
    repeat split; try done. by intros j ?%elem_of_nil.
  - intros srcList dstList c [s1 jobs1] st' _ _ _ (Hm & Hc1 & Hu & Ht & Hj) Hc.
    cbn in *.
    classify_cases Hc; cbn;
      repeat match goal with
      | |- context [processError ?e s1] =>
        destruct (processError_fields e s1) as (-> & _ & -> & -> & -> & _ & _)
      end;
      try (split; [done|split; [done|split; [done|split; [done|]]]]);
      try done; try congruence.
    all: intros j [Hin| ->%list_elem_of_singleton]%elem_of_app; [by apply Hj|done].
Qed.

Lemma runDirAtATime_delete_only_witness :
  let s :=
    mkSyncCopyMove (mkFs "dst" EmptyString 1%N true false)
      (mkFs "src" EmptyString 1%N false false)
      DeleteModeOnly false EmptyString false [] false ∅ ∅ make_signal [] []
      None None None 1%N [] [] None EmptyString in
  let Config :=
    mkConfig false false false false false 1 EmptyString EmptyString false in
  let listing : Fs → bool → string → unit → DirEntries * option error :=
    λ f _ _ _,
      if String.eqb (fsName f) "src"
      then ([EObject (mkObject "new" 2 0 true); EDir (mkDir "sub")], None)
      else ([EObject (mkObject "old" 2 0 true)], None) in
  ∃ s' jobs,
    _runDirAtATime unit listing Config (mkJob EmptyString 1 1 false false) tt s =
      Some (Returns (s', jobs)) ∧
    toBeChecked s' = toBeChecked s ∧ toBeUploaded s' = toBeUploaded s ∧
    trackRenamesCh s' = trackRenamesCh s ∧
    ∀ j, j ∈ jobs → noDst j = false.
Proof.
  intros s Config listing.
  assert (H : deleteMode s = DeleteModeOnly) by reflexivity.
  exact (runDirAtATime_delete_only listing Config (mkJob EmptyString 1 1 false false)
           tt s H).
Defined.

(** X15.  Every job a directory job returns has depths that are not
    negative and whose sum is smaller than that of the depths left to the
    job (a depth below zero counting as zero), so that a job with no depth
    left returns no job; and a returned job has at most one side
    suppressed, with depth [0] on that side. *)
Theorem runDirAtATime_depths {World} ListDirSorted Config job (w : World)
    (s : syncCopyMove) :
  deleteMode s ≠ DeleteModeBefore →
  ∃ s' jobs,
    _runDirAtATime World ListDirSorted Config job w s = Some (Returns (s', jobs)) ∧
    ∀ j, j ∈ jobs →
      0 <= srcDepth j ∧ 0 <= dstDepth j ∧
      srcDepth j + dstDepth j < Z.max 0 (srcDepth job) + Z.max 0 (dstDepth job) ∧
      (noSrc j = true → srcDepth j = 0 ∧ noDst j = false) ∧
      (noDst j = true → dstDepth j = 0 ∧ noSrc j = false).
Proof.
  intros Hmode.
  destruct (runDirAtATime_inv ListDirSorted Config job w s
    (λ st, ∀ j, j ∈ st.2 →
      0 <= srcDepth j ∧ 0 <= dstDepth j ∧
      srcDepth j + dstDepth j < Z.max 0 (srcDepth job) + Z.max 0 (dstDepth job) ∧
      (noSrc j = true → srcDepth j = 0 ∧ noDst j = false) ∧
      (noDst j = true → dstDepth j = 0 ∧ noSrc j = false)) Hmode)
    as (s' & jobs & Hrun & H); [| |by exists s', jobs].
  - intros e _ j ?%elem_of_nil. done.
  - intros srcList dstList c [s1 jobs1] st' _ _ _ Hj Hc. cbn in *.
    classify_cases Hc; cbn; try done.
    all: intros j [Hin| ->%list_elem_of_singleton]%elem_of_app; [by apply Hj|cbn].
    all: repeat match goal with
         | H : (_ && _) = true |- _ => apply andb_true_iff in H as [? ?]
         end.
    all: repeat split; try done; try lia.
Qed.

Lemma runDirAtATime_depths_witness :
  let s :=
    mkSyncCopyMove (mkFs "dst" EmptyString 1%N true false)
      (mkFs "src" EmptyString 1%N false false)
      DeleteModeDuring false EmptyString false [] false ∅ ∅ make_signal [] []
      None None None 1%N [] [] None EmptyString in
  let Config :=
    mkConfig false false false false false 1 EmptyString EmptyString false in
  let listing : Fs → bool → string → unit → DirEntries * option error :=
    λ f _ _ _,
      if String.eqb (fsName f) "src" then ([EDir (mkDir "sub")], None)
      else ([EDir (mkDir "sub")], None) in
  let job := mkJob EmptyString 2 1 false false in
  ∃ s' jobs,
    _runDirAtATime unit listing Config job tt s = Some (Returns (s', jobs)) ∧
    ∀ j, j ∈ jobs →
      0 <= srcDepth j ∧ 0 <= dstDepth j ∧
      srcDepth j + dstDepth j < Z.max 0 (srcDepth job) + Z.max 0 (dstDepth job) ∧
      (noSrc j = true → srcDepth j = 0 ∧ noDst j = false) ∧
      (noDst j = true → dstDepth j = 0 ∧ noSrc j = false).
Proof.
  intros s Config listing job.
  assert (H : deleteMode s ≠ DeleteModeBefore) by discriminate.
  exact (runDirAtATime_depths listing Config job tt s H).
Defined.

(** X16.  A job with the source side suppressed lists only the destination:
    it sends nothing to the checkers, the uploads or the rename candidates,
    records no error, and every job it returns has the source side
    suppressed too. *)
Theorem runDirAtATime_noSrc {World} ListDirSorted Config job (w : World)
    (s : syncCopyMove) :
  noSrc job = true →
  deleteMode s ≠ DeleteModeBefore →
  ∃ s' jobs,
    _runDirAtATime World ListDirSorted Config job w s = Some (Returns (s', jobs)) ∧
    toBeChecked s' = toBeChecked s ∧ toBeUploaded s' = toBeUploaded s ∧
    trackRenamesCh s' = trackRenamesCh s ∧ currentError s' = currentError s ∧
    ∀ j, j ∈ jobs → noSrc j = true.
Proof.
  intros Hns Hmode.
  destruct (runDirAtATime_inv ListDirSorted Config job w s
    (λ st, toBeChecked st.1 = toBeChecked s ∧ toBeUploaded st.1 = toBeUploaded s ∧
           trackRenamesCh st.1 = trackRenamesCh s ∧
           currentError st.1 = currentError s ∧
           ∀ j, j ∈ st.2 → noSrc j = true) Hmode)
    as (s' & jobs & Hrun & H); [| |by exists s', jobs].
  - intros e He. rewrite (He Hns). cbn. repeat split; try done.
    by intros j ?%elem_of_nil.
  - intros srcList dstList c [s1 jobs1] st' Hs _ Hin (Hc1 & Hu & Ht & He & Hj) Hc.
    rewrite (Hs Hns), specMerge_nil_l in Hin.
    apply list_elem_of_fmap in Hin as (b & -> & _). cbn in *.
    unfold dstOnly in Hc. destruct b; repeat case_match; try discriminate Hc;
      injection Hc as <-; cbn; repeat split; try done.
    all: intros j [Hin| ->%list_elem_of_singleton]%elem_of_app; [by apply Hj|done].
Qed.

Lemma runDirAtATime_noSrc_witness :
  let s :=
    mkSyncCopyMove (mkFs "dst" EmptyString 1%N true false)
      (mkFs "src" EmptyString 1%N false false)
      DeleteModeDuring false EmptyString false [] false ∅ ∅ make_signal [] []
      None None None 1%N [] [] None EmptyString in
  let Config :=
    mkConfig false false false false false 1 EmptyString EmptyString false in
  let listing : Fs → bool → string → unit → DirEntries * option error :=
    λ f _ _ _, ([EObject (mkObject "old" 2 0 true); EDir (mkDir "sub")], None) in
  let job := mkJob "gone" 0 3 true false in
  ∃ s' jobs,
    _runDirAtATime unit listing Config job tt s = Some (Returns (s', jobs)) ∧
    toBeChecked s' = toBeChecked s ∧ toBeUploaded s' = toBeUploaded s ∧
    trackRenamesCh s' = trackRenamesCh s ∧ currentError s' = currentError s ∧
    ∀ j, j ∈ jobs → noSrc j = true.
Proof.
  intros s Config listing job.
  assert (H : deleteMode s ≠ DeleteModeBefore) by discriminate.
  exact (runDirAtATime_noSrc listing Config job tt s eq_refl H).
Defined.

(** X17.  A job with the destination side suppressed lists only the
    source: it sends nothing to the deleters, adds nothing to [dstFiles],
    and every job it returns has the destination side suppressed too. *)
Theorem runDirAtATime_noDst {World} ListDirSorted Config job (w : World)
    (s : syncCopyMove) :
  noDst job = true →
  deleteMode s ≠ DeleteModeBefore →
  ∃ s' jobs,
    _runDirAtATime World ListDirSorted Config job w s = Some (Returns (s', jobs)) ∧
    deleteFilesCh s' = deleteFilesCh s ∧ dstFiles s' = dstFiles s ∧
    toBeChecked s' = toBeChecked s ∧
    ∀ j, j ∈ jobs → noDst j = true.
Proof.
  intros Hnd Hmode.
  destruct (runDirAtATime_inv ListDirSorted Config job w s
    (λ st, deleteFilesCh st.1 = deleteFilesCh s ∧ dstFiles st.1 = dstFiles s ∧
           toBeChecked st.1 = toBeChecked s ∧
           ∀ j, j ∈ st.2 → noDst j = true) Hmode)
    as (s' & jobs & Hrun & H); [| |by exists s', jobs].
  - intros e _. cbn.
    destruct (processError_fields e s) as (_ & _ & _ & -> & _ & -> & ->).
    repeat split; try done. by intros j ?%elem_of_nil.
  - intros srcList dstList c [s1 jobs1] st' _ Hd Hin (Hf & Hm & Hc1 & Hj) Hc.
    rewrite (Hd Hnd), specMerge_dst_nil in Hin.
    apply list_elem_of_fmap in Hin as (a & -> & _). cbn in *.
    unfold srcOnly in Hc. destruct a; repeat case_match; try discriminate Hc;
      injection Hc as <-; cbn; repeat split; try done.
    all: intros j [Hin| ->%list_elem_of_singleton]%elem_of_app; [by apply Hj|done].
Qed.

Lemma runDirAtATime_noDst_witness :
  let s :=
    mkSyncCopyMove (mkFs "dst" EmptyString 1%N true false)
      (mkFs "src" EmptyString 1%N false false)
      DeleteModeDuring false EmptyString false [] false ∅ ∅ make_signal [] []
      None None None 1%N [] [] None EmptyString in
  let Config :=
    mkConfig false false false false false 1 EmptyString EmptyString false in
  let listing : Fs → bool → string → unit → DirEntries * option error :=
    λ f _ _ _, ([EObject (mkObject "new" 2 0 true); EDir (mkDir "sub")], None) in
  let job := mkJob "fresh" 3 0 false true in
  ∃ s' jobs,
    _runDirAtATime unit listing Config job tt s = Some (Returns (s', jobs)) ∧
    deleteFilesCh s' = deleteFilesCh s ∧ dstFiles s' = dstFiles s ∧
    toBeChecked s' = toBeChecked s ∧
    ∀ j, j ∈ jobs → noDst j = true.
Proof.
  intros s Config listing job.
  assert (H : deleteMode s ≠ DeleteModeBefore) by discriminate.
  exact (runDirAtATime_noDst listing Config job tt s eq_refl H).
Defined.

(** *** The passes *)

Lemma runSyncCopyMove_agree {World} NewFs SameConfig Overlapping Config
    ConfigDeleteMode (run run' runRecursive : syncCopyMove → World → World * option error)
    fdst fsrc mode DoMove (w : World) :
  (∀ s w, deleteMode s ≠ DeleteModeBefore → run s w = run' s w) →
  (mode = DeleteModeBefore → ConfigDeleteMode = DeleteModeBefore) →
  runSyncCopyMove World NewFs SameConfig Overlapping Config false ConfigDeleteMode
    run runRecursive fdst fsrc mode DoMove w =
  runSyncCopyMove World NewFs SameConfig Overlapping Config false ConfigDeleteMode
    run' runRecursive fdst fsrc mode DoMove w.
Proof.
  intros Hagree Hmode. unfold runSyncCopyMove.
  destruct (bool_decide (mode ≠ DeleteModeOff) && DoMove); [done|].
  assert (Hnew : ∀ m s w,
    m ≠ DeleteModeBefore →
    newSyncCopyMove NewFs SameConfig Overlapping Config fdst fsrc m DoMove = inl s →
    run s w = run' s w).
  { intros m s w0 Hm Hs. apply Hagree.
    destruct (newSyncCopyMove_fields _ _ _ _ _ _ _ _ _ Hs) as [_ ->].
    repeat case_match; done. }
  cbn [negb andb]. case_bool_decide as Hcfg.
  - destruct (TrackRenames Config) eqn:Htr; [done|].
    destruct (newSyncCopyMove NewFs SameConfig Overlapping Config fdst fsrc
                DeleteModeOnly false) as [do|e] eqn:Hdo; [|done].
    assert (Hfirst : run do w = run' do w).
    { apply Hagree. destruct (newSyncCopyMove_fields _ _ _ _ _ _ _ _ _ Hdo) as [_ ->].
      repeat case_match; done. }
    rewrite Hfirst. destruct (run' do w) as [w1 [e|]]; [done|].
    destruct (newSyncCopyMove NewFs SameConfig Overlapping Config fdst fsrc
                DeleteModeOff DoMove) as [do2|e] eqn:Hdo2; [|done].
    by apply (Hnew DeleteModeOff).
  - destruct (newSyncCopyMove NewFs SameConfig Overlapping Config fdst fsrc
                mode DoMove) as [do|e] eqn:Hdo; [|done].
    apply (Hnew mode); [|done]. intros Hm. by apply Hcfg, Hmode.
Qed.

(** X18.  With the new sync method, [Sync], [CopyDir] and [moveDir] never
    start [runDirAtATime] on a state whose delete mode is delete-before:
    their results do not depend on what it would do on such a state.
    Delete-before (without rename tracking) is done by [Sync] as a pass on
    a state whose delete mode is delete-only followed, when that pass
    returns no error, by a pass on a state whose delete mode is off. *)
Theorem Sync_no_delete_before_pass {World} NewFs SameConfig Overlapping Config
    ConfigDeleteMode (run run' runRecursive : syncCopyMove → World → World * option error)
    fdst fsrc (w : World) :
  (∀ s w, deleteMode s ≠ DeleteModeBefore → run s w = run' s w) →
  Sync World NewFs SameConfig Overlapping Config false ConfigDeleteMode
    run runRecursive fdst fsrc w =
  Sync World NewFs SameConfig Overlapping Config false ConfigDeleteMode
    run' runRecursive fdst fsrc w ∧
  CopyDir World NewFs SameConfig Overlapping Config false ConfigDeleteMode
    run runRecursive fdst fsrc w =
  CopyDir World NewFs SameConfig Overlapping Config false ConfigDeleteMode
    run' runRecursive fdst fsrc w ∧
  moveDir World NewFs SameConfig Overlapping Config false ConfigDeleteMode
    run runRecursive fdst fsrc w =
  moveDir World NewFs SameConfig Overlapping Config false ConfigDeleteMode
    run' runRecursive fdst fsrc w ∧
  (ConfigDeleteMode = DeleteModeBefore → TrackRenames Config = false →
   ∀ do1 do2,
     newSyncCopyMove NewFs SameConfig Overlapping Config fdst fsrc DeleteModeOnly false
       = inl do1 →
     newSyncCopyMove NewFs SameConfig Overlapping Config fdst fsrc DeleteModeOff false
       = inl do2 →
     deleteMode do1 = DeleteModeOnly ∧ deleteMode do2 = DeleteModeOff ∧
     Sync World NewFs SameConfig Overlapping Config false ConfigDeleteMode
       run runRecursive fdst fsrc w =
     (let '(w1, e) := run do1 w in
      match e with
      | Some e => (w1, Some e)
      | None => run do2 w1
      end)).
Proof.
  intros Hagree. unfold Sync, CopyDir, moveDir.
  split; [by apply runSyncCopyMove_agree|].
  split; [by apply runSyncCopyMove_agree|].
  split; [by apply runSyncCopyMove_agree|].
  intros -> Htr do1 do2 Hdo1 Hdo2.
  destruct (newSyncCopyMove_fields _ _ _ _ _ _ _ _ _ Hdo1) as [Ht1 Hm1].
  destruct (newSyncCopyMove_fields _ _ _ _ _ _ _ _ _ Hdo2) as [Ht2 Hm2].
  rewrite Htr in Ht1, Ht2. cbn [andb] in Ht1, Ht2.
  rewrite Ht1 in Hm1. rewrite Ht2 in Hm2.
  split; [done|]. split; [done|].
  unfold runSyncCopyMove. rewrite andb_false_r. cbn [andb negb].
  rewrite bool_decide_true by done. rewrite Htr, Hdo1.
  destruct (run do1 w) as [w1 [e|]]; [done|]. by rewrite Hdo2.
Qed.

Lemma Sync_no_delete_before_pass_witness :
  let Config :=
    mkConfig false false false false false 1 EmptyString EmptyString false in
  let NewFs : string → Fs + error := λ _, inr (errors_New "no such remote") in
  let run : syncCopyMove → list DeleteMode → list DeleteMode * option error :=
    λ s w, (w ++ [deleteMode s], None) in
  let run' : syncCopyMove → list DeleteMode → list DeleteMode * option error :=
    λ s w,
      if bool_decide (deleteMode s = DeleteModeBefore)
      then (w, Some (errors_New "unexpected delete mode"))
      else (w ++ [deleteMode s], None) in
  let fdst := mkFs "dst" EmptyString 1%N true false in
  let fsrc := mkFs "src" EmptyString 1%N false false in
  Sync (list DeleteMode) NewFs (λ _ _, true) (λ _ _, false) Config false
    DeleteModeBefore run run fdst fsrc [] =
  Sync (list DeleteMode) NewFs (λ _ _, true) (λ _ _, false) Config false
    DeleteModeBefore run' run fdst fsrc [].
Proof.
  intros Config NewFs run run' fdst fsrc.
  assert (H : ∀ s w, deleteMode s ≠ DeleteModeBefore → run s w = run' s w).
  { intros s w Hs. unfold run'. by rewrite bool_decide_false. }
  exact (proj1 (Sync_no_delete_before_pass NewFs (λ _ _, true) (λ _ _, false) Config
                  DeleteModeBefore run run' run fdst fsrc [] H)).
Defined.

End SyncFlow.

(** ** More of the repeatable reader *)

Module ReaderReplay.

Import RepeatableReader.

Lemma wrap_sum (x : Z) :
  Int64.min_int <= x <= 2 * Int64.max_int + 1 →
  (x <= Int64.max_int ∧ Int64.wrap x = x) ∨
  (Int64.max_int < x ∧ Int64.wrap x = x - 2 ^ 64 ∧ Int64.wrap x < 0).
Proof.
  unfold Int64.wrap, Int64.min_int, Int64.max_int. intros Hx.
  destruct (decide (x <= 2 ^ 63 - 1)) as [Hle|Hgt].
  - left. split; [done|]. rewrite Z.mod_small; lia.
  - right. split; [lia|].
    replace (x + 2 ^ 63) with (x - 2 ^ 63 + 1 * 2 ^ 64) by lia.
    rewrite Z.mod_add by lia. rewrite Z.mod_small; lia.
Qed.

Lemma Seek_from_base {R} (base offset : Z) (r : RepeatableReader R) :
  let L := Z.of_nat (length (b R r)) in
  0 <= base <= L → L <= Int64.max_int → Int64.in_range offset →
  let abs := Int64.wrap (base + offset) in
  ((abs < 0 ∨ L < abs) ∨ (0 <= abs <= L ∧ abs = base + offset)) ∧
  (L < abs → abs = base + offset ∧
     Int64.sub offset (Int64.sub abs L) = L - base) ∧
  (L - base < offset → abs < 0 ∨ L < abs).
Proof.
  intros L Hbase HL Hoff abs. subst abs.
  unfold Int64.in_range, Int64.sub in *.
  destruct (wrap_sum (base + offset)) as [[Hle Hw]|(Hgt & Hw & Hneg)];
    [unfold Int64.min_int, Int64.max_int in *; lia| |].
  - rewrite Hw. split; [lia|]. split; [|lia].
    intros Habs. split; [done|].
    rewrite (Int64.wrap_small (base + offset - L))
      by (unfold Int64.in_range, Int64.min_int, Int64.max_int in *; lia).
    rewrite Int64.wrap_small
      by (unfold Int64.in_range, Int64.min_int, Int64.max_int in *; lia).
    lia.
  - split; [lia|]. split; [|lia]. unfold Int64.min_int, Int64.max_int in *. lia.
Qed.

(** X19.  On a reader whose index lies within its cache, the value [Seek]
    returns together with the error [offset is unavailable] is, as its
    comment says, the maximum offset that can be used: a [Seek] with that
    value and the same [whence] succeeds and moves the index to the end of
    the cache, and a [Seek] with any larger offset fails and leaves the
    reader as it is. *)
Theorem Seek_unavailable_max {R} (offset whence : Z) (r r' : RepeatableReader R)
    (v : Z) (e : error) :
  0 <= i R r <= Z.of_nat (length (b R r)) →
  Z.of_nat (length (b R r)) <= Int64.max_int →
  Int64.in_range offset →
  Seek R offset whence r = ((v, Some e), r') →
  errMsg e = "fs.RepeatableReader.Seek: offset is unavailable" →
  let L := Z.of_nat (length (b R r)) in
  Seek R v whence r = ((L, None), mkReader R (rin R r) L (b R r)) ∧
  ∀ offset', Int64.in_range offset' → v < offset' →
             ∃ v' e', Seek R offset' whence r = ((v', Some e'), r).
Proof.
  intros Hi HL Hoff Hseek Hmsg L.
  assert (Hgen : ∀ base,
    0 <= base <= L →
    (∀ o, Int64.in_range o →
          seekAbs R o whence r = Some (Int64.wrap (base + o))) →
    Seek R v whence r = ((L, None), mkReader R (rin R r) L (b R r)) ∧
    ∀ offset', Int64.in_range offset' → v < offset' →
               ∃ v' e', Seek R offset' whence r = ((v', Some e'), r)).
  { intros base Hbase Habs.
    unfold Seek in Hseek. rewrite (Habs offset Hoff) in Hseek.
    destruct (Seek_from_base base offset r Hbase HL Hoff) as (_ & Hun & _).
    fold L in Hseek, Hun. cbn zeta in Hun.
    destruct (Z.ltb_spec (Int64.wrap (base + offset)) 0).
    { injection Hseek as <- <- <-. discriminate Hmsg. }
    rewrite Z.gtb_ltb in Hseek.
    destruct (Z.ltb_spec L (Int64.wrap (base + offset))) as [Hlt|Hge];
      [|discriminate Hseek].
    destruct (Hun Hlt) as [Heq Hv]. injection Hseek as <- _ _.
    rewrite Hv.
    assert (Hvr : Int64.in_range (L - base)).
    { unfold Int64.in_range, Int64.min_int, Int64.max_int in *. lia. }
    split.
    - unfold Seek. rewrite (Habs _ Hvr). fold L.
      replace (base + (L - base)) with L by lia.
      rewrite Int64.wrap_small
        by (unfold Int64.in_range, Int64.min_int, Int64.max_int in *; lia).
      destruct (Z.ltb_spec L 0); [lia|].
      rewrite Z.gtb_ltb, Z.ltb_irrefl. done.
    - intros offset' Hoff' Hgt. unfold Seek. rewrite (Habs _ Hoff'). fold L.
      destruct (Seek_from_base base offset' r Hbase HL Hoff') as (_ & _ & Hfail).
      fold L in Hfail. cbn zeta in Hfail.
      destruct (Z.ltb_spec (Int64.wrap (base + offset')) 0); [by eauto|].
      rewrite Z.gtb_ltb.
      destruct (Z.ltb_spec L (Int64.wrap (base + offset'))); [by eauto|].
      lia. }
  destruct (decide (whence = 0)) as [->|H0].
  { apply (Hgen 0); [lia|]. intros o Ho. unfold seekAbs. cbn.
    by rewrite Int64.wrap_small. }
  destruct (decide (whence = 1)) as [->|H1].
  { apply (Hgen (i R r)); [done|]. intros o Ho. done. }
  destruct (decide (whence = 2)) as [->|H2].
  { apply (Hgen L); [lia|]. intros o Ho. done. }
  exfalso. unfold Seek, seekAbs in Hseek.
  destruct (Z.eqb_spec whence 0); [done|].
  destruct (Z.eqb_spec whence 1); [done|].
  destruct (Z.eqb_spec whence 2); [done|].
  injection Hseek as <- <- <-. discriminate Hmsg.
Qed.

Lemma Seek_unavailable_max_witness :
  let r := mkReader nat 3%nat 1 [Byte.x61; Byte.x62; Byte.x63] in
  Seek nat 2 1 r = ((3, None), mkReader nat 3%nat 3 [Byte.x61; Byte.x62; Byte.x63]) ∧
  ∀ offset', Int64.in_range offset' → 2 < offset' →
             ∃ v' e', Seek nat offset' 1 r = ((v', Some e'), r).
Proof.
  intros r.
  assert (Hi : 0 <= i nat r <= Z.of_nat (length (b nat r))) by (cbn; lia).
  assert (HL : Z.of_nat (length (b nat r)) <= Int64.max_int)
    by (cbn; unfold Int64.max_int; lia).
  assert (Hoff : Int64.in_range 7)
    by (unfold Int64.in_range, Int64.min_int, Int64.max_int; lia).
  exact (Seek_unavailable_max 7 1 r r 2
           (errors_New "fs.RepeatableReader.Seek: offset is unavailable")
           Hi HL Hoff eq_refl eq_refl).
Defined.

(** X20.  What a [Read] returned can be read again: when the input reader
    returns at most as many bytes as the buffer holds, after a [Read] that
    returned some bytes a [Seek] back to the index at which it started
    succeeds, and the same [Read] then returns the same bytes with no
    error, from the cache: the input reader and the cache are left as they
    were. *)
Theorem Read_replay {R} (in_Read : R → nat → (list Byte.byte * option error) * R)
    (n : nat) (r r1 : RepeatableReader R) (data : list Byte.byte) (e : option error) :
  (∀ rin n, (length (in_Read rin n).1.1 ≤ n)%nat) →
  0 <= i R r <= Z.of_nat (length (b R r)) →
  Read R in_Read n r = Returns ((data, e), r1) →
  data ≠ [] →
  Seek R (i R r) 0 r1 = ((i R r, None), mkReader R (rin R r1) (i R r) (b R r1)) ∧
  ∃ r3, Read R in_Read n (Seek R (i R r) 0 r1).2 = Returns ((data, None), r3) ∧
        rin R r3 = rin R r1 ∧ b R r3 = b R r1.
Proof.
  intros Hlen Hi Hread Hdata.
  assert (Hr1 : b R r1 = (if bool_decide (i R r = Z.of_nat (length (b R r)))
                          then b R r ++ data else b R r) ∧
                data = take n (drop (Z.to_nat (i R r)) (b R r1))).
  { unfold Read in Hread.
    destruct (Z.eqb_spec (i R r) (Z.of_nat (length (b R r)))) as [Heq|Hne].
    - pose proof (Hlen (rin R r) n) as Hn.
      destruct (in_Read (rin R r) n) as [[data' e'] rin']. cbn in Hn.
      injection Hread as -> -> <-. cbn [b].
      rewrite bool_decide_true by done.
      destruct data as [|x data]; [done|]. cbn [length Nat.ltb Nat.leb].
      split; [done|]. rewrite Heq, Nat2Z.id, drop_app_length.
      by rewrite take_ge.
    - rewrite bool_decide_false by done.
      destruct ((0 <=? i R r) && (i R r <=? Z.of_nat (length (b R r))));
        [|discriminate Hread].
      by injection Hread as <- <- <-. }
  destruct Hr1 as [Hb1 Hd].
  assert (Hlt : i R r < Z.of_nat (length (b R r1))).
  { rewrite Hb1. case_bool_decide as Hc.
    - rewrite length_app. destruct data; [done|]. cbn [length]. lia.
    - destruct (decide (i R r < Z.of_nat (length (b R r)))) as [?|Hge]; [done|].
      lia. }
  assert (Hseek : Seek R (i R r) 0 r1 =
                    ((i R r, None), mkReader R (rin R r1) (i R r) (b R r1))).
  { apply Seek_within; [done|lia]. }
  split; [done|]. rewrite Hseek. cbn [snd]. unfold Read. cbn [i b rin].
  destruct (Z.eqb_spec (i R r) (Z.of_nat (length (b R r1)))) as [Heq|_]; [lia|].
  assert ((0 <=? i R r) && (i R r <=? Z.of_nat (length (b R r1))) = true) as ->.
  { apply andb_true_iff. split; apply Z.leb_le; lia. }
  rewrite <- Hd. eexists. split; [done|]. done.
Qed.

Lemma Read_replay_witness :
  let stream := [Byte.x61; Byte.x62; Byte.x63] in
  let r := mkReader nat 0%nat 0 [] in
  let r1 := mkReader nat 2%nat 2 [Byte.x61; Byte.x62] in
  ∃ r3, Read nat (streamRead stream) 2 (Seek nat 0 0 r1).2 =
          Returns (([Byte.x61; Byte.x62], None), r3) ∧
        rin nat r3 = rin nat r1 ∧ b nat r3 = b nat r1.
Proof.
  intros stream r r1.
  assert (Hlen : ∀ rin n, (length (streamRead stream rin n).1.1 ≤ n)%nat).
  { intros rin n. unfold streamRead. cbn [fst]. rewrite length_take. lia. }
  assert (Hi : 0 <= i nat r <= Z.of_nat (length (b nat r))) by (cbn; lia).
  assert (Hd : [Byte.x61; Byte.x62] ≠ []) by discriminate.
  exact (proj2 (Read_replay (streamRead stream) 2 r r1 [Byte.x61; Byte.x62] None
                  Hlen Hi eq_refl Hd)).
Defined.

End ReaderReplay.

(** ** More of the B2 backend ([b2/b2.go]) *)

Module B2More.

Import B2.

(** *** Modification times *)

(** [t.UnixNano()]: the nanoseconds since January 1, 1970 UTC as an
    [int64]; the origin of [Time] is that instant here. *)
Definition UnixNano (t : Time) : Z := Int64.wrap t.

(** [time.Unix(sec, nsec)]: [nsec] may be outside the range [0, 999999999]. *)
Definition time_Unix (sec nsec : Z) : Time := sec * 1000000000 + nsec.

(** [strconv.ParseInt(s, 10, 64)]: as [Bisync.ParseInt], with the plus sign
    that may stand before the digits. *)
Definition strconv_ParseInt (s : string) : option Z :=
  match s with
  | String "+" (String "-" _) => None
  | String "+" r => Bisync.ParseInt r
  | _ => Bisync.ParseInt s
  end.

(** timeString returns modTime as the number of milliseconds elapsed since
    January 1, 1970 UTC as a decimal string.  The division of [int64] of
    Go truncates toward zero. *)
Definition timeString (modTime : Time) : string :=
  Bisync.formatInt (Z.quot (UnixNano modTime) 1000000).

(** parseTimeString converts a decimal string number of milliseconds
    elapsed since January 1, 1970 UTC into a time.Time and stores it in the
    modTime variable: the result is the [modTime] of the object afterwards
    and the error.  One error stands for the errors of [strconv.ParseInt]. *)
Definition parseTimeString (timeString : string) (modTime : Time)
    : Time * option error :=
  if bool_decide (timeString = EmptyString) then (modTime, None)
  else
    match strconv_ParseInt timeString with
    | None => (modTime, Some (errors_New "strconv.ParseInt: parsing failed"))
    | Some unixMilliseconds =>
      (time_Unix (Z.quot unixMilliseconds 1000)
                 (Z.rem unixMilliseconds 1000 * 1000000), None)
    end.

(** *** Percent-encoding *)

(** dontEncode is the characters that do not need percent-encoding *)
Definition dontEncode : string :=
  "abcdefghijklmnopqrstuvwxyz" +:+
  "ABCDEFGHIJKLMNOPQRSTUVWXYZ" +:+
  "0123456789" +:+
  "._-/~!$'()*;=:@".

Fixpoint inString (c : ascii) (s : string) : bool :=
  match s with
  | EmptyString => false
  | String d s => Ascii.eqb c d || inString c s
  end.

(** noNeedToEncode is a bitmap of characters which don't need % encoding *)
Definition noNeedToEncode (c : ascii) : bool := inString c dontEncode.

Definition hexDigit (d : nat) : ascii :=
  match d with
  | 0%nat => "0" | 1%nat => "1" | 2%nat => "2" | 3%nat => "3" | 4%nat => "4"
  | 5%nat => "5" | 6%nat => "6" | 7%nat => "7" | 8%nat => "8" | 9%nat => "9"
  | 10%nat => "A" | 11%nat => "B" | 12%nat => "C" | 13%nat => "D" | 14%nat => "E"
  | _ => "F"
  end%char.

(** The verb [%X] on a byte: its value in base 16 with upper-case letters,
    in one digit when it is below 16. *)
Definition formatHex (c : ascii) : string :=
  let n := nat_of_ascii c in
  if (n <? 16)%nat then String (hexDigit n) EmptyString
  else String (hexDigit (n / 16)) (String (hexDigit (n mod 16)) EmptyString).

(** [fmt.Sprintf("%%%2X", c)]: a percent sign and the value in base 16
    padded with spaces on the left to a width of 2. *)
Definition escape (c : ascii) : string :=
  String "%" (Bisync.padLeft 2 (formatHex c)).

(** urlEncode encodes in with % encoding *)
Fixpoint urlEncode (inp : string) : string :=
  match inp with
  | EmptyString => EmptyString
  | String c inp =>
    (if noNeedToEncode c then String c EmptyString else escape c) +:+ urlEncode inp
  end.

(** The byte an escape stands for: the inverse of [escape]. *)
Definition hexValue (c : ascii) : nat :=
  let n := nat_of_ascii c in
  if (48 <=? n)%nat && (n <=? 57)%nat then n - 48
  else if (65 <=? n)%nat && (n <=? 70)%nat then n - 55
  else 0.

Definition unescape (x1 x2 : ascii) : ascii :=
  ascii_of_nat (16 * hexValue x1 + hexValue x2).

(** *** Uploads answered with 401 *)

(** X21.  When the upload is answered with the status 401, [shouldRetry]
    empties the pool of upload URLs, and the return of the URL that
    [Update] deferred then puts the URL the upload has just used back: the
    pool holds that URL alone when [Update] returns, and [Update] returns
    an error. *)
Theorem Update_unauthorized ShouldRetry lookupBucket requestUploadURL authorizeAccount
    (resp : reply) (f f1 : Fs) (upload : GetUploadURLResponse) :
  getUploadURL lookupBucket requestUploadURL f = (inl upload, f1) →
  StatusCode resp = Some 401 →
  uploads (Update ShouldRetry lookupBucket requestUploadURL authorizeAccount resp f).2
    = [upload] ∧
  ∃ e, (Update ShouldRetry lookupBucket requestUploadURL authorizeAccount resp f).1
       = Some e.
Proof.
  intros Hget Hresp. unfold Update, shouldRetry. rewrite Hget.
  rewrite bool_decide_true by done. cbn. split; [done|]. by eexists.
Qed.

Lemma Update_unauthorized_witness :
  let upload := mkUpload "bucket" "https://pod/upload" "token" in
  let other := mkUpload "bucket" "https://pod/other" "token2" in
  let f := mkFs "bucket" [upload; other] in
  let resp := mkReply (Some 401) (Some (errors_New "expired")) in
  uploads (Update (λ _, false) ("bucket", None) (λ _, inr (errors_New "unused"))
             None resp f).2 = [upload].
Proof.
  intros upload other f resp.
  exact (proj1 (Update_unauthorized (λ _, false)
                  ("bucket", None) (λ _, inr (errors_New "unused")) None
                  resp f (mkFs "bucket" [other]) upload eq_refl eq_refl)).
Defined.

(** *** The bucket ID *)

(** X22.  Once [getBucketID] has returned an ID with no error the ID is
    kept: every later call returns it with no error and without asking the
    server, whatever the server would answer; a lookup that does not find
    the bucket returns [ErrorDirNotFound] and keeps nothing, so that the
    next call asks the server again. *)
Theorem getBucketID_cached (lookupBucket lookupBucket' : string * option error)
    (f : Fs) :
  (∀ bucketID f1,
     getBucketID lookupBucket f = ((bucketID, None), f1) →
     getBucketID lookupBucket' f1 = ((bucketID, None), f1)) ∧
  (_bucketID f = EmptyString → lookupBucket.1 = EmptyString →
   let '((bucketID, e), f1) := getBucketID lookupBucket f in
   e = Some Sync.ErrorDirNotFound ∧
   getBucketID lookupBucket' f1 = getBucketID lookupBucket' f).
Proof.
  split.
  - intros bucketID f1. unfold getBucketID. case_bool_decide as Hid.
    + intros [= <- <-]. by rewrite bool_decide_true.
    + destruct lookupBucket as [found e]. case_bool_decide as Hfound; [done|].
      intros [= <- -> <-]. cbn. by rewrite bool_decide_true.
  - intros Hid Hfound. unfold getBucketID at 1. rewrite bool_decide_false by by rewrite Hid; intros [].
    destruct lookupBucket as [found e]. cbn in Hfound. subst found.
    rewrite bool_decide_true by done. split; [done|].
    unfold getBucketID. cbn. rewrite Hid. done.
Qed.

(** *** The modification time in the headers *)

Lemma formatInt_no_plus z :
  match Bisync.formatInt z with
  | String "+" _ => False
  | _ => True
  end.
Proof.
  destruct (Bisync.formatInt_shape z) as (sign & digits & -> & [->| ->] & Hd & Hne).
  - destruct digits as [|c digits]; [done|]. cbn in Hd.
    apply andb_true_iff in Hd as [Hc _].
    cbn. destruct c as [[] [] [] [] [] [] [] []]; try done.
  - done.
Qed.

(** X23.  For a time whose nanoseconds fit in an [int64], [timeString]
    followed by [parseTimeString] gives the time back truncated toward the
    epoch to the millisecond, with no error: less than a millisecond is
    lost, and the string of the result is the string it came from.  The
    empty string leaves the time of the object as it was, with no error. *)
Theorem timeString_round_trip (t old : Time) :
  Int64.in_range t →
  let t' := Z.quot t 1000000 * 1000000 in
  parseTimeString (timeString t) old = (t', None) ∧
  Z.abs (t - t') < 1000000 ∧ Z.abs t' <= Z.abs t ∧
  timeString t' = timeString t ∧
  parseTimeString EmptyString old = (old, None).
Proof.
  intros Ht t'. unfold timeString, UnixNano. rewrite (Int64.wrap_small t Ht).
  assert (Hms : Int64.in_range (Z.quot t 1000000)).
  { unfold Int64.in_range, Int64.min_int, Int64.max_int in *.
    pose proof (Z.quot_rem' t 1000000). pose proof (Z.rem_bound_abs t 1000000).
    destruct (decide (0 <= t)).
    - pose proof (Z.quot_pos t 1000000). pose proof (Z.rem_nonneg t 1000000). lia.
    - pose proof (Z.quot_opp_l t 1000000). pose proof (Z.rem_nonpos t 1000000).
      pose proof (Z.quot_pos (- t) 1000000). lia. }
  assert (Ht' : Int64.in_range t' ∧ Z.abs (t - t') < 1000000 ∧ Z.abs t' <= Z.abs t ∧
                Z.quot t' 1000000 = Z.quot t 1000000).
  { subst t'. rewrite Z.quot_mul by lia.
    unfold Int64.in_range, Int64.min_int, Int64.max_int in *.
    pose proof (Z.quot_rem' t 1000000). pose proof (Z.rem_bound_abs t 1000000).
    destruct (decide (0 <= t)).
    - pose proof (Z.quot_pos t 1000000). pose proof (Z.rem_nonneg t 1000000). lia.
    - pose proof (Z.quot_opp_l t 1000000). pose proof (Z.rem_nonpos t 1000000).
      pose proof (Z.quot_pos (- t) 1000000). lia. }
  destruct Ht' as (Hr' & Hloss & Habs & Hq).
  split; [|split; [done|split; [done|split; [|done]]]].
  - unfold parseTimeString.
    pose proof (formatInt_no_plus (Z.quot t 1000000)) as Hplus.
    pose proof (Bisync.ParseInt_formatInt _ Hms) as Hparse.
    assert (Hne : Bisync.formatInt (Z.quot t 1000000) ≠ EmptyString).
    { intros Heq. rewrite Heq in Hparse. discriminate Hparse. }
    rewrite bool_decide_false by done.
    assert (strconv_ParseInt (Bisync.formatInt (Z.quot t 1000000)) =
            Some (Z.quot t 1000000)) as ->.
    { rewrite <- Hparse. unfold strconv_ParseInt.
      destruct (Bisync.formatInt (Z.quot t 1000000)) as [|c r]; [done|].
      destruct c as [[] [] [] [] [] [] [] []]; try done. }
    f_equal. unfold time_Unix. subst t'.
    pose proof (Z.quot_rem' (Z.quot t 1000000) 1000). lia.
  - rewrite (Int64.wrap_small t' Hr'). by rewrite Hq.
Qed.

Lemma timeString_round_trip_witness :
  parseTimeString (timeString 1500000000123456789) 0 = (1500000000123000000, None).
Proof.
  assert (H : Int64.in_range 1500000000123456789).
  { unfold Int64.in_range, Int64.min_int, Int64.max_int. lia. }
  exact (proj1 (timeString_round_trip 1500000000123456789 0 H)).
Defined.

(** *** [urlEncode] *)

Lemma escape_shape c :
  noNeedToEncode c = false →
  ∃ x1 x2, escape c = String "%" (String x1 (String x2 EmptyString)) ∧
           unescape x1 x2 = c ∧
           (Ascii.eqb x1 " " = (nat_of_ascii c <? 16)%nat) ∧ Ascii.eqb x2 " " = false.
Proof.
  destruct c as [[] [] [] [] [] [] [] []]; intros Hc; try discriminate Hc;
    eexists _, _; (split; [reflexivity|split; [reflexivity|split; reflexivity]]).
Qed.

Lemma noNeedToEncode_plain c :
  noNeedToEncode c = true →
  Ascii.eqb c "%" = false ∧ Ascii.eqb c " " = false ∧ (nat_of_ascii c <? 16)%nat = false.
Proof.
  destruct c as [[] [] [] [] [] [] [] []]; intros Hc; try discriminate Hc; done.
Qed.

(** X24.  [urlEncode] loses nothing: two strings with the same encoding
    are the same string. *)
Theorem urlEncode_injective (a b : string) :
  urlEncode a = urlEncode b → a = b.
Proof.
  revert b. induction a as [|c a IH]; intros [|d b]; cbn [urlEncode].
  - done.
  - destruct (noNeedToEncode d) eqn:Hd; [done|].
    destruct (escape_shape d Hd) as (y1 & y2 & -> & _). done.
  - destruct (noNeedToEncode c) eqn:Hc; [done|].
    destruct (escape_shape c Hc) as (x1 & x2 & -> & _). done.
  - destruct (noNeedToEncode c) eqn:Hc, (noNeedToEncode d) eqn:Hd.
    + intros [= -> H]. f_equal. by apply IH.
    + destruct (escape_shape d Hd) as (y1 & y2 & -> & _).
      intros [= -> _]. discriminate Hc.
    + destruct (escape_shape c Hc) as (x1 & x2 & -> & _).
      intros [= <- _]. discriminate Hd.
    + destruct (escape_shape c Hc) as (x1 & x2 & -> & <- & _).
      destruct (escape_shape d Hd) as (y1 & y2 & -> & <- & _).
      intros [= -> -> H]. f_equal. by apply IH.
Qed.

Lemma urlEncode_injective_witness :
  String "010" "a b" = String "010" "a b".
Proof.
  exact (urlEncode_injective (String "010" "a b") (String "010" "a b") eq_refl).
Defined.

(** X25.  The escape of a byte below 16 holds a space where a
    percent-encoding has a zero, the verb being [%2X]: the encoding of a
    string is free of spaces exactly when the string has no byte below
    16. *)
Theorem urlEncode_space (inp : string) :
  Bisync.allChars (λ c, negb (Ascii.eqb c " ")) (urlEncode inp) =
  Bisync.allChars (λ c, (16 <=? nat_of_ascii c)%nat) inp.
Proof.
  induction inp as [|c inp IH]; [done|]. cbn [urlEncode Bisync.allChars].
  rewrite <- IH, Bisync.allChars_app. f_equal.
  destruct (noNeedToEncode c) eqn:Hc.
  - destruct (noNeedToEncode_plain c Hc) as (_ & Hs & Hlt).
    cbn [Bisync.allChars]. rewrite Hs. cbn [negb andb].
    symmetry. apply Nat.leb_le. by apply Nat.ltb_ge in Hlt.
  - destruct (escape_shape c Hc) as (x1 & x2 & -> & _ & H1 & H2).
    cbn [Bisync.allChars]. rewrite H1, H2.
    change (Ascii.eqb "%" " ") with false. cbn [negb andb]. rewrite andb_true_r.
    destruct (Nat.ltb_spec (nat_of_ascii c) 16) as [Hlt|Hge]; cbn [negb].
    + symmetry. by apply Nat.leb_gt.
    + symmetry. by apply Nat.leb_le.
Qed.

End B2More.

(** ** More of the listings of bisync *)

Module BisyncMore.

Import Bisync.

(** [slices.Index(s, v)]: the index of the first occurrence of [v] in [s],
    or [-1] if not present. *)
Fixpoint slices_Index (s : list string) (v : string) : Z :=
  match s with
  | [] => -1
  | x :: s =>
    if bool_decide (x = v) then 0
    else let i := slices_Index s v in if i <? 0 then -1 else i + 1
  end.

(** [slices.Delete(s, i, j)] of [golang.org/x/exp/slices] removes the
    elements [s[i:j]] from [s]; it panics if [s[i:j]] is not a valid slice
    of [s].  The upper bound of a slice expression is the capacity; the
    length is taken here, which is the same for the calls of [remove],
    where [j] is at most the length whenever [i] is not negative. *)
Definition slices_Delete (s : list string) (i j : Z) : outcome (list string) :=
  if (0 <=? i) && (i <=? j) && (j <=? Z.of_nat (length s)) then
    Returns (take (Z.to_nat i) s ++ drop (Z.to_nat j) s)
  else Panics "slice bounds out of range".

Section Listing.

Variable Unquote : string → option string.

Definition remove (file : string) (ls : fileList) : outcome fileList :=
  if has Unquote file ls then
    let i := slices_Index (names ls) file in
    bind_outcome (slices_Delete (names ls) i (i + 1))
      (λ l, Returns (mkFileList l (delete file (info ls)) (lsHash ls)))
  else Returns ls.



End Listing.

(** The list of a listing holds every key of its map once, and nothing
    else.  [newFileList] makes such a listing and [put] keeps it so. *)
Definition consistent (ls : fileList) : Prop :=
  NoDup (names ls) ∧ ∀ file, file ∈ names ls ↔ is_Some (info ls !! file).

(** What [loadListing] checks of a line before it stores it. *)
Definition accepted (fi : fileInfo) : Prop :=
  (flags fi = "-" ∨ flags fi = "d") ∧ id fi = "-" ∧ Int64.in_range (size fi).


(** *** [put] and [get] *)

Lemma getKey_key Unquote file ls key fi :
  getKey Unquote file ls = Some (key, fi) →
  info ls !! key = Some fi ∧
  (info ls !! file = None →
   key = default EmptyString
           (Unquote (String quoteChar file +:+ String quoteChar EmptyString))).
Proof.
  unfold getKey. destruct (info ls !! file) as [fi'|] eqn:Hf.
  - intros [= <- <-]. done.
  - destruct (info ls !! default _ _) as [fi'|] eqn:Hu; [|done].
    intros [= <- <-]. done.
Qed.



Lemma put_consistent Unquote file sz t h i fl ls :
  consistent ls → consistent (put Unquote file sz t h i fl ls).
Proof.
  intros [Hnd Hnames]. unfold put.
  destruct (getKey Unquote file ls) as [[key fi]|] eqn:Hk.
  - destruct (getKey_key _ _ _ _ _ Hk) as [Hkey _].
    split; [done|]. intros f. cbn [names info]. rewrite Hnames.
    destruct (decide (f = key)) as [->|Hne].
    + rewrite lookup_insert_eq, Hkey. split; by eexists.
    + by rewrite lookup_insert_ne.
  - assert (Hnone : info ls !! file = None).
    { unfold getKey in Hk. by destruct (info ls !! file). }
    split; cbn [names info].
    + apply NoDup_app. split; [done|]. split; [|apply NoDup_singleton].
      intros f Hf ->%list_elem_of_singleton. apply Hnames in Hf.
      rewrite Hnone in Hf. by destruct Hf.
    + intros f. rewrite elem_of_app, list_elem_of_singleton, Hnames.
      destruct (decide (f = file)) as [->|Hne].
      * rewrite lookup_insert_eq. split; [by eexists|by right].
      * rewrite lookup_insert_ne by done. split; [by intros [?|?]|by left].
Qed.



(** *** [loadListing] *)

Lemma ParseInt_range s z : ParseInt s = Some z → Int64.in_range z.
Proof.
  unfold ParseInt. destruct (NilZero.int_of_string s); [|done].
  case_match eqn:Hr; [|done]. intros [= <-].
  apply andb_true_iff in Hr as [?%Z.leb_le ?%Z.leb_le]. done.
Qed.

Lemma put_accepted Unquote file sz t h i fl ls :
  accepted (mkFileInfo sz t h i fl) →
  map_Forall (λ _ fi, accepted fi) (info ls) →
  map_Forall (λ _ fi, accepted fi) (info (put Unquote file sz t h i fl ls)).
Proof.
  intros Hacc Hall. unfold put.
  destruct (getKey Unquote file ls) as [[key fi]|]; cbn [info];
    (apply map_Forall_insert_2; [|done]); exact Hacc.
Qed.

Lemma loadLine_cases Unquote parseTime hash_Set line (ls : fileList) (last : string) :
  let ls' := (loadLine Unquote parseTime hash_Set line (ls, last)).1 in
  (∃ h, ls' = mkFileList (names ls) (info ls) h) ∨
  (∃ h name sz t hv i fl,
     accepted (mkFileInfo sz t hv i fl) ∧
     ls' = put Unquote name sz t hv i fl (mkFileList (names ls) (info ls) h)).
Proof.
  destruct ls as [n inf h0]. cbn zeta. unfold loadLine.
  repeat case_match; simplify_eq; cbn [fst names info lsHash];
    try (left; by eexists).
  all: right; eexists _, _, _, _, _, _, _; (split; [|reflexivity]).
  all: repeat match goal with
       | H : (_ || _) = false |- _ => apply orb_false_iff in H as [? ?]
       end.
  all: split; [|split; [|by eapply ParseInt_range]]; cbn.
  all: try match goal with
       | H : bool_decide (_ ≠ "-") = false |- _ = "-" =>
         apply bool_decide_eq_false in H; by apply dec_stable
       end.
  all: match goal with
       | H : (_ && _) = false |- _ =>
         apply andb_false_iff in H as [H|H]; apply bool_decide_eq_false in H;
           [left|right]; by apply dec_stable
       end.
Qed.

Lemma loadLine_inv Unquote parseTime hash_Set line (st : fileList * string) :
  consistent st.1 ∧ map_Forall (λ _ fi, accepted fi) (info st.1) →
  consistent (loadLine Unquote parseTime hash_Set line st).1 ∧
  map_Forall (λ _ fi, accepted fi) (info (loadLine Unquote parseTime hash_Set line st).1).
Proof.
  destruct st as [ls last]. intros Hinv.
  destruct (loadLine_cases Unquote parseTime hash_Set line ls last)
    as [[h ->]|(h & name & sz & t & hv & i & fl & Hacc & ->)].
  - exact Hinv.
  - split; [apply put_consistent, Hinv|]. apply put_accepted; [done|apply Hinv].
Qed.

(** X27.  Whatever the text, the listing [loadListing] makes of it is
    consistent and holds only entries whose flags are [-] or [d], whose id
    is [-] and whose size is an [int64]; and [save] of that listing returns
    (it finds the info of every name it writes). *)
Theorem loadListing_sound Quote Unquote formatTime parseTime now hash_String hash_Set
    (content : string) :
  let ls := loadListing Unquote parseTime hash_Set content in
  consistent ls ∧
  (∀ file fi, info ls !! file = Some fi → accepted fi) ∧
  ∃ sorted text,
    save Quote Unquote formatTime now hash_String ls = Returns (sorted, text).
Proof.
  cbn zeta.
  assert (Hinv : consistent (loadListing Unquote parseTime hash_Set content) ∧
    map_Forall (λ _ fi, accepted fi)
      (info (loadListing Unquote parseTime hash_Set content))).
  { unfold loadListing. generalize (readLines content EmptyString). intros lines.
    assert (Hstart : consistent (newFileList, EmptyString).1 ∧
      map_Forall (λ _ fi, accepted fi) (info (newFileList, EmptyString).1)).
    { split; [|apply map_Forall_empty]. split; [apply NoDup_nil_2|].
      intros f. cbn. rewrite lookup_empty. split; [by intros ?%elem_of_nil|].
      by intros []. }
    revert Hstart. generalize (newFileList, EmptyString).
    induction lines as [|line lines IH]; intros st Hst; [done|].
    cbn [foldl]. apply IH. by apply loadLine_inv. }
  destruct Hinv as [Hcons Hacc]. split; [done|]. split; [exact Hacc|].
  set (ls := loadListing Unquote parseTime hash_Set content) in *.
  unfold save.
  destruct (saveLines_spec Quote Unquote formatTime
              (if bool_decide (lsHash (sort ls) ≠ hash_None)
               then hash_String (lsHash (sort ls)) else EmptyString)
              (sort ls) (names (sort ls))) as (lines & -> & _).
  { intros remote Hin. rewrite get_sort. unfold sort in Hin. cbn [names] in Hin.
    rewrite merge_sort_Permutation in Hin. apply Hcons in Hin as [fi Hfi].
    exists fi. unfold get, getKey. by rewrite Hfi. }
  cbn. by eexists _, _.
Qed.

(** *** [remove] *)

Lemma filter_all {A} (P : A → Prop) `{∀ x, Decision (P x)} (l : list A) :
  Forall P l → filter P l = l.
Proof.
  induction 1 as [|x l Hx Hl IH]; [done|].
  rewrite filter_cons, decide_True by done. by rewrite IH.
Qed.

Lemma slices_Index_spec (s : list string) (v : string) :
  ((v ∉ s) ∧ slices_Index s v = (-1)) ∨
  (∃ a z, s = a ++ v :: z ∧ (v ∉ a) ∧ slices_Index s v = Z.of_nat (length a)).
Proof.
  induction s as [|x s IH]; [left; split; [by intros ?%elem_of_nil|done]|].
  cbn [slices_Index]. case_bool_decide as Hx.
  - subst x. right. exists [], s. split; [done|]. split; [by intros ?%elem_of_nil|done].
  - destruct IH as [[Hn ->]|(a & z & -> & Ha & ->)].
    + left. split; [|done]. by intros [?|?]%elem_of_cons.
    + right. exists (x :: a), z. split; [done|].
      split; [by intros [?|?]%elem_of_cons|].
      destruct (Z.ltb_spec (Z.of_nat (length a)) 0); [lia|]. cbn [length]. lia.
Qed.

Lemma remove_cases Unquote (file : string) (ls : fileList) :
  consistent ls →
  (is_Some (info ls !! file) →
   ∃ ls', remove Unquote file ls = Returns ls' ∧
          names ls' = filter (λ f, f ≠ file) (names ls) ∧
          info ls' = delete file (info ls) ∧ consistent ls') ∧
  (info ls !! file = None → has Unquote file ls = true →
   ∃ msg, remove Unquote file ls = Panics msg).
Proof.
  intros [Hnd Hnames]. split.
  - intros Hsome. unfold remove.
    assert (has Unquote file ls = true) as ->.
    { unfold has. apply bool_decide_eq_true. destruct Hsome as [fi Hfi].
      exists fi. unfold get, getKey. by rewrite Hfi. }
    destruct (slices_Index_spec (names ls) file) as [[Hn _]|(a & z & Hs & Ha & ->)].
    { exfalso. apply Hn, Hnames, Hsome. }
    unfold slices_Delete. rewrite Hs, length_app. cbn [length].
    assert ((0 <=? Z.of_nat (length a)) && (Z.of_nat (length a) <=? Z.of_nat (length a) + 1)
            && (Z.of_nat (length a) + 1 <=? Z.of_nat (length a + S (length z))) = true)
      as ->.
    { repeat (apply andb_true_iff; split); apply Z.leb_le; lia. }
    cbn [bind_outcome]. eexists. split; [done|]. cbn [names info].
    rewrite Nat2Z.id, take_app_length.
    replace (Z.to_nat (Z.of_nat (length a) + 1)) with (length a + 1)%nat by lia.
    rewrite drop_app_add. change (drop 1 (file :: z)) with z.
    rewrite Hs in Hnd. apply NoDup_app in Hnd as (Hnda & Hdis & Hndz).
    apply NoDup_cons in Hndz as [Hz Hndz].
    assert (Hfilter : filter (λ f, f ≠ file) (a ++ file :: z) = a ++ z).
    { rewrite filter_app, filter_cons. rewrite decide_False by (by intros H; apply H).
      f_equal; apply filter_all.
      - apply Forall_forall. intros f Hf ->. by apply Ha.
      - apply Forall_forall. intros f Hf ->. by apply Hz. }
    rewrite Hfilter. split; [done|]. split; [done|]. split.
    + apply NoDup_app. split; [done|]. split; [|done].
      intros f Hfa Hfz. apply (Hdis f Hfa). by right.
    + intros f. cbn [names info]. rewrite elem_of_app.
      destruct (decide (f = file)) as [->|Hne].
      * rewrite lookup_delete_eq. split; [by intros [?|?]|by intros []].
      * rewrite lookup_delete_ne by done. rewrite <- Hnames, Hs.
        rewrite elem_of_app, elem_of_cons. intuition congruence.
  - intros Hnone Hhas. unfold remove. rewrite Hhas.
    destruct (slices_Index_spec (names ls) file) as [[Hn ->]|(a & z & Hs & _)].
    + by eexists.
    + exfalso. assert (Hin : file ∈ names ls).
      { rewrite Hs. apply elem_of_app. right. by left. }
      apply Hnames in Hin. rewrite Hnone in Hin. by destruct Hin.
Qed.

(** X28.  On a consistent listing [remove] of a name that is a key of the
    map takes the name off the list and the key off the map, and the
    listing stays consistent.  A name that is no key but is found by [has]
    through unquoting makes [remove] panic: [slices.Index] answers [-1] and
    [slices.Delete] is called with it. *)
Theorem remove_spec Unquote (file : string) (ls : fileList) :
  consistent ls →
  (is_Some (info ls !! file) →
   ∃ ls', remove Unquote file ls = Returns ls' ∧
          names ls' = filter (λ f, f ≠ file) (names ls) ∧
          info ls' = delete file (info ls) ∧ consistent ls') ∧
  (info ls !! file = None → has Unquote file ls = true →
   ∃ msg, remove Unquote file ls = Panics msg).
Proof. apply remove_cases. Qed.

Lemma consistent_example :
  consistent (put plainUnquote "a" 1 0 "h" "-" "-"
                (put plainUnquote "b" 2 0 "h" "-" "-" newFileList)).
Proof.
  do 2 apply put_consistent. split; [apply NoDup_nil_2|].
  intros f. cbn. rewrite lookup_empty. split; [by intros ?%elem_of_nil|by intros []].
Qed.

Lemma remove_spec_witness :
  let ls := put plainUnquote "a" 1 0 "h" "-" "-"
              (put plainUnquote "b" 2 0 "h" "-" "-" newFileList) in
  ∃ ls', remove plainUnquote "b" ls = Returns ls' ∧
         names ls' = filter (λ f, f ≠ "b") (names ls) ∧
         info ls' = delete "b" (info ls) ∧ consistent ls'.
Proof.
  intros ls.
  assert (Hsome : is_Some (info ls !! "b")) by (by eexists).
  exact (proj1 (remove_spec plainUnquote "b" ls consistent_example) Hsome).
Defined.

(** *** [rollback] *)




(** *** [parseHash] *)

Lemma cutColon_spec (s name val : string) :
  cutColon s = Some (name, val) ↔
  s = name +:+ String ":" val ∧ allChars (λ c, negb (Ascii.eqb c ":")) name = true.
Proof.
  revert name. induction s as [|c s IH]; intros name.
  { cbn [cutColon]. split; [done|]. intros [H _]. by destruct name. }
  cbn [cutColon]. destruct (Ascii.eqb c ":") eqn:Hc.
  - apply Ascii.eqb_eq in Hc as ->. split.
    + by intros [= <- <-].
    + intros [H Hall]. destruct name as [|d name].
      * cbn in H. by injection H as <-.
      * cbn in H. injection H as <- _. discriminate Hall.
  - split.
    + destruct (cutColon s) as [[a rest]|] eqn:Hs; [|done].
      intros [= <- <-]. destruct (proj1 (IH a) eq_refl) as [-> Ha].
      split; [done|]. cbn [allChars]. by rewrite Hc, Ha.
    + intros [H Hall]. destruct name as [|d name].
      * cbn in H. injection H as -> _. discriminate Hc.
      * cbn in H. injection H as <- H. cbn [allChars] in Hall.
        apply andb_true_iff in Hall as [_ Hall].
        by rewrite (proj2 (IH name) (conj H Hall)).
Qed.

(** X30.  [parseHash] reads back the hash column [save] writes: for a
    hash name without a colon and not empty and a value not empty,
    [name:value] parses to the name and the value, and [-] parses to an
    empty name and value; nothing else parses: every string that parses is
    [-] or is the name, a colon and the value. *)
Theorem parseHash_spec (str name val : string) :
  parseHash str = Some (name, val) ↔
  (str = "-" ∧ name = EmptyString ∧ val = EmptyString) ∨
  (str = name +:+ String ":" val ∧ name ≠ EmptyString ∧ val ≠ EmptyString ∧
   allChars (λ c, negb (Ascii.eqb c ":")) name = true).
Proof.
  unfold parseHash. case_bool_decide as Hd.
  - subst str. split; [intros [= <- <-]; by left|].
    intros [(_ & -> & ->)|(H & Hn & Hv & Hall)]; [done|].
    exfalso. destruct name as [|c name]; [done|].
    cbn in H. injection H as <- H. destruct name; discriminate H.
  - destruct (cutColon str) as [[n v]|] eqn:Hc.
    + apply cutColon_spec in Hc as [-> Hall].
      destruct (bool_decide (n ≠ EmptyString) && bool_decide (v ≠ EmptyString)) eqn:Hnv.
      * apply andb_true_iff in Hnv as [Hn%bool_decide_eq_true Hv%bool_decide_eq_true].
        split.
        -- intros [= <- <-]. by right.
        -- intros [(H & _)|(H & _ & _ & Hall')]; [done|].
           assert (cutColon (n +:+ String ":" v) = Some (name, val)) as Hcut
             by (by apply cutColon_spec).
           assert (cutColon (n +:+ String ":" v) = Some (n, v)) as Hcut'
             by (by apply cutColon_spec).
           congruence.
      * split; [done|]. intros [(H & _)|(H & Hn & Hv & Hall')]; [done|].
        assert (cutColon (n +:+ String ":" v) = Some (name, val)) as Hcut
          by (by apply cutColon_spec).
        assert (cutColon (n +:+ String ":" v) = Some (n, v)) as Hcut'
          by (by apply cutColon_spec).
        rewrite Hcut in Hcut'. injection Hcut' as -> ->.
        apply andb_false_iff in Hnv as [H'|H']; apply bool_decide_eq_false in H';
          by destruct H'.
    + split; [done|]. intros [(H & _)|(H & _ & _ & Hall)]; [done|].
      assert (cutColon str = Some (name, val)) as Hcut by (by apply cutColon_spec).
      congruence.
Qed.

End BisyncMore.
